(** * The Swift type representation core (include/swift/AST/Types.h)

    A shallow embedding of the type nodes declared in [Types.h], of the
    property bitset they carry, and of the uniquing, canonicalization and
    existential-opening operations of the owning [ASTContext].

    Everything that [Types.h] defines inline is transcribed from it.  The
    factory functions ([get], [getOpened], [getCanonicalType], ...) are only
    declared in the header; their bodies are modelled from the specification
    and every such definition says so in its documentation. *)

From Stdlib Require Import ZArith Lia Bool.
From stdpp Require Import base option list gmap strings.

(** ** Calls that may hit a failed assertion *)

(** A call either returns a value or aborts the process ([assert],
    [llvm_unreachable], [cast<>] of the wrong kind, a null or dangling
    dereference). *)
Inductive Outcome (A : Type) : Type :=
| Returns (a : A)
| Aborts.
Arguments Returns {A} a.
Arguments Aborts {A}.

Definition Outcome_bind {A B : Type} (m : Outcome A) (f : A -> Outcome B) : Outcome B :=
  match m with
  | Returns a => f a
  | Aborts => Aborts
  end.

(** [assert(cond)] *)
Definition Assert (cond : bool) : Outcome unit :=
  if cond then Returns tt else Aborts.

(** ** RecursiveTypeProperties (Types.h:77-152) *)

Module RecursiveTypeProperties.

(** [enum { BitWidth = 3 }] *)
Definition BitWidth : Z := 3.

(** [enum Property : unsigned] *)
Inductive Property : Set :=
| HasTypeVariable
| IsDependent
| IsNotMaterializable.

Definition Property_value (prop : Property) : Z :=
  match prop with
  | HasTypeVariable => 0x01
  | IsDependent => 0x02
  | IsNotMaterializable => 0x04
  end.

(** [unsigned Bits : BitWidth]: a store into the bit-field keeps the low
    [BitWidth] bits. *)
Definition toBitField (bits : Z) : Z := Z.land bits (Z.ones BitWidth).

Record t : Set := mk { Bits : Z }.

(** [RecursiveTypeProperties() : Bits(0)] *)
Definition empty : t := mk (toBitField 0).

(** [RecursiveTypeProperties(Property prop) : Bits(prop)] *)
Definition ofProperty (prop : Property) : t := mk (toBitField (Property_value prop)).

(** [explicit RecursiveTypeProperties(unsigned bits) : Bits(bits)] *)
Definition ofBits (bits : Z) : t := mk (toBitField bits).

Definition getBits (s : t) : Z := Bits s.

(** [bool hasTypeVariable() const { return Bits & HasTypeVariable; }] *)
Definition hasTypeVariable (s : t) : bool :=
  negb (Z.land (Bits s) (Property_value HasTypeVariable) =? 0)%Z.

(** [bool isDependent() const { return Bits & IsDependent; }] *)
Definition isDependent (s : t) : bool :=
  negb (Z.land (Bits s) (Property_value IsDependent) =? 0)%Z.

(** [bool isMaterializable() const { return !(Bits & IsNotMaterializable); }] *)
Definition isMaterializable (s : t) : bool :=
  (Z.land (Bits s) (Property_value IsNotMaterializable) =? 0)%Z.

(** [operator+(Property lhs, Property rhs)] *)
Definition plusProperty (lhs rhs : Property) : t :=
  ofBits (Z.lor (Property_value lhs) (Property_value rhs)).

(** [operator+(RecursiveTypeProperties lhs, RecursiveTypeProperties rhs)];
    [operator+=] stores the same value back into the receiver. *)
Definition plus (lhs rhs : t) : t := ofBits (Z.lor (Bits lhs) (Bits rhs)).

(** [operator-(RecursiveTypeProperties other)]; [operator-=] likewise. *)
Definition minus (lhs other : t) : t :=
  ofBits (Z.land (Bits lhs) (Z.lnot (Bits other))).

(** [bool operator&(Property prop) const { return Bits & prop; }] *)
Definition test (s : t) (prop : Property) : bool :=
  negb (Z.land (Bits s) (Property_value prop) =? 0)%Z.

End RecursiveTypeProperties.

Module RTP := RecursiveTypeProperties.

(** ** BuiltinIntegerWidth (Types.h:715-787) *)

Module BuiltinIntegerWidth.

(** [unsigned] is 32 bits wide. *)
Definition UINT_MAX : Z := 2 ^ 32 - 1.

(** [~nU] on [unsigned]. *)
Definition unsignedNot (n : Z) : Z := UINT_MAX - n.

Definition Least_SpecialValue : Z := unsignedNot 2.
Definition PointerWidth : Z := unsignedNot 0.
Definition DenseMapEmpty : Z := unsignedNot 1.
Definition DenseMapTombstone : Z := unsignedNot 2.

Record t : Set := mk { RawValue : Z }.

(** [BuiltinIntegerWidth() : RawValue(0)] *)
Definition default : t := mk 0.

(** [static BuiltinIntegerWidth fixed(unsigned bitWidth)] *)
Definition fixed (bitWidth : Z) : Outcome t :=
  Outcome_bind (Assert (bitWidth <? Least_SpecialValue)%Z) (fun _ =>
  Returns (mk bitWidth)).

(** [static BuiltinIntegerWidth pointer()] *)
Definition pointer : t := mk PointerWidth.

(** [bool isFixedWidth() const { return RawValue < Least_SpecialValue; }] *)
Definition isFixedWidth (w : t) : bool := (RawValue w <? Least_SpecialValue)%Z.

(** [unsigned getFixedWidth() const]: fails if the width is abstract. *)
Definition getFixedWidth (w : t) : Outcome Z :=
  Outcome_bind (Assert (isFixedWidth w)) (fun _ =>
  Returns (RawValue w)).

(** [bool isPointerWidth() const] *)
Definition isPointerWidth (w : t) : bool := (RawValue w =? PointerWidth)%Z.

(** [unsigned getLeastWidth() const] *)
Definition getLeastWidth (w : t) : Outcome Z :=
  if isFixedWidth w then getFixedWidth w
  else if isPointerWidth w then Returns 32%Z
  else Aborts.

(** [unsigned getGreatestWidth() const] *)
Definition getGreatestWidth (w : t) : Outcome Z :=
  if isFixedWidth w then getFixedWidth w
  else if isPointerWidth w then Returns 64%Z
  else Aborts.

End BuiltinIntegerWidth.

(** ** ParameterConvention (Types.h:2066-2118) *)

Inductive ParameterConvention : Set :=
| Indirect_In
| Indirect_Inout
| Indirect_Out
| Direct_Owned
| Direct_Unowned
| Direct_Guaranteed.

(** The enumerators carry no initialisers: they are numbered from zero in
    declaration order. *)
Definition ParameterConvention_value (conv : ParameterConvention) : Z :=
  match conv with
  | Indirect_In => 0
  | Indirect_Inout => 1
  | Indirect_Out => 2
  | Direct_Owned => 3
  | Direct_Unowned => 4
  | Direct_Guaranteed => 5
  end.

(** [return conv <= ParameterConvention::Indirect_Out;] *)
Definition isIndirectParameter (conv : ParameterConvention) : bool :=
  (ParameterConvention_value conv <=? ParameterConvention_value Indirect_Out)%Z.

(** [isConsumedParameter]: the [switch] covers every enumerator. *)
Definition isConsumedParameter (conv : ParameterConvention) : bool :=
  match conv with
  | Indirect_In | Direct_Owned => true
  | Indirect_Inout | Indirect_Out | Direct_Unowned | Direct_Guaranteed => false
  end.

(** ** Handles of the collaborators *)

(** Declarations ([NominalTypeDecl *], [ProtocolDecl *], ...) are opaque
    handles compared by identity. *)
Definition Decl : Set := Z.

(** [Identifier]: a pointer to a uniqued string; the null pointer is the
    empty identifier. *)
Definition Identifier : Set := Z.

(** [Type]: a possibly null [TypeBase *].  A [TypeBase *] is the position of
    the node in the storage of the owning [ASTContext]. *)
Definition Type_ : Set := option nat.

Inductive NominalKind : Set :=
| EnumDeclKind
| StructDeclKind
| ClassDeclKind
| ProtocolDeclKind.

(** The declaration registry, an external collaborator: what the type core
    asks of a declaration.  [inheritedProtocols D] lists every protocol that
    the protocol [D] inherits from, directly or not (what
    [walkInheritedProtocols] visits apart from [D] itself). *)
Record DeclRegistry : Type := {
  declKind : Decl -> NominalKind;
  declModuleName : Decl -> string;
  declName : Decl -> string;
  inheritedProtocols : Decl -> list Decl;
}.

(** ** TypeKind (Types.h:67-72, the kinds named by the classes of Types.h) *)

Inductive TypeKind : Set :=
| Error
| BuiltinInteger
| BuiltinFloat
| BuiltinRawPointer
| BuiltinObjectPointer
| BuiltinObjCPointer
| BuiltinVector
| NameAlias
| Paren
| Tuple
| Enum
| Struct
| Class
| Protocol
| Metatype
| ExistentialMetatype
| Module
| DynamicSelf
| Archetype
| GenericTypeParam
| AssociatedType
| Substituted
| DependentMember
| Function
| PolymorphicFunction
| GenericFunction
| SILFunction
| Array
| ArraySlice
| Optional
| UncheckedOptional
| ProtocolComposition
| LValue
| InOut
| UnboundGeneric
| BoundGenericClass
| BoundGenericEnum
| BoundGenericStruct
| UnownedStorage
| WeakStorage
| TypeVariable.

(** Modelled from the spec: [swift/AST/TypeNodes.def], which numbers the
    kinds, is not part of the sources; the kinds are numbered here in the
    order above.  Only the injectivity of the numbering is relied on. *)
Definition TypeKind_value (K : TypeKind) : Z :=
  match K with
  | Error => 0 | BuiltinInteger => 1 | BuiltinFloat => 2
  | BuiltinRawPointer => 3 | BuiltinObjectPointer => 4
  | BuiltinObjCPointer => 5 | BuiltinVector => 6 | NameAlias => 7
  | Paren => 8 | Tuple => 9 | Enum => 10 | Struct => 11 | Class => 12
  | Protocol => 13 | Metatype => 14 | ExistentialMetatype => 15
  | Module => 16 | DynamicSelf => 17 | Archetype => 18
  | GenericTypeParam => 19 | AssociatedType => 20 | Substituted => 21
  | DependentMember => 22 | Function => 23 | PolymorphicFunction => 24
  | GenericFunction => 25 | SILFunction => 26 | Array => 27
  | ArraySlice => 28 | Optional => 29 | UncheckedOptional => 30
  | ProtocolComposition => 31 | LValue => 32 | InOut => 33
  | UnboundGeneric => 34 | BoundGenericClass => 35 | BoundGenericEnum => 36
  | BoundGenericStruct => 37 | UnownedStorage => 38 | WeakStorage => 39
  | TypeVariable => 40
  end.

#[global] Instance TypeKind_eq_dec : EqDecision TypeKind.
Proof. solve_decision. Defined.

(** ** MetatypeRepresentation (Types.h:1454-1469) *)

Inductive MetatypeRepresentation : Set :=
| Thin
| Thick
| ObjC.

Definition MetatypeRepresentation_value (r : MetatypeRepresentation) : Z :=
  match r with
  | Thin => 0
  | Thick => 1
  | ObjC => 2
  end.

(** [static_cast<MetatypeRepresentation>(v)]; a value that names no
    enumerator has no reading here. *)
Definition MetatypeRepresentation_cast (v : Z) : Outcome MetatypeRepresentation :=
  if (v =? 0)%Z then Returns Thin
  else if (v =? 1)%Z then Returns Thick
  else if (v =? 2)%Z then Returns ObjC
  else Aborts.

(** ** TupleTypeElt (Types.h:938-1023) *)

(** [enum class DefaultArgOrVarArg : uint8_t] *)
Inductive DefaultArgOrVarArg : Set :=
| DAV_None
| DAV_VarArg
| DAV_DefaultArgument
| DAV_InheritedDefaultArgument
| DAV_FileArgument
| DAV_LineArgument
| DAV_ColumnArgument
| DAV_FunctionArgument.

Definition DefaultArgOrVarArg_value (d : DefaultArgOrVarArg) : Z :=
  match d with
  | DAV_None => 0
  | DAV_VarArg => 1
  | DAV_DefaultArgument => 2
  | DAV_InheritedDefaultArgument => 3
  | DAV_FileArgument => 4
  | DAV_LineArgument => 5
  | DAV_ColumnArgument => 6
  | DAV_FunctionArgument => 7
  end.

(** [Identifier Name] and the two halves of
    [llvm::PointerIntPair<Type, 3, DefaultArgOrVarArg> TyAndDefaultOrVarArg]. *)
Record TupleTypeElt : Set := {
  Name : Identifier;
  Ty : Type_;
  DefaultOrVarArg : DefaultArgOrVarArg;
}.

(** [/*implicit*/ TupleTypeElt(TypeBase *Ty)] *)
Definition TupleTypeElt_ofType (T : nat) : TupleTypeElt :=
  {| Name := 0%Z; Ty := Some T; DefaultOrVarArg := DAV_None |}.

(** [bool hasName() const { return !Name.empty(); }] *)
Definition hasName (elt : TupleTypeElt) : bool := negb (Name elt =? 0)%Z.

Definition getName (elt : TupleTypeElt) : Identifier := Name elt.

(** [Type getType() const] *)
Definition getType (elt : TupleTypeElt) : Type_ := Ty elt.

(** [bool isVararg() const] *)
Definition isVararg (elt : TupleTypeElt) : bool :=
  match DefaultOrVarArg elt with
  | DAV_VarArg => true
  | _ => false
  end.

(** ** The nodes: TypeBase and its subclasses *)

(** [llvm::PointerUnion<TypeBase *, const ASTContext *> CanonicalType]
    (Types.h:172-175).  There is one owning context, so the second member
    carries no data. *)
Inductive PointerUnion_TypeBase_ASTContext : Set :=
| IsTypeBase (CT : option nat)
| IsASTContext.

(** [llvm::PointerUnion<ArchetypeType *, TypeBase *> ParentOrOpened] *)
Inductive PointerUnion_Archetype_TypeBase : Set :=
| IsParent (Parent : option nat)
| IsOpened (Existential : option nat).

(** [llvm::PointerUnion<GenericTypeParamDecl *, Fixnum<31>> ParamOrDepthIndex] *)
Inductive PointerUnion_Param_DepthIndex : Set :=
| IsParam (param : Decl)
| IsDepthIndex (fixnum : Z).

(** The members a subclass adds to [TypeBase].  The classes of Types.h that
    the properties below do not touch (function types, storage qualifiers,
    alias and syntax sugar, ...) are left out of the model. *)
Inductive Subclass : Set :=
(** [ErrorType] *)
| ErrorType_
(** [BuiltinIntegerType]: [BuiltinIntegerWidth Width] *)
| BuiltinIntegerType_ (Width : BuiltinIntegerWidth.t)
(** [BuiltinVectorType]: [Type elementType; unsigned numElements] *)
| BuiltinVectorType_ (elementType : Type_) (numElements : Z)
(** [ParenType]: [Type UnderlyingType] *)
| ParenType_ (UnderlyingType : Type_)
(** [TupleType]: [const ArrayRef<TupleTypeElt> Fields] *)
| TupleType_ (Fields : list TupleTypeElt)
(** [NominalType] ([EnumType], [StructType], [ClassType], [ProtocolType]):
    [NominalTypeDecl *const TheDecl; Type Parent] *)
| NominalType_ (TheDecl : Decl) (Parent : Type_)
(** [BoundGenericType]:
    [NominalTypeDecl *TheDecl; Type Parent; ArrayRef<Type> GenericArgs] *)
| BoundGenericType_ (TheDecl : Decl) (Parent : Type_) (GenericArgs : list Type_)
(** [AnyMetatypeType]: [Type InstanceType] *)
| AnyMetatypeType_ (InstanceType : Type_)
(** [ProtocolCompositionType]: [ArrayRef<Type> Protocols] *)
| ProtocolCompositionType_ (Protocols : list Type_)
(** [ArchetypeType]: [ConformsTo] and [Superclass] of [SubstitutableType],
    [ParentOrOpened], [IndexIfPrimaryOrExistentialID].  [AssocTypeOrProto],
    [Name] and [NestedTypes] stay default-initialised in an opened archetype
    and are left out. *)
| ArchetypeType_ (ConformsTo : list Decl) (Superclass : Type_)
    (ParentOrOpened : PointerUnion_Archetype_TypeBase)
    (IndexIfPrimaryOrExistentialID : Z)
(** [GenericTypeParamType]: [ParamOrDepthIndex] *)
| GenericTypeParamType_ (ParamOrDepthIndex : PointerUnion_Param_DepthIndex)
(** [DependentMemberType]: [Type Base] and [NameOrAssocType], held as a name *)
| DependentMemberType_ (Base : Type_) (MemberName : Identifier)
(** [TypeVariableType] (its [ID] lives in the bit-fields) *)
| TypeVariableType_.

(** [class alignas(8) TypeBase] (Types.h:165-245).  [Properties] is
    [TypeBaseBits.Properties]; [SubclassBits] is what the other members of
    the bit-field union keep after the shared [NumTypeBaseBits] bits
    ([AnyMetatypeTypeBits.Representation], [TypeVariableTypeBits.ID]). *)
Record TypeBase : Set := {
  CanonicalType : PointerUnion_TypeBase_ASTContext;
  Kind : TypeKind;
  Properties : Z;
  SubclassBits : Z;
  Members : Subclass;
}.

(** [void setRecursiveProperties(RecursiveTypeProperties properties)] *)
Definition setRecursiveProperties (T : TypeBase) (properties : RTP.t) : TypeBase :=
  {| CanonicalType := CanonicalType T;
     Kind := Kind T;
     Properties := RTP.toBitField (RTP.getBits properties);
     SubclassBits := SubclassBits T;
     Members := Members T |}.

(** [TypeBase(TypeKind kind, const ASTContext *CanTypeCtx,
             RecursiveTypeProperties properties)];
    [CanTypeCtx] says whether the context pointer is non-null. *)
Definition TypeBase_ctor (kind : TypeKind) (CanTypeCtx : bool)
    (properties : RTP.t) (members : Subclass) : TypeBase :=
  setRecursiveProperties
    {| CanonicalType := if CanTypeCtx then IsASTContext else IsTypeBase None;
       Kind := kind;
       Properties := 0;
       SubclassBits := 0;
       Members := members |}
    properties.

Definition getKind (T : TypeBase) : TypeKind := Kind T.

(** [bool isCanonical() const { return CanonicalType.is<const ASTContext *>(); }] *)
Definition isCanonical (T : TypeBase) : bool :=
  match CanonicalType T with
  | IsASTContext => true
  | IsTypeBase _ => false
  end.

(** [bool hasCanonicalTypeComputed() const { return !CanonicalType.isNull(); }] *)
Definition hasCanonicalTypeComputed (T : TypeBase) : bool :=
  match CanonicalType T with
  | IsASTContext => true
  | IsTypeBase (Some _) => true
  | IsTypeBase None => false
  end.

(** [RecursiveTypeProperties getRecursiveProperties() const] *)
Definition getRecursiveProperties (T : TypeBase) : RTP.t :=
  RTP.ofBits (Properties T).

Definition isMaterializable (T : TypeBase) : bool :=
  RTP.isMaterializable (getRecursiveProperties T).

Definition hasTypeVariable (T : TypeBase) : bool :=
  RTP.hasTypeVariable (getRecursiveProperties T).


(** ** Constructors of the node classes *)

(** [T->getRecursiveProperties()] and [T->isCanonical()] through a [Type]
    held by another node.  The factories below check that the pointer is
    live before they rely on either. *)
Definition derefType (Nodes : list TypeBase) (T : Type_) : option TypeBase :=
  match T with
  | Some p => Nodes !! p
  | None => None
  end.

Definition isLive (Nodes : list TypeBase) (T : Type_) : bool :=
  match derefType Nodes T with
  | Some _ => true
  | None => false
  end.

Definition propertiesOf (Nodes : list TypeBase) (T : Type_) : RTP.t :=
  match derefType Nodes T with
  | Some N => getRecursiveProperties N
  | None => RTP.empty
  end.

Definition canonicalOf (Nodes : list TypeBase) (T : Type_) : bool :=
  match derefType Nodes T with
  | Some N => isCanonical N
  | None => false
  end.

Definition kindOf (Nodes : list TypeBase) (T : Type_) : option TypeKind :=
  match derefType Nodes T with
  | Some N => Some (Kind N)
  | None => None
  end.

(** [ErrorType(ASTContext &C)
      : TypeBase(TypeKind::Error, &C, RecursiveTypeProperties())] *)
Definition ErrorType_ctor : TypeBase :=
  TypeBase_ctor Error true RTP.empty ErrorType_.

(** [BuiltinType(TypeKind kind, const ASTContext &canTypeCtx)
      : TypeBase(kind, &canTypeCtx, RecursiveTypeProperties())] *)
Definition BuiltinType_ctor (kind : TypeKind) (members : Subclass) : TypeBase :=
  TypeBase_ctor kind true RTP.empty members.

(** [BuiltinVectorType(const ASTContext &context, Type elementType,
                      unsigned numElements)] *)
Definition BuiltinVectorType_ctor (elementType : Type_) (numElements : Z) : TypeBase :=
  BuiltinType_ctor BuiltinVector (BuiltinVectorType_ elementType numElements).

(** [BuiltinIntegerType(BuiltinIntegerWidth BitWidth, const ASTContext &C)] *)
Definition BuiltinIntegerType_ctor (BitWidth : BuiltinIntegerWidth.t) : TypeBase :=
  BuiltinType_ctor BuiltinInteger (BuiltinIntegerType_ BitWidth).


(** [BuiltinIntegerWidth getWidth() const { return Width; }]; the receiver
    is a [BuiltinIntegerType]. *)
Definition BuiltinIntegerType_getWidth (T : TypeBase) : Outcome BuiltinIntegerWidth.t :=
  match Members T with
  | BuiltinIntegerType_ Width => Returns Width
  | _ => Aborts
  end.

(** [bool isFixedWidth() const { return Width.isFixedWidth(); }] *)
Definition BuiltinIntegerType_isFixedWidth (T : TypeBase) : Outcome bool :=
  Outcome_bind (BuiltinIntegerType_getWidth T) (fun Width =>
  Returns (BuiltinIntegerWidth.isFixedWidth Width)).

(** [unsigned getFixedWidth() const { return Width.getFixedWidth(); }] *)
Definition BuiltinIntegerType_getFixedWidth (T : TypeBase) : Outcome Z :=
  Outcome_bind (BuiltinIntegerType_getWidth T) BuiltinIntegerWidth.getFixedWidth.

(** [ParenType(Type UnderlyingType, RecursiveTypeProperties properties)
      : TypeBase(TypeKind::Paren, nullptr, properties)] *)
Definition ParenType_ctor (UnderlyingType : Type_) (properties : RTP.t) : TypeBase :=
  TypeBase_ctor Paren false properties (ParenType_ UnderlyingType).

(** [TupleType(ArrayRef<TupleTypeElt> fields, const ASTContext *CanCtx,
              RecursiveTypeProperties properties)
      : TypeBase(TypeKind::Tuple, CanCtx, properties), Fields(fields)] *)
Definition TupleType_ctor (fields : list TupleTypeElt) (CanCtx : bool)
    (properties : RTP.t) : TypeBase :=
  TypeBase_ctor Tuple CanCtx properties (TupleType_ fields).

(** [NominalType(TypeKind K, const ASTContext *C, NominalTypeDecl *TheDecl,
                Type Parent, RecursiveTypeProperties properties)
      : TypeBase(K, (!Parent || Parent->isCanonical())? C : nullptr,
                 properties)] *)
Definition NominalType_ctor (Nodes : list TypeBase) (K : TypeKind) (C : bool)
    (TheDecl : Decl) (Parent : Type_) (properties : RTP.t) : TypeBase :=
  TypeBase_ctor K
    (if match Parent with None => true | Some _ => canonicalOf Nodes Parent end
     then C else false)
    properties (NominalType_ TheDecl Parent).

(** Modelled from the spec: the constructor
    [ProtocolType(ProtocolDecl *TheDecl, const ASTContext &Ctx)] is declared
    in Types.h and defined elsewhere.  A protocol type is a nominal type
    without parent; it has no children, hence no derived property. *)
Definition ProtocolType_ctor (Nodes : list TypeBase) (TheDecl : Decl) : TypeBase :=
  NominalType_ctor Nodes Protocol true TheDecl None RTP.empty.

(** Modelled from the spec: the constructor [BoundGenericType(theKind,
    theDecl, parent, genericArgs, context, properties)] is declared in Types.h
    and defined elsewhere; like its siblings it hands the kind, the context
    pointer and the properties to [TypeBase] and stores the rest. *)
Definition BoundGenericType_ctor (theKind : TypeKind) (theDecl : Decl)
    (parent : Type_) (genericArgs : list Type_) (context : bool)
    (properties : RTP.t) : TypeBase :=
  TypeBase_ctor theKind context properties
    (BoundGenericType_ theDecl parent genericArgs).

(** [struct AnyMetatypeTypeBitfields { unsigned : NumTypeBaseBits;
      unsigned Representation : 2; }] (Types.h:214-221) *)
Definition RepresentationBitWidth : Z := 2.

Definition AnyMetatypeTypeBits_Representation (T : TypeBase) : Z :=
  Z.land (SubclassBits T) (Z.ones RepresentationBitWidth).

Definition set_AnyMetatypeTypeBits_Representation (T : TypeBase) (v : Z) : TypeBase :=
  {| CanonicalType := CanonicalType T;
     Kind := Kind T;
     Properties := Properties T;
     SubclassBits := Z.land v (Z.ones RepresentationBitWidth);
     Members := Members T |}.

(** Modelled from the spec: the constructor [AnyMetatypeType(kind, C,
    properties, instanceType, repr)] is declared in Types.h and defined
    elsewhere.  It stores what the documentation of the bit-field says:
    "Zero indicates that no representation has been set; otherwise, the value
    is the representation + 1". *)
Definition AnyMetatypeType_ctor (kind : TypeKind) (C : bool) (properties : RTP.t)
    (instanceType : Type_) (repr : option MetatypeRepresentation) : TypeBase :=
  set_AnyMetatypeTypeBits_Representation
    (TypeBase_ctor kind C properties (AnyMetatypeType_ instanceType))
    match repr with
    | Some r => (MetatypeRepresentation_value r + 1)%Z
    | None => 0%Z
    end.

(** [bool hasRepresentation() const
      { return AnyMetatypeTypeBits.Representation > 0; }] *)
Definition hasRepresentation (T : TypeBase) : bool :=
  (0 <? AnyMetatypeTypeBits_Representation T)%Z.

(** [MetatypeRepresentation getRepresentation() const] *)
Definition getRepresentation (T : TypeBase) : Outcome MetatypeRepresentation :=
  Outcome_bind (Assert (negb (AnyMetatypeTypeBits_Representation T =? 0)%Z)) (fun _ =>
  MetatypeRepresentation_cast (AnyMetatypeTypeBits_Representation T - 1)).

(** The representation as the factories receive it. *)
Definition representationOf (T : TypeBase) : option MetatypeRepresentation :=
  match getRepresentation T with
  | Returns r => Some r
  | Aborts => None
  end.

(** [ProtocolCompositionType(const ASTContext *Ctx, ArrayRef<Type> Protocols)
      : TypeBase(TypeKind::ProtocolComposition, Ctx,
                 RecursiveTypeProperties())] *)
Definition ProtocolCompositionType_ctor (Ctx : bool) (Protocols : list Type_) : TypeBase :=
  TypeBase_ctor ProtocolComposition Ctx RTP.empty (ProtocolCompositionType_ Protocols).

(** [ArchetypeType(const ASTContext &Ctx, Type Existential, unsigned ID,
                  ArrayRef<ProtocolDecl *> ConformsTo, Type Superclass)]
    (Types.h:2948-2957) *)
Definition ArchetypeType_ctor_opened (Existential : Type_) (ID : Z)
    (ConformsTo : list Decl) (Superclass : Type_) : TypeBase :=
  TypeBase_ctor Archetype true RTP.empty
    (ArchetypeType_ ConformsTo Superclass (IsOpened Existential) ID).

(** [Type getOpenedExistentialType() const
      { return ParentOrOpened.dyn_cast<TypeBase *>(); }] *)
Definition getOpenedExistentialType (T : TypeBase) : Type_ :=
  match Members T with
  | ArchetypeType_ _ _ (IsOpened E) _ => E
  | _ => None
  end.

(** [unsigned getOpenedExistentialID() const] *)
Definition getOpenedExistentialID (T : TypeBase) : Outcome Z :=
  match Members T with
  | ArchetypeType_ _ _ (IsOpened (Some _)) ID => Returns ID
  | _ => Aborts
  end.

(** [ArrayRef<ProtocolDecl *> getConformsTo() const] *)
Definition getConformsTo (T : TypeBase) : list Decl :=
  match Members T with
  | ArchetypeType_ ConformsTo _ _ _ => ConformsTo
  | _ => []
  end.

(** [unsigned] arithmetic wraps at 32 bits. *)
Definition toUnsigned (n : Z) : Z := (n mod 2 ^ 32)%Z.


(** [explicit GenericTypeParamType(unsigned depth, unsigned index,
                                   const ASTContext &ctx)]
    (Types.h:3038-3043) *)
Definition GenericTypeParamType_ctor (depth index : Z) : TypeBase :=
  TypeBase_ctor GenericTypeParam true (RTP.ofProperty RTP.IsDependent)
    (GenericTypeParamType_
       (IsDepthIndex (Z.lor (toUnsigned (Z.shiftl depth 16)) index))).

(** [DependentMemberType(Type base, Identifier name, const ASTContext *ctx,
                        RecursiveTypeProperties properties)] *)
Definition DependentMemberType_ctor (base : Type_) (name : Identifier)
    (ctx : bool) (properties : RTP.t) : TypeBase :=
  TypeBase_ctor DependentMember ctx properties (DependentMemberType_ base name).

(** [TypeVariableType(const ASTContext &C, unsigned ID)]: the [ID] goes into
    the 29 bits that [TypeVariableTypeBits] leaves after the shared ones. *)
Definition TypeVariableType_ctor (ID : Z) : TypeBase :=
  let T := TypeBase_ctor TypeVariable true (RTP.ofProperty RTP.HasTypeVariable)
             TypeVariableType_ in
  {| CanonicalType := CanonicalType T;
     Kind := Kind T;
     Properties := Properties T;
     SubclassBits := Z.land ID (Z.ones (32 - RTP.BitWidth));
     Members := Members T |}.

(** ** Structural fingerprints *)

(** [llvm::FoldingSetNodeID]: the sequence of words added so far. *)
Definition FoldingSetNodeID : Set := list Z.

(** The value of a [TypeBase *]: null is zero, a node is not. *)
Definition pointerValue (T : Type_) : Z :=
  match T with
  | None => 0%Z
  | Some p => (Z.of_nat p + 1)%Z
  end.

Definition AddPointer (ID : FoldingSetNodeID) (P : Z) : FoldingSetNodeID := ID ++ [P].
Definition AddInteger (ID : FoldingSetNodeID) (I : Z) : FoldingSetNodeID := ID ++ [I].

(** [static void BuiltinVectorType::Profile(llvm::FoldingSetNodeID &ID,
      Type elementType, unsigned numElements)] (Types.h:701-705) *)
Definition BuiltinVectorType_Profile (ID : FoldingSetNodeID) (elementType : Type_)
    (numElements : Z) : FoldingSetNodeID :=
  AddInteger (AddPointer ID (pointerValue elementType)) numElements.

(** Modelled from the spec: [TupleType::Profile(ID, Fields)] is declared in
    Types.h and defined elsewhere.  The fingerprint is the ordered sequence
    of the child identities and scalar fields: the number of elements, then
    name, type and default-or-vararg tag of each. *)
Definition TupleType_Profile (ID : FoldingSetNodeID) (Fields : list TupleTypeElt)
    : FoldingSetNodeID :=
  fold_left
    (fun ID elt =>
       AddInteger (AddPointer (AddPointer ID (Name elt)) (pointerValue (Ty elt)))
         (DefaultArgOrVarArg_value (DefaultOrVarArg elt)))
    Fields (AddInteger ID (Z.of_nat (length Fields))).

(** Modelled from the spec: the static [Profile] of [EnumType], [StructType]
    and [ClassType] is declared in Types.h ([Profile(ID, D, Parent)]) and
    defined elsewhere. *)
Definition NominalType_Profile (ID : FoldingSetNodeID) (D : Decl) (Parent : Type_)
    : FoldingSetNodeID :=
  AddPointer (AddPointer ID D) (pointerValue Parent).

(** Modelled from the spec: [BoundGenericType::Profile(ID, TheDecl, Parent,
    GenericArgs, properties)] is declared in Types.h and defined elsewhere. *)
Definition BoundGenericType_Profile (ID : FoldingSetNodeID) (TheDecl : Decl)
    (Parent : Type_) (GenericArgs : list Type_) : FoldingSetNodeID :=
  fold_left (fun ID Arg => AddPointer ID (pointerValue Arg)) GenericArgs
    (AddInteger (AddPointer (AddPointer ID TheDecl) (pointerValue Parent))
       (Z.of_nat (length GenericArgs))).

(** Modelled from the spec: [ProtocolCompositionType::Profile(ID, Protocols)]
    is declared in Types.h and defined elsewhere. *)
Definition ProtocolCompositionType_Profile (ID : FoldingSetNodeID)
    (Protocols : list Type_) : FoldingSetNodeID :=
  fold_left (fun ID P => AddPointer ID (pointerValue P)) Protocols ID.

(** [void Profile(llvm::FoldingSetNodeID &ID)] of a node: the static
    [Profile] of its class on its own members (Types.h:698-700, 1084-1086,
    1202-1205, 2612-2614).  The classes that Types.h does not derive from
    [llvm::FoldingSetNode] are modelled from the spec: kind tag aside, the
    fingerprint lists child identities and scalar fields in order. *)
Definition Profile (T : TypeBase) : FoldingSetNodeID :=
  match Members T with
  | ErrorType_ => []
  | BuiltinIntegerType_ Width => AddInteger [] (BuiltinIntegerWidth.RawValue Width)
  | BuiltinVectorType_ elementType numElements =>
      BuiltinVectorType_Profile [] elementType numElements
  | ParenType_ UnderlyingType => AddPointer [] (pointerValue UnderlyingType)
  | TupleType_ Fields => TupleType_Profile [] Fields
  | NominalType_ TheDecl Parent => NominalType_Profile [] TheDecl Parent
  | BoundGenericType_ TheDecl Parent GenericArgs =>
      BoundGenericType_Profile [] TheDecl Parent GenericArgs
  | AnyMetatypeType_ InstanceType =>
      AddInteger (AddPointer [] (pointerValue InstanceType))
        (AnyMetatypeTypeBits_Representation T)
  | ProtocolCompositionType_ Protocols => ProtocolCompositionType_Profile [] Protocols
  | ArchetypeType_ _ _ _ ID => AddInteger [] ID
  | GenericTypeParamType_ (IsParam param) => AddPointer [] param
  | GenericTypeParamType_ (IsDepthIndex fixnum) => AddInteger [] fixnum
  | DependentMemberType_ Base MemberName =>
      AddPointer (AddPointer [] (pointerValue Base)) MemberName
  | TypeVariableType_ => AddInteger [] (SubclassBits T)
  end.

(** ** The owning context *)

(** Modelled from the spec: [enum class AllocationArena] is only declared in
    Types.h.  "A context may keep separate arenas, e.g. one permanent and one
    scoped to a transient analysis". *)
Inductive AllocationArena : Set :=
| Permanent
| ConstraintSolver.

Definition AllocationArena_value (arena : AllocationArena) : Z :=
  match arena with
  | Permanent => 0
  | ConstraintSolver => 1
  end.

(** Modelled from the spec: the arena of a node.  Types of a transient
    analysis are those that bear an inference variable. *)
Definition getArena (properties : RTP.t) : AllocationArena :=
  if RTP.hasTypeVariable properties then ConstraintSolver else Permanent.

(** Modelled from the spec: [ASTContext] is only declared in Types.h.  It
    owns the storage of the nodes, the interning tables ("a table scoped to
    the owning context and to an allocation arena selector", one per node
    class), the counter of opened existentials and the archetypes opened so
    far; the declaration registry is reached through it. *)
Record ASTContext : Type := {
  Decls : DeclRegistry;
  Storage : list TypeBase;
  Uniqued : gmap (list Z) nat;
  NextOpenedExistentialID : Z;
  OpenedExistentialArchetypes : gmap Z nat;
}.

Definition emptyContext (decls : DeclRegistry) : ASTContext :=
  {| Decls := decls;
     Storage := [];
     Uniqued := ∅;
     NextOpenedExistentialID := 0;
     OpenedExistentialArchetypes := ∅ |}.

(** The key of a node in the interning tables: arena, node class and
    fingerprint. *)
Definition uniquingKey (T : TypeBase) : list Z :=
  AllocationArena_value (getArena (getRecursiveProperties T))
    :: TypeKind_value (Kind T) :: Profile T.

(** Code that runs against the context: it may update the context and it may
    abort. *)
Definition M (A : Type) : Type := ASTContext -> Outcome (A * ASTContext).

Definition ret {A : Type} (a : A) : M A := fun C => Returns (a, C).

Definition bind {A B : Type} (m : M A) (f : A -> M B) : M B :=
  fun C =>
    match m C with
    | Returns (a, C') => f a C'
    | Aborts => Aborts
    end.

Definition abort {A : Type} : M A := fun _ => Aborts.

Definition lift {A : Type} (o : Outcome A) : M A :=
  fun C =>
    match o with
    | Returns a => Returns (a, C)
    | Aborts => Aborts
    end.

Notation "'let*' x ':=' m 'in' k" := (bind m (fun x => k))
  (at level 10, x name, m at level 100, k at level 200).

Definition getStorage : M (list TypeBase) := fun C => Returns (Storage C, C).

Definition getDecls : M DeclRegistry := fun C => Returns (Decls C, C).

Fixpoint mapM {A B : Type} (f : A -> M B) (l : list A) : M (list B) :=
  match l with
  | [] => ret []
  | a :: l' =>
      let* b := f a in
      let* bs := mapM f l' in
      ret (b :: bs)
  end.

(** A dereference of a null or dangling [Type] aborts. *)
Definition requireLive (Ts : list Type_) : M unit :=
  fun C => if forallb (isLive (Storage C)) Ts then Returns (tt, C) else Aborts.

(** [new (C, arena) T(...)]: the node goes to the end of the storage. *)
Definition allocate (New : TypeBase) : M nat :=
  fun C =>
    Returns (length (Storage C),
             {| Decls := Decls C;
                Storage := Storage C ++ [New];
                Uniqued := Uniqued C;
                NextOpenedExistentialID := NextOpenedExistentialID C;
                OpenedExistentialArchetypes := OpenedExistentialArchetypes C |}).

(** [InsertNode(New, InsertPos)] *)
Definition insertNode (key : list Z) (T : nat) : M unit :=
  fun C =>
    Returns (tt,
             {| Decls := Decls C;
                Storage := Storage C;
                Uniqued := <[key := T]> (Uniqued C);
                NextOpenedExistentialID := NextOpenedExistentialID C;
                OpenedExistentialArchetypes := OpenedExistentialArchetypes C |}).

(** Modelled from the spec: the interning step shared by the [get]
    factories, which Types.h only declares.  "Look up the fingerprint in a
    table scoped to the owning context and to an allocation arena selector;
    on hit, return the existing node; on miss, allocate".  [New] is the node
    the class constructor would build. *)
Definition getOrCreate (New : TypeBase) : M nat :=
  fun C =>
    match Uniqued C !! uniquingKey New with
    | Some T => Returns (T, C)
    | None =>
        (let* T := allocate New in
         let* _ := insertNode (uniquingKey New) T in
         ret T) C
    end.

(** ** The factories *)

(** Modelled from the spec: [BuiltinIntegerType::get(BitWidth, C)] is
    declared in Types.h and defined elsewhere. *)
Definition BuiltinIntegerType_get (BitWidth : BuiltinIntegerWidth.t) : M nat :=
  getOrCreate (BuiltinIntegerType_ctor BitWidth).

(** Modelled from the spec: [BuiltinVectorType::get(context, elementType,
    numElements)] is declared in Types.h and defined elsewhere.  The
    fingerprint and the constructor are those of Types.h. *)
Definition BuiltinVectorType_get (elementType : Type_) (numElements : Z) : M nat :=
  let* _ := requireLive [elementType] in
  getOrCreate (BuiltinVectorType_ctor elementType numElements).

(** Modelled from the spec: [ParenType::get(C, underlying)] is declared in
    Types.h and defined elsewhere.  A parenthesized type carries exactly one
    underlying type, whose properties it inherits. *)
Definition ParenType_get (underlying : Type_) : M nat :=
  let* _ := requireLive [underlying] in
  let* Nodes := getStorage in
  getOrCreate (ParenType_ctor underlying (propertiesOf Nodes underlying)).

(** The property propagator of a tuple: the bitwise union of the children's
    bitsets, accumulated with [operator+=]. *)
Definition TupleType_properties (Nodes : list TypeBase) (Fields : list TupleTypeElt)
    : RTP.t :=
  fold_left (fun properties Elt => RTP.plus properties (propertiesOf Nodes (getType Elt)))
    Fields RTP.empty.

(** "Exactly one element which is unlabeled and not varargs" (Types.h:1044). *)
Definition isParenthesized (Fields : list TupleTypeElt) : bool :=
  match Fields with
  | [Elt] => negb (isVararg Elt) && negb (hasName Elt)
  | _ => false
  end.

(** Modelled from the spec: [TupleType::get(Fields, C)] is declared in
    Types.h and defined elsewhere.  "Return the uniqued tuple type with the
    specified elements.  Returns a ParenType instead if there is exactly one
    element which is unlabeled and not varargs"; otherwise the node is
    canonical when every child is, and its properties are the union of the
    children's. *)
Definition TupleType_getUniqued (Fields : list TupleTypeElt) : M nat :=
  let* _ := requireLive (map getType Fields) in
  let* Nodes := getStorage in
  getOrCreate
    (TupleType_ctor Fields (forallb (fun Elt => canonicalOf Nodes (getType Elt)) Fields)
       (TupleType_properties Nodes Fields)).

Definition TupleType_get (Fields : list TupleTypeElt) : M nat :=
  match Fields with
  | [Elt] =>
      if negb (isVararg Elt) && negb (hasName Elt)
      then ParenType_get (getType Elt)
      else TupleType_getUniqued Fields
  | _ => TupleType_getUniqued Fields
  end.

(** A parent type may be null ("top-level types or local types"). *)
Definition parentTypes (Parent : Type_) : list Type_ :=
  match Parent with
  | None => []
  | Some _ => [Parent]
  end.

(** Modelled from the spec: [ProtocolType::get(D, C)] is declared in Types.h
    and defined elsewhere. *)
Definition ProtocolType_get (D : Decl) : M nat :=
  let* Nodes := getStorage in
  getOrCreate (ProtocolType_ctor Nodes D).

(** The kind of the nominal type of a declaration. *)
Definition NominalTypeKind (K : NominalKind) : TypeKind :=
  match K with
  | EnumDeclKind => Enum
  | StructDeclKind => Struct
  | ClassDeclKind => Class
  | ProtocolDeclKind => Protocol
  end.

(** Modelled from the spec: [NominalType::get(D, Parent, C)] and the [get] of
    [EnumType], [StructType] and [ClassType] are declared in Types.h and
    defined elsewhere.  The kind follows the declaration; the properties are
    those of the only child, the parent.  A protocol has no parent. *)
Definition NominalType_get (D : Decl) (Parent : Type_) : M nat :=
  let* decls := getDecls in
  let* _ := requireLive (parentTypes Parent) in
  let* Nodes := getStorage in
  match declKind decls D, Parent with
  | ProtocolDeclKind, Some _ => abort
  | K, _ =>
      getOrCreate
        (NominalType_ctor Nodes (NominalTypeKind K) true D Parent
           (propertiesOf Nodes Parent))
  end.

(** Modelled from the spec: the property propagator of a bound generic type.
    The bitsets of the parent and of the arguments are merged as
    [BoundGenericType::Profile(..., properties)] collects them, and "an
    application of a generic declaration to concrete or dependent arguments
    is not itself marked dependent". *)
Definition BoundGenericType_properties (Nodes : list TypeBase) (Parent : Type_)
    (GenericArgs : list Type_) : RTP.t :=
  RTP.minus
    (fold_left (fun properties Arg => RTP.plus properties (propertiesOf Nodes Arg))
       GenericArgs (RTP.plus RTP.empty (propertiesOf Nodes Parent)))
    (RTP.ofProperty RTP.IsDependent).

Definition BoundGenericType_isCanonical (Nodes : list TypeBase) (Parent : Type_)
    (GenericArgs : list Type_) : bool :=
  match Parent with None => true | Some _ => canonicalOf Nodes Parent end
  && forallb (canonicalOf Nodes) GenericArgs.

(** The kind of the application follows the declaration
    ([BoundGenericClassType], [BoundGenericEnumType],
    [BoundGenericStructType]); a protocol cannot be applied. *)
Definition BoundGenericKind (K : NominalKind) : option TypeKind :=
  match K with
  | ClassDeclKind => Some BoundGenericClass
  | EnumDeclKind => Some BoundGenericEnum
  | StructDeclKind => Some BoundGenericStruct
  | ProtocolDeclKind => None
  end.

(** Modelled from the spec: [BoundGenericType::get(TheDecl, Parent,
    GenericArgs)] is declared in Types.h and defined elsewhere. *)
Definition BoundGenericType_get (TheDecl : Decl) (Parent : Type_)
    (GenericArgs : list Type_) : M nat :=
  let* decls := getDecls in
  let* _ := requireLive (parentTypes Parent ++ GenericArgs) in
  let* Nodes := getStorage in
  match BoundGenericKind (declKind decls TheDecl) with
  | Some theKind =>
      getOrCreate
        (BoundGenericType_ctor theKind TheDecl Parent GenericArgs
           (BoundGenericType_isCanonical Nodes Parent GenericArgs)
           (BoundGenericType_properties Nodes Parent GenericArgs))
  | None => abort
  end.

(** Modelled from the spec: [MetatypeType::get(T, Repr, C)] is declared in
    Types.h and defined elsewhere.  The node is canonical when its instance
    type is and inherits its properties. *)
Definition MetatypeType_get (T : Type_) (Repr : option MetatypeRepresentation) : M nat :=
  let* _ := requireLive [T] in
  let* Nodes := getStorage in
  getOrCreate
    (AnyMetatypeType_ctor Metatype (canonicalOf Nodes T) (propertiesOf Nodes T) T Repr).

(** Modelled from the spec: [ExistentialMetatypeType::get(T, Repr, C)] is
    declared in Types.h and defined elsewhere. *)
Definition ExistentialMetatypeType_get (T : Type_)
    (Repr : option MetatypeRepresentation) : M nat :=
  let* _ := requireLive [T] in
  let* Nodes := getStorage in
  getOrCreate
    (AnyMetatypeType_ctor ExistentialMetatype (canonicalOf Nodes T)
       (propertiesOf Nodes T) T Repr).

(** Modelled from the spec: [GenericTypeParamType::get(depth, index, ctx)] is
    declared in Types.h and defined elsewhere. *)
Definition GenericTypeParamType_get (depth index : Z) : M nat :=
  getOrCreate (GenericTypeParamType_ctor depth index).

(** Modelled from the spec: [DependentMemberType::get(base, name, ctx)] is
    declared in Types.h and defined elsewhere.  The node is canonical when
    its base is; a "dependent-member built from" a generic parameter inherits
    the dependent mark with the properties of its base. *)
Definition DependentMemberType_get (base : Type_) (name : Identifier) : M nat :=
  let* _ := requireLive [base] in
  let* Nodes := getStorage in
  getOrCreate
    (DependentMemberType_ctor base name (canonicalOf Nodes base) (propertiesOf Nodes base)).

(** Modelled from the spec: [TypeVariableType::getNew(C, ID, ...)] is
    declared in Types.h and defined elsewhere; every call makes a node. *)
Definition TypeVariableType_getNew (ID : Z) : M nat :=
  allocate (TypeVariableType_ctor ID).

(** ** Looking through sugar *)

(** Modelled from the spec: [TypeBase::getDesugaredType()] is declared in
    Types.h and defined elsewhere.  "If this type is a sugared type, remove
    all levels of sugar until we get down to a non-sugar type"; a sugar node
    "carries exactly one underlying type and desugars by one level".  The
    parenthesized type is the sugar of the model. *)
Fixpoint getDesugaredType_fuel (fuel : nat) (Nodes : list TypeBase) (T : nat)
    : option nat :=
  match fuel with
  | 0 => None
  | S fuel' =>
      match Nodes !! T with
      | Some N =>
          match Members N with
          | ParenType_ (Some UnderlyingType) =>
              getDesugaredType_fuel fuel' Nodes UnderlyingType
          | ParenType_ None => None
          | _ => Some T
          end
      | None => None
      end
  end.

Definition getDesugaredType (Nodes : list TypeBase) (T : nat) : option nat :=
  getDesugaredType_fuel (S T) Nodes T.

(** [template <typename T> bool is() { return isa<T>(getDesugaredType()); }]
    for a class [T] whose [classof] compares the kind with [K]. *)
Definition is_ (Nodes : list TypeBase) (K : TypeKind) (T : Type_) : bool :=
  match T with
  | Some p =>
      match getDesugaredType Nodes p with
      | Some D => bool_decide (kindOf Nodes (Some D) = Some K)
      | None => false
      end
  | None => false
  end.

(** [T->is<ProtocolType>() || T->is<ProtocolCompositionType>()] *)
Definition isExistentialSpelling (Nodes : list TypeBase) (T : Type_) : bool :=
  is_ Nodes Protocol T || is_ Nodes ProtocolComposition T.

(** ** Protocol compositions *)

Definition inheritsFrom (decls : DeclRegistry) (Q P : Decl) : bool :=
  existsb (Z.eqb P) (inheritedProtocols decls Q).

(** [P] is implied by inheritance from another protocol of the list. *)
Definition coveredByInheritance (decls : DeclRegistry) (protocols : list Decl)
    (P : Decl) : bool :=
  existsb (fun Q => negb (Q =? P)%Z && inheritsFrom decls Q P) protocols.

(** "A stable total order (module, then name)". *)
Definition compareProtocols (decls : DeclRegistry) (P Q : Decl) : comparison :=
  match String.compare (declModuleName decls P) (declModuleName decls Q) with
  | Eq => String.compare (declName decls P) (declName decls Q)
  | c => c
  end.

Fixpoint insertProtocol (decls : DeclRegistry) (P : Decl) (sorted : list Decl)
    : list Decl :=
  match sorted with
  | [] => [P]
  | Q :: rest =>
      match compareProtocols decls P Q with
      | Gt => Q :: insertProtocol decls P rest
      | _ => P :: sorted
      end
  end.

Definition sortProtocols (decls : DeclRegistry) (protocols : list Decl) : list Decl :=
  fold_right (insertProtocol decls) [] protocols.

(** Modelled from the spec: [ProtocolType::canonicalizeProtocols(protocols)]
    is declared in Types.h and defined elsewhere.  "Drop any protocol implied
    by inheritance from another protocol already in the list, then sort the
    remainder by a stable total order (module, then name)". *)
Definition canonicalizeProtocols (decls : DeclRegistry) (protocols : list Decl)
    : list Decl :=
  sortProtocols decls
    (List.filter (fun P => negb (coveredByInheritance decls protocols P)) protocols).

(** [cast<ProtocolType>(T)->getDecl()] *)
Definition ProtocolType_getDecl (T : TypeBase) : Outcome Decl :=
  match Kind T, Members T with
  | Protocol, NominalType_ TheDecl _ => Returns TheDecl
  | _, _ => Aborts
  end.

(** [for (CanType proto : getProtocols())
       cast<ProtocolType>(proto).getAnyExistentialTypeProtocols(protos);]
    (Types.h:2639-2643): "in the canonical representation, these are all
    ProtocolTypes". *)
Fixpoint CanProtocolCompositionType_getProtocolDecls (Nodes : list TypeBase)
    (Protocols : list Type_) : Outcome (list Decl) :=
  match Protocols with
  | [] => Returns []
  | proto :: rest =>
      match derefType Nodes proto with
      | Some N =>
          Outcome_bind (ProtocolType_getDecl N) (fun D =>
          Outcome_bind (CanProtocolCompositionType_getProtocolDecls Nodes rest) (fun Ds =>
          Returns (D :: Ds)))
      | None => Aborts
      end
  end.

(** [getAnyExistentialTypeProtocols] on a canonical existential type: a
    protocol type pushes its declaration (Types.h:2558-2560), a canonical
    composition those of its protocols.  Existential metatypes are left out. *)
Definition CanType_getAnyExistentialTypeProtocols (Nodes : list TypeBase)
    (T : TypeBase) : Outcome (list Decl) :=
  match Kind T, Members T with
  | Protocol, NominalType_ TheDecl _ => Returns [TheDecl]
  | ProtocolComposition, ProtocolCompositionType_ Protocols =>
      CanProtocolCompositionType_getProtocolDecls Nodes Protocols
  | _, _ => Aborts
  end.

(** The protocols named by a list of canonical existential types. *)
Fixpoint addProtocols (Nodes : list TypeBase) (Ts : list Type_) : Outcome (list Decl) :=
  match Ts with
  | [] => Returns []
  | T :: rest =>
      match derefType Nodes T with
      | Some N =>
          Outcome_bind (CanType_getAnyExistentialTypeProtocols Nodes N) (fun Ds =>
          Outcome_bind (addProtocols Nodes rest) (fun Ds' =>
          Returns (Ds ++ Ds')))
      | None => Aborts
      end
  end.

(** Modelled from the spec: the private
    [ProtocolCompositionType::build(C, Protocols)] is declared in Types.h and
    defined elsewhere: the uniqued composition node over exactly these
    protocols, canonical when every one of them is. *)
Definition ProtocolCompositionType_build (Protocols : list Type_) : M nat :=
  let* _ := requireLive Protocols in
  let* Nodes := getStorage in
  getOrCreate
    (ProtocolCompositionType_ctor (forallb (canonicalOf Nodes) Protocols) Protocols).

(** Modelled from the spec: [ProtocolCompositionType::get(C, Protocols)] is
    declared in Types.h and defined elsewhere.  "The canonical form of a
    protocol composition type is based on a sorted (by module and name),
    minimized (based on redundancy due to protocol inheritance) protocol
    list.  If the sorted, minimized list is a single protocol, then the
    canonical type is that protocol type.  Otherwise, it is a composition of
    the protocols in that list."  A list with sugar in it is kept as
    written.  A composition is a "conjunction of protocol requirements": a
    member that is neither a protocol nor a composition is a malformed input,
    which is fatal. *)
Definition ProtocolCompositionType_get (Protocols : list Type_) : M nat :=
  let* _ := requireLive Protocols in
  let* Nodes := getStorage in
  let* _ := lift (Assert (forallb (isExistentialSpelling Nodes) Protocols)) in
  if forallb (canonicalOf Nodes) Protocols then
    let* decls := getDecls in
    let* Ds := lift (addProtocols Nodes Protocols) in
    match canonicalizeProtocols decls Ds with
    | [D] => ProtocolType_get D
    | Canon =>
        let* CanProtocolTypes := mapM ProtocolType_get Canon in
        ProtocolCompositionType_build (map Some CanProtocolTypes)
    end
  else ProtocolCompositionType_build Protocols.

(** ** Canonicalization *)

(** The node of a slot that has been filled. *)
Definition fillSlot (N : TypeBase) (CT : nat) : TypeBase :=
  {| CanonicalType := IsTypeBase (Some CT);
     Kind := Kind N;
     Properties := Properties N;
     SubclassBits := SubclassBits N;
     Members := Members N |}.

(** The one mutation of a node after its construction: filling the
    canonical-form slot. *)
Definition setCanonicalType (T : nat) (Result : nat) : M unit :=
  fun C =>
    match Storage C !! T with
    | Some N =>
        Returns (tt,
                 {| Decls := Decls C;
                    Storage := <[T := fillSlot N Result]> (Storage C);
                    Uniqued := Uniqued C;
                    NextOpenedExistentialID := NextOpenedExistentialID C;
                    OpenedExistentialArchetypes := OpenedExistentialArchetypes C |})
    | None => Aborts
    end.

(** Modelled from the spec: the part of [TypeBase::getCanonicalType()] that
    computes the canonical form of a node that has none yet: "recursively
    canonicalize children, reconstruct the node in canonical form via the
    family's own reduction rule (e.g., strip one level of sugar; ...;
    minimize and sort a protocol composition), intern the result".  [canon]
    canonicalizes a child. *)
Definition computeCanonicalType (canon : Type_ -> M nat) (N : TypeBase) : M nat :=
  match Members N with
  | ParenType_ UnderlyingType => canon UnderlyingType
  | TupleType_ Fields =>
      let* CanElts :=
        mapM (fun field =>
                let* CanTy := canon (getType field) in
                ret {| Name := Name field;
                       Ty := Some CanTy;
                       DefaultOrVarArg := DefaultOrVarArg field |})
          Fields in
      TupleType_get CanElts
  | NominalType_ TheDecl Parent =>
      let* parentTy := canon Parent in
      NominalType_get TheDecl (Some parentTy)
  | BoundGenericType_ TheDecl Parent GenericArgs =>
      let* parentTy :=
        match Parent with
        | None => ret None
        | Some _ => let* CanTy := canon Parent in ret (Some CanTy)
        end in
      let* CanArgs := mapM canon GenericArgs in
      BoundGenericType_get TheDecl parentTy (map Some CanArgs)
  | AnyMetatypeType_ InstanceType =>
      let* InstanceTy := canon InstanceType in
      match Kind N with
      | Metatype => MetatypeType_get (Some InstanceTy) (representationOf N)
      | ExistentialMetatype =>
          ExistentialMetatypeType_get (Some InstanceTy) (representationOf N)
      | _ => abort
      end
  | ProtocolCompositionType_ Protocols =>
      let* CanProtos := mapM canon Protocols in
      ProtocolCompositionType_get (map Some CanProtos)
  | DependentMemberType_ Base MemberName =>
      let* CanBase := canon Base in
      DependentMemberType_get (Some CanBase) MemberName
  | _ => abort
  end.

(** Modelled from the spec: [TypeBase::getCanonicalType()] is declared in
    Types.h and defined elsewhere.  "If already resolved, return immediately;
    otherwise recursively canonicalize children, reconstruct the node in
    canonical form ..., intern the result, cache it in the slot, and return
    it."  The recursion follows the children of the node; [fuel] bounds its
    depth. *)
Fixpoint getCanonicalType_fuel (fuel : nat) (T : nat) {struct fuel} : M nat :=
  match fuel with
  | 0 => abort
  | S fuel' =>
      let* Nodes := getStorage in
      match Nodes !! T with
      | None => abort
      | Some N =>
          if isCanonical N then ret T
          else
            match CanonicalType N with
            | IsTypeBase (Some CT) => ret CT
            | _ =>
                let* Result :=
                  computeCanonicalType
                    (fun U =>
                       match U with
                       | Some p => getCanonicalType_fuel fuel' p
                       | None => abort
                       end)
                    N in
                let* _ := setCanonicalType T Result in
                ret Result
            end
      end
  end.

(** The children of a node were allocated before it, so the depth of the
    recursion from node [T] is at most [T + 1]. *)
Definition getCanonicalType (T : nat) : M nat := getCanonicalType_fuel (S T) T.

(** [CanType::isExistentialTypeImpl]:
    [isa<ProtocolType>(type) || isa<ProtocolCompositionType>(type)], on the
    canonical type ([TypeBase::isExistentialType], Types.h:3300-3310). *)
Definition isExistentialType (T : nat) : M bool :=
  let* CanTy := getCanonicalType T in
  let* Nodes := getStorage in
  ret match kindOf Nodes (Some CanTy) with
      | Some Protocol | Some ProtocolComposition => true
      | _ => false
      end.

(** Modelled from the spec: [TypeBase::getAnyExistentialTypeProtocols] is
    declared in Types.h and defined elsewhere; like its neighbours it asks
    the canonical type. *)
Definition getAnyExistentialTypeProtocols (T : nat) : M (list Decl) :=
  let* CanTy := getCanonicalType T in
  let* Nodes := getStorage in
  match Nodes !! CanTy with
  | Some N => lift (CanType_getAnyExistentialTypeProtocols Nodes N)
  | None => abort
  end.

(** ** Opening existentials *)

Definition freshOpenedExistentialID : M Z :=
  fun C =>
    Returns (NextOpenedExistentialID C,
             {| Decls := Decls C;
                Storage := Storage C;
                Uniqued := Uniqued C;
                NextOpenedExistentialID := toUnsigned (NextOpenedExistentialID C + 1);
                OpenedExistentialArchetypes := OpenedExistentialArchetypes C |}).

Definition registerOpenedExistential (ID : Z) (T : nat) : M unit :=
  fun C =>
    Returns (tt,
             {| Decls := Decls C;
                Storage := Storage C;
                Uniqued := Uniqued C;
                NextOpenedExistentialID := NextOpenedExistentialID C;
                OpenedExistentialArchetypes := <[ID := T]> (OpenedExistentialArchetypes C) |}).

Definition lookupOpenedExistential (ID : Z) : M (option nat) :=
  fun C => Returns (OpenedExistentialArchetypes C !! ID, C).

(** The archetype of one opening: the requirement set of the existential,
    tagged with [ID]. *)
Definition openExistential (E : nat) (ID : Z) : M nat :=
  let* isExistential := isExistentialType E in
  let* _ := lift (Assert isExistential) in
  let* conformsTo := getAnyExistentialTypeProtocols E in
  let* result := allocate (ArchetypeType_ctor_opened (Some E) ID conformsTo None) in
  let* _ := registerOpenedExistential ID result in
  ret result.

(** Modelled from the spec: [ArchetypeType::getOpened(existential, knownID)]
    is declared in Types.h and defined elsewhere.  "Opening an existential
    type allocates a fresh archetype tagged with a monotonically increasing
    identifier and the existential's requirement set"; "when non-empty,
    [knownID] is the known ID of the archetype; when empty, a fresh archetype
    with a unique ID will be opened". *)
Definition ArchetypeType_getOpened (existential : Type_) (knownID : option Z) : M nat :=
  match existential with
  | None => abort
  | Some E =>
      match knownID with
      | Some ID =>
          let* known := lookupOpenedExistential ID in
          match known with
          | Some result => ret result
          | None => openExistential E ID
          end
      | None =>
          let* ID := freshOpenedExistentialID in
          openExistential E ID
      end
  end.

(** ** The calls a client can make *)

(** The per-kind factories [get], as one family. *)
Inductive GetRequest : Set :=
| Get_BuiltinIntegerType (BitWidth : BuiltinIntegerWidth.t)
| Get_BuiltinVectorType (elementType : Type_) (numElements : Z)
| Get_ParenType (underlying : Type_)
| Get_TupleType (Fields : list TupleTypeElt)
| Get_NominalType (D : Decl) (Parent : Type_)
| Get_ProtocolType (D : Decl)
| Get_BoundGenericType (TheDecl : Decl) (Parent : Type_) (GenericArgs : list Type_)
| Get_MetatypeType (T : Type_) (Repr : option MetatypeRepresentation)
| Get_ExistentialMetatypeType (T : Type_) (Repr : option MetatypeRepresentation)
| Get_ProtocolCompositionType (Protocols : list Type_)
| Get_GenericTypeParamType (depth index : Z)
| Get_DependentMemberType (base : Type_) (name : Identifier).

Definition get (request : GetRequest) : M nat :=
  match request with
  | Get_BuiltinIntegerType BitWidth => BuiltinIntegerType_get BitWidth
  | Get_BuiltinVectorType elementType numElements =>
      BuiltinVectorType_get elementType numElements
  | Get_ParenType underlying => ParenType_get underlying
  | Get_TupleType Fields => TupleType_get Fields
  | Get_NominalType D Parent => NominalType_get D Parent
  | Get_ProtocolType D => ProtocolType_get D
  | Get_BoundGenericType TheDecl Parent GenericArgs =>
      BoundGenericType_get TheDecl Parent GenericArgs
  | Get_MetatypeType T Repr => MetatypeType_get T Repr
  | Get_ExistentialMetatypeType T Repr => ExistentialMetatypeType_get T Repr
  | Get_ProtocolCompositionType Protocols => ProtocolCompositionType_get Protocols
  | Get_GenericTypeParamType depth index => GenericTypeParamType_get depth index
  | Get_DependentMemberType base name => DependentMemberType_get base name
  end.

(** Every call of the model that reads or updates the context. *)
Inductive Operation : Set :=
| Op_get (request : GetRequest)
| Op_getCanonicalType (T : nat)
| Op_getOpened (existential : Type_) (knownID : option Z)
| Op_getNewTypeVariable (ID : Z).

Definition perform (op : Operation) : M nat :=
  match op with
  | Op_get request => get request
  | Op_getCanonicalType T => getCanonicalType T
  | Op_getOpened existential knownID => ArchetypeType_getOpened existential knownID
  | Op_getNewTypeVariable ID => TypeVariableType_getNew ID
  end.

(** A session: the calls made against one context, in order. *)
Definition session (ops : list Operation) : M (list nat) := mapM perform ops.

(** ** Invariants of the context *)

(** The [Type]s a node holds. *)
Definition childrenOf (members : Subclass) : list Type_ :=
  match members with
  | ErrorType_ | BuiltinIntegerType_ _ | GenericTypeParamType_ _
  | TypeVariableType_ => []
  | BuiltinVectorType_ elementType _ => [elementType]
  | ParenType_ UnderlyingType => [UnderlyingType]
  | TupleType_ Fields => map getType Fields
  | NominalType_ _ Parent => parentTypes Parent
  | BoundGenericType_ _ Parent GenericArgs => parentTypes Parent ++ GenericArgs
  | AnyMetatypeType_ InstanceType => [InstanceType]
  | ProtocolCompositionType_ Protocols => Protocols
  | ArchetypeType_ _ Superclass (IsOpened Existential) _ =>
      Existential :: parentTypes Superclass
  | ArchetypeType_ _ Superclass (IsParent Parent) _ =>
      parentTypes Parent ++ parentTypes Superclass
  | DependentMemberType_ Base _ => [Base]
  end.

(** The bitset the property propagator derives for a node with these
    members. *)
Definition expectedProperties (Nodes : list TypeBase) (members : Subclass) : RTP.t :=
  match members with
  | GenericTypeParamType_ _ => RTP.ofProperty RTP.IsDependent
  | TypeVariableType_ => RTP.ofProperty RTP.HasTypeVariable
  | ParenType_ UnderlyingType => propertiesOf Nodes UnderlyingType
  | TupleType_ Fields => TupleType_properties Nodes Fields
  | NominalType_ _ Parent => propertiesOf Nodes Parent
  | BoundGenericType_ _ Parent GenericArgs =>
      BoundGenericType_properties Nodes Parent GenericArgs
  | AnyMetatypeType_ InstanceType => propertiesOf Nodes InstanceType
  | DependentMemberType_ Base _ => propertiesOf Nodes Base
  | ErrorType_ | BuiltinIntegerType_ _ | BuiltinVectorType_ _ _
  | ProtocolCompositionType_ _ | ArchetypeType_ _ _ _ _ => RTP.empty
  end.

(** Whether a node with these members is its own canonical form. *)
Definition expectedCanonical (Nodes : list TypeBase) (members : Subclass) : bool :=
  match members with
  | ParenType_ _ => false
  | GenericTypeParamType_ (IsParam _) => false
  | TupleType_ Fields => forallb (fun Elt => canonicalOf Nodes (getType Elt)) Fields
  | NominalType_ _ Parent =>
      match Parent with None => true | Some _ => canonicalOf Nodes Parent end
  | BoundGenericType_ _ Parent GenericArgs =>
      BoundGenericType_isCanonical Nodes Parent GenericArgs
  | AnyMetatypeType_ InstanceType => canonicalOf Nodes InstanceType
  | ProtocolCompositionType_ Protocols => forallb (canonicalOf Nodes) Protocols
  | DependentMemberType_ Base _ => canonicalOf Nodes Base
  | ErrorType_ | BuiltinIntegerType_ _ | BuiltinVectorType_ _ _
  | ArchetypeType_ _ _ _ _ | GenericTypeParamType_ (IsDepthIndex _)
  | TypeVariableType_ => true
  end.

(** The node classes that go through the interning tables. *)
Definition isUniquedClass (members : Subclass) : bool :=
  match members with
  | ErrorType_ | ArchetypeType_ _ _ _ _ | TypeVariableType_
  | GenericTypeParamType_ (IsParam _) => false
  | _ => true
  end.

Definition isExistentialKind (Nodes : list TypeBase) (T : nat) : Prop :=
  kindOf Nodes (Some T) = Some Protocol
  \/ kindOf Nodes (Some T) = Some ProtocolComposition.

(** Kind and members of a node agree, and the members have a shape that a
    factory produces. *)
Definition membersOK (decls : DeclRegistry) (Nodes : list TypeBase) (K : TypeKind)
    (members : Subclass) : Prop :=
  match members with
  | ErrorType_ => K = Error
  | BuiltinIntegerType_ _ => K = BuiltinInteger
  | BuiltinVectorType_ _ _ => K = BuiltinVector
  | ParenType_ _ => K = Paren
  | TupleType_ Fields => K = Tuple /\ isParenthesized Fields = false
  | NominalType_ TheDecl Parent =>
      (K = Protocol /\ Parent = None)
      \/ (K = NominalTypeKind (declKind decls TheDecl) /\ K <> Protocol)
  | BoundGenericType_ TheDecl _ _ => BoundGenericKind (declKind decls TheDecl) = Some K
  | AnyMetatypeType_ _ => K = Metatype \/ K = ExistentialMetatype
  | ProtocolCompositionType_ Protocols =>
      K = ProtocolComposition
      /\ forallb (isExistentialSpelling Nodes) Protocols = true
      /\ (forallb (canonicalOf Nodes) Protocols = true ->
          Forall (fun P => kindOf Nodes P = Some Protocol) Protocols)
  | ArchetypeType_ _ _ _ _ => K = Archetype
  | GenericTypeParamType_ (IsDepthIndex _) => K = GenericTypeParam
  | GenericTypeParamType_ (IsParam _) => False
  | DependentMemberType_ _ _ => K = DependentMember
  | TypeVariableType_ => K = TypeVariable
  end.

(** The canonical form of a node as far as it is known without computing:
    the node itself when it is canonical, else the content of its slot. *)
Definition resolvedCanonicalType (Nodes : list TypeBase) (T : nat) : option nat :=
  match Nodes !! T with
  | Some N =>
      if isCanonical N then Some T
      else
        match CanonicalType N with
        | IsTypeBase (Some CT) => Some CT
        | _ => None
        end
  | None => None
  end.

(** A filled slot holds a canonical node; that of an existential type holds
    an existential type; that of a parenthesized type holds the canonical
    form of the underlying type. *)
Definition slotOK (Nodes : list TypeBase) (p : nat) (N : TypeBase) : Prop :=
  forall CT, CanonicalType N = IsTypeBase (Some CT) ->
    canonicalOf Nodes (Some CT) = true
    /\ (isExistentialSpelling Nodes (Some p) = true -> isExistentialKind Nodes CT)
    /\ (forall U, Members N = ParenType_ U ->
        exists u, U = Some u /\ resolvedCanonicalType Nodes u = Some CT).

Definition nodeOK (decls : DeclRegistry) (Nodes : list TypeBase) (p : nat)
    (N : TypeBase) : Prop :=
  membersOK decls Nodes (Kind N) (Members N)
  /\ Forall (fun T => exists q, T = Some q /\ q < p) (childrenOf (Members N))
  /\ Properties N = RTP.toBitField (RTP.getBits (expectedProperties Nodes (Members N)))
  /\ isCanonical N = expectedCanonical Nodes (Members N)
  /\ slotOK Nodes p N.

(** The invariant of a context: every node is as its factory built it, the
    children of a node are older than the node, and the interning tables
    index the nodes by their own key. *)
Definition WF (C : ASTContext) : Prop :=
  (forall p N, Storage C !! p = Some N -> nodeOK (Decls C) (Storage C) p N)
  /\ (forall key T, Uniqued C !! key = Some T ->
      exists N, Storage C !! T = Some N /\ uniquingKey N = key
                /\ isUniquedClass (Members N) = true)
  /\ (forall ID T, OpenedExistentialArchetypes C !! ID = Some T ->
      T < length (Storage C)).

(** A node is immutable but for its empty slot. *)
Definition nodeEvolves (N N' : TypeBase) : Prop :=
  N' = N \/ (CanonicalType N = IsTypeBase None /\ exists CT, N' = fillSlot N CT).

(** [C'] is a later state of the context [C]. *)
Definition extends (C C' : ASTContext) : Prop :=
  Decls C' = Decls C
  /\ (forall p N, Storage C !! p = Some N ->
      exists N', Storage C' !! p = Some N' /\ nodeEvolves N N')
  /\ (forall key T, Uniqued C !! key = Some T -> Uniqued C' !! key = Some T).

(** The nodes from [bound] on are untouched. *)
Definition frozenFrom (bound : nat) (C C' : ASTContext) : Prop :=
  forall p N, bound <= p -> Storage C !! p = Some N -> Storage C' !! p = Some N.


(** ** BuiltinIntegerWidth and BuiltinIntegerType, continued *)

(** [friend bool operator==(BuiltinIntegerWidth a, BuiltinIntegerWidth b)
      { return a.RawValue == b.RawValue; }] *)
Definition BuiltinIntegerWidth_eq (a b : BuiltinIntegerWidth.t) : bool :=
  (BuiltinIntegerWidth.RawValue a =? BuiltinIntegerWidth.RawValue b)%Z.

(** [llvm::DenseMapInfo<swift::BuiltinIntegerWidth>] (Types.h:3548-3570) *)
Module DenseMapInfo_BuiltinIntegerWidth.

(** [static inline BuiltinIntegerWidth getEmptyKey()] *)
Definition getEmptyKey : BuiltinIntegerWidth.t :=
  BuiltinIntegerWidth.mk BuiltinIntegerWidth.DenseMapEmpty.

(** [static inline BuiltinIntegerWidth getTombstoneKey()] *)
Definition getTombstoneKey : BuiltinIntegerWidth.t :=
  BuiltinIntegerWidth.mk BuiltinIntegerWidth.DenseMapTombstone.

(** [static bool isEqual(BuiltinIntegerWidth a, BuiltinIntegerWidth b)
      { return a == b; }] *)
Definition isEqual (a b : BuiltinIntegerWidth.t) : bool := BuiltinIntegerWidth_eq a b.

End DenseMapInfo_BuiltinIntegerWidth.

(** [bool isFixedWidth(unsigned width) const
      { return Width.isFixedWidth() && Width.getFixedWidth() == width; }]:
    [&&] asks for the fixed width only of a fixed width. *)
Definition BuiltinIntegerType_isFixedWidthOf (T : TypeBase) (width : Z) : Outcome bool :=
  Outcome_bind (BuiltinIntegerType_getWidth T) (fun Width =>
  if BuiltinIntegerWidth.isFixedWidth Width
  then Outcome_bind (BuiltinIntegerWidth.getFixedWidth Width) (fun fixedWidth =>
       Returns (fixedWidth =? width)%Z)
  else Returns false).

(** [unsigned getLeastWidth() const { return Width.getLeastWidth(); }] *)
Definition BuiltinIntegerType_getLeastWidth (T : TypeBase) : Outcome Z :=
  Outcome_bind (BuiltinIntegerType_getWidth T) BuiltinIntegerWidth.getLeastWidth.

(** [unsigned getGreatestWidth() const { return Width.getGreatestWidth(); }] *)
Definition BuiltinIntegerType_getGreatestWidth (T : TypeBase) : Outcome Z :=
  Outcome_bind (BuiltinIntegerType_getWidth T) BuiltinIntegerWidth.getGreatestWidth.

(** ** TupleTypeElt, continued (Types.h:966-1022, 3447-3499) *)

(** [enum class DefaultArgumentKind] lives in another header; these are the
    enumerators that the two [switch]es of [TupleTypeElt] name. *)
Inductive DefaultArgumentKind : Set :=
| DefaultArgumentKind_None
| DefaultArgumentKind_Normal
| DefaultArgumentKind_Inherited
| DefaultArgumentKind_File
| DefaultArgumentKind_Line
| DefaultArgumentKind_Column
| DefaultArgumentKind_Function.

#[global] Instance DefaultArgumentKind_eq_dec : EqDecision DefaultArgumentKind.
Proof. solve_decision. Defined.

(** [DefaultArgumentKind getDefaultArgKind() const] *)
Definition getDefaultArgKind (elt : TupleTypeElt) : DefaultArgumentKind :=
  match DefaultOrVarArg elt with
  | DAV_None | DAV_VarArg => DefaultArgumentKind_None
  | DAV_DefaultArgument => DefaultArgumentKind_Normal
  | DAV_InheritedDefaultArgument => DefaultArgumentKind_Inherited
  | DAV_FileArgument => DefaultArgumentKind_File
  | DAV_LineArgument => DefaultArgumentKind_Line
  | DAV_ColumnArgument => DefaultArgumentKind_Column
  | DAV_FunctionArgument => DefaultArgumentKind_Function
  end.

(** [bool hasInit() const
      { return getDefaultArgKind() != DefaultArgumentKind::None; }] *)
Definition hasInit (elt : TupleTypeElt) : bool :=
  negb (bool_decide (getDefaultArgKind elt = DefaultArgumentKind_None)).

Section TupleTypeElt_constructor.

(** What the constructor asserts of the type of a variadic element:
    [isa<ArraySliceType>(ty.getPointer()) ||
     (isa<BoundGenericType>(ty.getPointer()) &&
      ty->castTo<BoundGenericType>()->getGenericArgs().size() == 1)].
    The test reads the kind range of [BoundGenericType], which
    [TypeNodes.def] defines, and goes through [getDesugaredType()]; neither
    is defined in Types.h, so the test is a parameter here.  It aborts where
    [isa<>] is handed a null pointer. *)
Variable isVarargStorageType : Type_ -> Outcome bool.

(** [inline TupleTypeElt::TupleTypeElt(Type ty, Identifier name,
      DefaultArgumentKind defArg, bool isVarArg)] (Types.h:3447-3491) *)
Definition TupleTypeElt_ctor (ty : Type_) (name : Identifier)
    (defArg : DefaultArgumentKind) (isVarArg : bool) : Outcome TupleTypeElt :=
  Outcome_bind
    (if isVarArg
     then Outcome_bind (isVarargStorageType ty) Assert
     else Returns tt) (fun _ =>
  let elt := {| Name := name; Ty := ty; DefaultOrVarArg := DAV_None |} in
  let setInt (v : DefaultArgOrVarArg) :=
    {| Name := Name elt; Ty := Ty elt; DefaultOrVarArg := v |} in
  if isVarArg then
    Outcome_bind (Assert (bool_decide (defArg = DefaultArgumentKind_None))) (fun _ =>
    Returns (setInt DAV_VarArg))
  else
    Returns
      match defArg with
      | DefaultArgumentKind_None => elt
      | DefaultArgumentKind_Normal => setInt DAV_DefaultArgument
      | DefaultArgumentKind_Inherited => setInt DAV_InheritedDefaultArgument
      | DefaultArgumentKind_File => setInt DAV_FileArgument
      | DefaultArgumentKind_Line => setInt DAV_LineArgument
      | DefaultArgumentKind_Column => setInt DAV_ColumnArgument
      | DefaultArgumentKind_Function => setInt DAV_FunctionArgument
      end).

(** [TupleTypeElt getWithType(Type T) const
      { return TupleTypeElt(T, getName(), getDefaultArgKind(), isVararg()); }] *)
Definition getWithType (elt : TupleTypeElt) (T : Type_) : Outcome TupleTypeElt :=
  TupleTypeElt_ctor T (getName elt) (getDefaultArgKind elt) (isVararg elt).

End TupleTypeElt_constructor.

(** ** The bit-fields of type variables (Types.h:198-205, 3251-3295) *)

(** [unsigned ID : 32 - NumTypeBaseBits] *)
Definition TypeVariableTypeBits_ID (T : TypeBase) : Z :=
  Z.land (SubclassBits T) (Z.ones (32 - RTP.BitWidth)).

(** [unsigned getID() const { return TypeVariableTypeBits.ID; }] *)
Definition TypeVariableType_getID (T : TypeBase) : Z := TypeVariableTypeBits_ID T.

(** ** Archetypes, continued (Types.h:2782-2962) *)

(** [ArchetypeType(const ASTContext &Ctx, ArchetypeType *Parent,
      AssocTypeOrProtocolType AssocTypeOrProto, Identifier Name,
      ArrayRef<ProtocolDecl *> ConformsTo, Type Superclass,
      Optional<unsigned> Index)] (Types.h:2938-2946):
    [IndexIfPrimaryOrExistentialID(Index ? *Index + 1 : 0)].  [AssocTypeOrProto]
    and [Name] go to the members that the node of the model leaves out. *)
Definition ArchetypeType_ctor (Parent : option nat) (ConformsTo : list Decl)
    (Superclass : Type_) (Index : option Z) : TypeBase :=
  TypeBase_ctor Archetype true RTP.empty
    (ArchetypeType_ ConformsTo Superclass (IsParent Parent)
       match Index with
       | Some index => toUnsigned (index + 1)
       | None => 0%Z
       end).

(** [ArchetypeType *getParent() const
      { return ParentOrOpened.dyn_cast<ArchetypeType *>(); }] *)
Definition ArchetypeType_getParent (T : TypeBase) : option nat :=
  match Members T with
  | ArchetypeType_ _ _ (IsParent Parent) _ => Parent
  | _ => None
  end.

(** The member [unsigned IndexIfPrimaryOrExistentialID] of an archetype. *)
Definition IndexIfPrimaryOrExistentialID (T : TypeBase) : Outcome Z :=
  match Members T with
  | ArchetypeType_ _ _ _ index => Returns index
  | _ => Aborts
  end.

(** [bool isPrimary() const
      { return IndexIfPrimaryOrExistentialID > 0 &&
               getOpenedExistentialType().isNull(); }] *)
Definition ArchetypeType_isPrimary (T : TypeBase) : Outcome bool :=
  Outcome_bind (IndexIfPrimaryOrExistentialID T) (fun index =>
  Returns ((0 <? index)%Z
           && match getOpenedExistentialType T with None => true | Some _ => false end)).

(** [unsigned getPrimaryIndex() const
      { assert(isPrimary() && "Non-primary archetype does not have index");
        return IndexIfPrimaryOrExistentialID - 1; }] *)
Definition ArchetypeType_getPrimaryIndex (T : TypeBase) : Outcome Z :=
  Outcome_bind (ArchetypeType_isPrimary T) (fun primary =>
  Outcome_bind (Assert primary) (fun _ =>
  Outcome_bind (IndexIfPrimaryOrExistentialID T) (fun index =>
  Returns (toUnsigned (index - 1))))).

(** ** Function types (Types.h:1692-1895) *)

Module AnyFunctionType.

(** [enum class AbstractCC : unsigned char] (Types.h:1693-1714) *)
Inductive AbstractCC : Set :=
| Freestanding
| C
| ObjCMethod
| Method
| WitnessMethod.

Definition AbstractCC_value (CC : AbstractCC) : Z :=
  match CC with
  | Freestanding => 0
  | C => 1
  | ObjCMethod => 2
  | Method => 3
  | WitnessMethod => 4
  end.

(** [AbstractCC(v)]; a value that names no enumerator has no reading here. *)
Definition AbstractCC_cast (v : Z) : Outcome AbstractCC :=
  if (v =? 0)%Z then Returns Freestanding
  else if (v =? 1)%Z then Returns C
  else if (v =? 2)%Z then Returns ObjCMethod
  else if (v =? 3)%Z then Returns Method
  else if (v =? 4)%Z then Returns WitnessMethod
  else Aborts.

#[global] Instance AbstractCC_eq_dec : EqDecision AbstractCC.
Proof. solve_decision. Defined.

(** [enum class Representation] (Types.h:1731-1741) *)
Inductive Representation : Set :=
| Thick
| Block
| Thin.

Definition Representation_value (Rep : Representation) : Z :=
  match Rep with
  | Thick => 0
  | Block => 1
  | Thin => 2
  end.

(** [Representation(v)]; a value that names no enumerator has no reading
    here. *)
Definition Representation_cast (v : Z) : Outcome Representation :=
  if (v =? 0)%Z then Returns Thick
  else if (v =? 1)%Z then Returns Block
  else if (v =? 2)%Z then Returns Thin
  else Aborts.

(** [class ExtInfo] (Types.h:1745-1842) *)
Module ExtInfo.

(** [enum : uint16_t { CallConvMask = 0xF }] and its neighbours:
    "|  CC  |representation|isAutoClosure|noReturn|",
    "|0 .. 3|    4 .. 5    |      6      |   7    |". *)
Definition CallConvMask : Z := 0xF.
Definition RepresentationMask : Z := 0x30.
Definition RepresentationShift : Z := 4.
Definition AutoClosureMask : Z := 0x40.
Definition NoReturnMask : Z := 0x80.

(** [static_cast<uint16_t>(v)] *)
Definition toUInt16 (v : Z) : Z := (v mod 2 ^ 16)%Z.

(** [uint16_t Bits] *)
Record t : Set := mk { Bits : Z }.

(** [ExtInfo(unsigned Bits) : Bits(static_cast<uint16_t>(Bits))] *)
Definition ofUnsigned (bits : Z) : t := mk (toUInt16 bits).

(** [AbstractCC getCC() const { return AbstractCC(Bits & CallConvMask); }] *)
Definition getCC (Info : t) : Outcome AbstractCC :=
  AbstractCC_cast (Z.land (Bits Info) CallConvMask).

(** [bool isNoReturn() const { return Bits & NoReturnMask; }] *)
Definition isNoReturn (Info : t) : bool :=
  negb (Z.land (Bits Info) NoReturnMask =? 0)%Z.

(** [bool isAutoClosure() const { return Bits & AutoClosureMask; }] *)
Definition isAutoClosure (Info : t) : bool :=
  negb (Z.land (Bits Info) AutoClosureMask =? 0)%Z.

(** [Representation getRepresentation() const
      { return Representation((Bits & RepresentationMask)
                              >> RepresentationShift); }] *)
Definition getRepresentation (Info : t) : Outcome Representation :=
  Representation_cast
    (Z.shiftr (Z.land (Bits Info) RepresentationMask) RepresentationShift).

(** [bool hasContext() const]: the [switch] has a case for each
    enumerator and nothing after it. *)
Definition hasContext (Info : t) : Outcome bool :=
  Outcome_bind (getRepresentation Info) (fun Rep =>
  match Rep with
  | Thick | Block => Returns true
  | Thin => Returns false
  end).

(** [ExtInfo() : Bits(0) { assert(getCC() == AbstractCC::Freestanding); }] *)
Definition default : Outcome t :=
  let Info := mk 0 in
  Outcome_bind (getCC Info) (fun CC =>
  Outcome_bind (Assert (bool_decide (CC = Freestanding))) (fun _ =>
  Returns Info)).

(** [ExtInfo(AbstractCC CC, Representation Rep, bool IsNoReturn)] *)
Definition ofCCRepNoReturn (CC : AbstractCC) (Rep : Representation)
    (IsNoReturn : bool) : t :=
  mk (toUInt16
        (Z.lor
           (Z.lor (AbstractCC_value CC)
              (Z.shiftl (Representation_value Rep) RepresentationShift))
           (if IsNoReturn then NoReturnMask else 0))).

(** [ExtInfo(AbstractCC CC, Representation Rep, bool IsNoReturn,
            bool IsAutoClosure) : ExtInfo(CC, Rep, IsNoReturn)] *)
Definition ofAll (CC : AbstractCC) (Rep : Representation) (IsNoReturn : bool)
    (IsAutoClosure : bool) : t :=
  let Info := ofCCRepNoReturn CC Rep IsNoReturn in
  mk (toUInt16 (Z.lor (Bits Info) (if IsAutoClosure then AutoClosureMask else 0))).

(** [explicit ExtInfo(AbstractCC CC) : Bits(0)
      { Bits = (Bits & ~CallConvMask) | (unsigned) CC; }] *)
Definition ofCC (CC : AbstractCC) : t :=
  mk (toUInt16 (Z.lor (Z.land 0 (Z.lnot CallConvMask)) (AbstractCC_value CC))).

(** [ExtInfo withCallingConv(AbstractCC CC) const] *)
Definition withCallingConv (Info : t) (CC : AbstractCC) : t :=
  ofUnsigned (Z.lor (Z.land (Bits Info) (Z.lnot CallConvMask)) (AbstractCC_value CC)).

(** [ExtInfo withRepresentation(Representation Rep) const] *)
Definition withRepresentation (Info : t) (Rep : Representation) : t :=
  ofUnsigned
    (Z.lor (Z.land (Bits Info) (Z.lnot RepresentationMask))
       (Z.shiftl (Representation_value Rep) RepresentationShift)).

(** [ExtInfo withIsNoReturn(bool IsNoReturn) const] *)
Definition withIsNoReturn (Info : t) (IsNoReturn : bool) : t :=
  if IsNoReturn
  then ofUnsigned (Z.lor (Bits Info) NoReturnMask)
  else ofUnsigned (Z.land (Bits Info) (Z.lnot NoReturnMask)).

(** [ExtInfo withIsAutoClosure(bool IsAutoClosure) const] *)
Definition withIsAutoClosure (Info : t) (IsAutoClosure : bool) : t :=
  if IsAutoClosure
  then ofUnsigned (Z.lor (Bits Info) AutoClosureMask)
  else ofUnsigned (Z.land (Bits Info) (Z.lnot AutoClosureMask)).

(** [bool operator==(ExtInfo Other) const { return Bits == Other.Bits; }] *)
Definition eq (Info Other : t) : bool := (Bits Info =? Bits Other)%Z.

End ExtInfo.

(** [unsigned ExtInfo : 8] of [AnyFunctionTypeBitfields] (Types.h:188-194),
    the eight bits after the shared ones. *)
Definition AnyFunctionTypeBits_ExtInfo (T : TypeBase) : Z :=
  Z.land (SubclassBits T) (Z.ones 8).

(** [AnyFunctionTypeBits.ExtInfo = Info.Bits;], the body of the constructor
    of [AnyFunctionType] (Types.h:1844-1850). *)
Definition set_AnyFunctionTypeBits_ExtInfo (T : TypeBase) (Info : ExtInfo.t) : TypeBase :=
  {| CanonicalType := CanonicalType T;
     Kind := Kind T;
     Properties := Properties T;
     SubclassBits := Z.land (ExtInfo.Bits Info) (Z.ones 8);
     Members := Members T |}.

(** [ExtInfo getExtInfo() const { return ExtInfo(AnyFunctionTypeBits.ExtInfo); }] *)
Definition getExtInfo (T : TypeBase) : ExtInfo.t :=
  ExtInfo.ofUnsigned (AnyFunctionTypeBits_ExtInfo T).

(** [AbstractCC getAbstractCC() const { return getExtInfo().getCC(); }] *)
Definition getAbstractCC (T : TypeBase) : Outcome AbstractCC :=
  ExtInfo.getCC (getExtInfo T).

(** [Representation getRepresentation() const] *)
Definition getRepresentation (T : TypeBase) : Outcome Representation :=
  ExtInfo.getRepresentation (getExtInfo T).

(** [bool isNoReturn() const { return getExtInfo().isNoReturn(); }] *)
Definition isNoReturn (T : TypeBase) : bool := ExtInfo.isNoReturn (getExtInfo T).

(** [bool isAutoClosure() const { return getExtInfo().isAutoClosure(); }] *)
Definition isAutoClosure (T : TypeBase) : bool := ExtInfo.isAutoClosure (getExtInfo T).

End AnyFunctionType.

(** ** SIL function types (Types.h:2121-2430) *)

(** [class SILParameterInfo] (Types.h:2121-2191).  The constructor asserts
    [type->isLegalSILType()], which Types.h only declares; the accessors are
    modelled on the pair that it fills. *)
Module SILParameterInfo.

(** [llvm::PointerIntPair<CanType, 3, ParameterConvention> TypeAndConvention] *)
Record t : Set := mk {
  TypeAndConvention_Pointer : Type_;
  TypeAndConvention_Int : ParameterConvention;
}.

(** [CanType getType() const { return TypeAndConvention.getPointer(); }] *)
Definition getType (param : t) : Type_ := TypeAndConvention_Pointer param.

(** [ParameterConvention getConvention() const
      { return TypeAndConvention.getInt(); }] *)
Definition getConvention (param : t) : ParameterConvention :=
  TypeAndConvention_Int param.

(** [bool isIndirect() const { return isIndirectParameter(getConvention()); }] *)
Definition isIndirect (param : t) : bool := isIndirectParameter (getConvention param).

(** [bool isIndirectInOut() const
      { return getConvention() == ParameterConvention::Indirect_Inout; }] *)
Definition isIndirectInOut (param : t) : bool :=
  (ParameterConvention_value (getConvention param)
   =? ParameterConvention_value Indirect_Inout)%Z.

(** [bool isIndirectResult() const
      { return getConvention() == ParameterConvention::Indirect_Out; }] *)
Definition isIndirectResult (param : t) : bool :=
  (ParameterConvention_value (getConvention param)
   =? ParameterConvention_value Indirect_Out)%Z.

(** [bool isConsumed() const { return isConsumedParameter(getConvention()); }] *)
Definition isConsumed (param : t) : bool := isConsumedParameter (getConvention param).

End SILParameterInfo.

(** [class SILFunctionType] (Types.h:2297-2427): the members that the
    accessors of the parameter list read. *)
Module SILFunctionType.

(** The parameters are the [SILFunctionTypeBits.NumParameters] objects that
    follow the node in memory ([getMutableInterfaceParameters]). *)
Record t : Set := mk {
  InterfaceParameters : list SILParameterInfo.t;
}.

(** [ArrayRef<SILParameterInfo> getInterfaceParameters() const] *)
Definition getInterfaceParameters (T : t) : list SILParameterInfo.t :=
  InterfaceParameters T.

(** [bool hasIndirectResult() const
      { return !getInterfaceParameters().empty()
          && getInterfaceParameters()[0].isIndirectResult(); }] *)
Definition hasIndirectResult (T : t) : bool :=
  match getInterfaceParameters T with
  | [] => false
  | param :: _ => SILParameterInfo.isIndirectResult param
  end.

(** [SILParameterInfo getIndirectInterfaceResult() const
      { assert(hasIndirectResult()); return getInterfaceParameters()[0]; }];
    [ArrayRef::operator[]] asserts that the index is in range. *)
Definition getIndirectInterfaceResult (T : t) : Outcome SILParameterInfo.t :=
  Outcome_bind (Assert (hasIndirectResult T)) (fun _ =>
  match getInterfaceParameters T !! 0 with
  | Some param => Returns param
  | None => Aborts
  end).

(** [ArrayRef<SILParameterInfo>
     getInterfaceParametersWithoutIndirectResult() const
      { auto params = getInterfaceParameters();
        if (hasIndirectResult()) params = params.slice(1);
        return params; }] *)
Definition getInterfaceParametersWithoutIndirectResult (T : t)
    : list SILParameterInfo.t :=
  let params := getInterfaceParameters T in
  if hasIndirectResult T then drop 1 params else params.

End SILFunctionType.

(** ** Notions for the proofs *)

Definition fieldWords (Elt : TupleTypeElt) : list Z :=
  [Name Elt; pointerValue (Ty Elt); DefaultArgOrVarArg_value (DefaultOrVarArg Elt)].

(** The kinds of the nodes of one class. *)
Definition kindsOfClass (members : Subclass) : list TypeKind :=
  match members with
  | ErrorType_ => [Error]
  | BuiltinIntegerType_ _ => [BuiltinInteger]
  | BuiltinVectorType_ _ _ => [BuiltinVector]
  | ParenType_ _ => [Paren]
  | TupleType_ _ => [Tuple]
  | NominalType_ _ _ => [Enum; Struct; Class; Protocol]
  | BoundGenericType_ _ _ _ => [BoundGenericClass; BoundGenericEnum; BoundGenericStruct]
  | AnyMetatypeType_ _ => [Metatype; ExistentialMetatype]
  | ProtocolCompositionType_ _ => [ProtocolComposition]
  | ArchetypeType_ _ _ _ _ => [Archetype]
  | GenericTypeParamType_ _ => [GenericTypeParam]
  | DependentMemberType_ _ _ => [DependentMember]
  | TypeVariableType_ => [TypeVariable]
  end.

Definition freshSlot (N : TypeBase) : Prop :=
  forall CT, CanonicalType N <> IsTypeBase (Some CT).

(** What every call leaves behind: a well-formed later context in which the
    old nodes are untouched. *)
Definition Post (C : ASTContext) (T : nat) (C' : ASTContext) : Prop :=
  WF C' /\ extends C C' /\ frozenFrom 0 C C'
  /\ NextOpenedExistentialID C' = NextOpenedExistentialID C
  /\ OpenedExistentialArchetypes C' = OpenedExistentialArchetypes C
  /\ T < length (Storage C').

(** The node at [T] is the one its class constructor builds from these
    arguments. *)
Definition nodeIs (C : ASTContext) (T : nat) (kind : TypeKind) (members : Subclass)
    (canonical : bool) (properties : RTP.t) : Prop :=
  exists N, Storage C !! T = Some N /\ Kind N = kind /\ Members N = members
            /\ isCanonical N = canonical
            /\ Properties N = RTP.toBitField (RTP.getBits properties).

(** One step of a computation that started in a well-formed context: the
    context stays well formed, only grows, leaves the nodes from [bound] on
    untouched and opens no existential. *)
Definition Step (bound : nat) (C C' : ASTContext) : Prop :=
  WF C' /\ extends C C' /\ frozenFrom bound C C'
  /\ NextOpenedExistentialID C' = NextOpenedExistentialID C
  /\ OpenedExistentialArchetypes C' = OpenedExistentialArchetypes C.

Definition isProtocolNode (C : ASTContext) (T : nat) : Prop :=
  kindOf (Storage C) (Some T) = Some Protocol /\ canonicalOf (Storage C) (Some T) = true.

(** What is known of the canonical form [c] of a child [U], in a context
    [C2] later than the context [C0] the computation started in. *)
Definition childCanon (C0 C2 : ASTContext) (U : Type_) (c : nat) : Prop :=
  exists q, U = Some q
    /\ resolvedCanonicalType (Storage C2) q = Some c
    /\ canonicalOf (Storage C2) (Some c) = true
    /\ (isExistentialSpelling (Storage C0) U = true -> isExistentialKind (Storage C2) c).

(** [canon] canonicalizes every node older than [b]. *)
Definition canonSpec (b : nat) (C0 : ASTContext) (canon : Type_ -> M nat) : Prop :=
  forall U q, U = Some q -> q < b ->
  forall C1, WF C1 -> extends C0 C1 ->
  exists c C2, canon U C1 = Returns (c, C2) /\ Step b C1 C2 /\ childCanon C0 C2 U c.

(** The elements of a tuple after the canonicalization of their types. *)
Definition fieldCanon (C0 C2 : ASTContext) (field Elt : TupleTypeElt) : Prop :=
  exists c, Elt = {| Name := Name field; Ty := Some c;
                     DefaultOrVarArg := DefaultOrVarArg field |}
            /\ childCanon C0 C2 (getType field) c.


(** The outcome of the canonicalization of the node [T]: [c] is its
    canonical form, recorded in the context [C']. *)
Definition Canonicalized (C : ASTContext) (T c : nat) (C' : ASTContext) : Prop :=
  Step (S T) C C'
  /\ resolvedCanonicalType (Storage C') T = Some c
  /\ canonicalOf (Storage C') (Some c) = true
  /\ (isExistentialSpelling (Storage C) (Some T) = true -> isExistentialKind (Storage C') c).

(** What one opening does: the archetype is a new node at the end of the
    storage, built from the protocols of the canonical type. *)
Definition openedBy (C : ASTContext) (E : nat) (ID : Z) (T : nat) (C' : ASTContext)
    : Prop :=
  exists c C1 N conformsTo,
    getCanonicalType E C = Returns (c, C1)
    /\ Storage C1 !! c = Some N
    /\ CanType_getAnyExistentialTypeProtocols (Storage C1) N = Returns conformsTo
    /\ T = length (Storage C1)
    /\ Storage C' = Storage C1 ++ [ArchetypeType_ctor_opened (Some E) ID conformsTo None]
    /\ NextOpenedExistentialID C' = NextOpenedExistentialID C
    /\ OpenedExistentialArchetypes C' !! ID = Some T
    /\ Step (S E) C C1
    /\ extends C1 C'.

(** The [ExtInfo] values that code outside of [ExtInfo] can come by: the
    constructor from [unsigned] is private, so a value is made by one of the
    public constructors, changed by one of the [with...] functions, or read
    back out of the bit-field of a function type that was built from one. *)
Inductive ExtInfo_constructible : AnyFunctionType.ExtInfo.t -> Prop :=
| constructible_default Info :
    AnyFunctionType.ExtInfo.default = Returns Info ->
    ExtInfo_constructible Info
| constructible_ofCCRepNoReturn CC Rep IsNoReturn :
    ExtInfo_constructible (AnyFunctionType.ExtInfo.ofCCRepNoReturn CC Rep IsNoReturn)
| constructible_ofAll CC Rep IsNoReturn IsAutoClosure :
    ExtInfo_constructible (AnyFunctionType.ExtInfo.ofAll CC Rep IsNoReturn IsAutoClosure)
| constructible_ofCC CC :
    ExtInfo_constructible (AnyFunctionType.ExtInfo.ofCC CC)
| constructible_withCallingConv Info CC :
    ExtInfo_constructible Info ->
    ExtInfo_constructible (AnyFunctionType.ExtInfo.withCallingConv Info CC)
| constructible_withRepresentation Info Rep :
    ExtInfo_constructible Info ->
    ExtInfo_constructible (AnyFunctionType.ExtInfo.withRepresentation Info Rep)
| constructible_withIsNoReturn Info IsNoReturn :
    ExtInfo_constructible Info ->
    ExtInfo_constructible (AnyFunctionType.ExtInfo.withIsNoReturn Info IsNoReturn)
| constructible_withIsAutoClosure Info IsAutoClosure :
    ExtInfo_constructible Info ->
    ExtInfo_constructible (AnyFunctionType.ExtInfo.withIsAutoClosure Info IsAutoClosure)
| constructible_getExtInfo T Info :
    ExtInfo_constructible Info ->
    ExtInfo_constructible
      (AnyFunctionType.getExtInfo (AnyFunctionType.set_AnyFunctionTypeBits_ExtInfo T Info)).

(** ** A small program *)

(** The result and the context of a run; an aborted run leaves the context
    as it was. *)
Definition resultOf {A : Type} (m : M A) (C : ASTContext) (default : A) : A :=
  match m C with
  | Returns (a, _) => a
  | Aborts => default
  end.

Definition contextAfter {A : Type} (m : M A) (C : ASTContext) : ASTContext :=
  match m C with
  | Returns (_, C') => C'
  | Aborts => C
  end.

(** Two protocols of the module [Swift], [Q] refining [P], and a generic
    struct [S]. *)
Definition exampleP : Decl := 1%Z.
Definition exampleQ : Decl := 2%Z.

Definition exampleDecls : DeclRegistry :=
  {| declKind := fun D => if (D <=? 2)%Z then ProtocolDeclKind else StructDeclKind;
     declModuleName := fun _ => "Swift"%string;
     declName := fun D =>
       if (D =? 1)%Z then "P"%string else if (D =? 2)%Z then "Q"%string else "S"%string;
     inheritedProtocols := fun D => if (D =? 2)%Z then [exampleP] else [] |}.

(** The nodes are numbered in the order of their allocation: [P] is node 0,
    [Q] node 1, [Builtin.Int32] node 2, the generic parameter node 3, [(P)]
    node 4, the tuple of nodes 2 and 3 node 5 and the composition of [(P)]
    and [Q] node 6. *)
Definition exampleOps : list Operation :=
  [ Op_get (Get_ProtocolType exampleP);
    Op_get (Get_ProtocolType exampleQ);
    Op_get (Get_BuiltinIntegerType (BuiltinIntegerWidth.mk 32));
    Op_get (Get_GenericTypeParamType 0 0);
    Op_get (Get_ParenType (Some 0));
    Op_get (Get_TupleType [TupleTypeElt_ofType 2; TupleTypeElt_ofType 3]);
    Op_get (Get_ProtocolCompositionType [Some 4; Some 1]) ].

Definition exampleResults : list nat :=
  resultOf (session exampleOps) (emptyContext exampleDecls) [].

Definition exampleContext : ASTContext :=
  contextAfter (session exampleOps) (emptyContext exampleDecls).







(** * Properties *)


(** ** Bit-level facts about the property bitset *)

Lemma toBitField_range bits : (0 <= RTP.toBitField bits < 8)%Z.
Proof.
  unfold RTP.toBitField, RTP.BitWidth.
  rewrite Z.land_ones by lia. change (2 ^ 3)%Z with 8%Z.
  apply Z.mod_pos_bound. lia.
Qed.

Lemma toBitField_small bits : (0 <= bits < 8)%Z -> RTP.toBitField bits = bits.
Proof.
  intros H. unfold RTP.toBitField, RTP.BitWidth.
  rewrite Z.land_ones by lia. change (2 ^ 3)%Z with 8%Z.
  apply Z.mod_small. lia.
Qed.

Lemma toBitField_idem bits : RTP.toBitField (RTP.toBitField bits) = RTP.toBitField bits.
Proof. apply toBitField_small, toBitField_range. Qed.

Lemma toBitField_lor a b :
  RTP.toBitField (Z.lor a b) = Z.lor (RTP.toBitField a) (RTP.toBitField b).
Proof. unfold RTP.toBitField. apply Z.land_lor_distr_l. Qed.

Lemma getRecursiveProperties_range T :
  (0 <= RTP.getBits (getRecursiveProperties T) < 8)%Z.
Proof. apply toBitField_range. Qed.

Lemma propertiesOf_range Nodes T : (0 <= RTP.getBits (propertiesOf Nodes T) < 8)%Z.
Proof.
  unfold propertiesOf. destruct (derefType Nodes T).
  - apply getRecursiveProperties_range.
  - apply toBitField_range.
Qed.

Lemma plus_range a b : (0 <= RTP.getBits (RTP.plus a b) < 8)%Z.
Proof. apply toBitField_range. Qed.


(** ** Inversion of monadic code *)

Lemma bind_Returns {A B} (m : M A) (f : A -> M B) C r :
  bind m f C = Returns r <->
  exists a C1, m C = Returns (a, C1) /\ f a C1 = Returns r.
Proof.
  unfold bind. split.
  - destruct (m C) as [[a C1]|]; [|discriminate]. eauto.
  - intros (a & C1 & -> & H). done.
Qed.

Lemma lift_Returns {A} (o : Outcome A) C r :
  lift o C = Returns r <-> exists a, o = Returns a /\ r = (a, C).
Proof.
  unfold lift. destruct o; split.
  - intros [= <-]. eauto.
  - intros (? & [= <-] & ->). done.
  - discriminate.
  - intros (? & [=] & _).
  Qed.

Lemma Assert_Returns b u : Assert b = Returns u <-> b = true.
Proof. destruct b, u; simpl; split; congruence. Qed.

Lemma requireLive_Returns Ts C r :
  requireLive Ts C = Returns r <->
  forallb (isLive (Storage C)) Ts = true /\ r = (tt, C).
Proof.
  unfold requireLive. destruct (forallb _ _); split.
  - intros [= <-]. done.
  - intros [_ ->]. done.
  - discriminate.
  - intros [[=] _].
Qed.

Ltac inv_M :=
  repeat match goal with
  | H : bind _ _ _ = Returns _ |- _ =>
      let a := fresh "a" in let C1 := fresh "C" in
      let H1 := fresh H in let H2 := fresh H in
      apply bind_Returns in H; destruct H as (a & C1 & H1 & H2)
  | H : ret _ _ = Returns _ |- _ => unfold ret in H; injection H as <- <-
  | H : getStorage _ = Returns _ |- _ => unfold getStorage in H; injection H as <- <-
  | H : getDecls _ = Returns _ |- _ => unfold getDecls in H; injection H as <- <-
  | H : abort _ = Returns _ |- _ => discriminate H
  | H : Aborts = Returns _ |- _ => discriminate H
  | H : requireLive _ _ = Returns _ |- _ =>
      let H1 := fresh H in
      apply requireLive_Returns in H; destruct H as [H1 [= -> ->]]
  | H : lift _ _ = Returns _ |- _ =>
      let a := fresh "a" in let H1 := fresh H in
      apply lift_Returns in H; destruct H as (a & H1 & [= -> ->])
  | H : Assert _ = Returns _ |- _ => apply Assert_Returns in H
  end.

(** ** Reading the storage *)

Lemma isLive_Some Nodes T : isLive Nodes T = true <-> exists p N, T = Some p /\ Nodes !! p = Some N.
Proof.
  unfold isLive, derefType. destruct T as [p|]; simpl.
  - destruct (Nodes !! p) eqn:E; split; eauto; try discriminate.
    intros (? & ? & [= <-] & ?). congruence.
  - split; [discriminate|]. intros (? & ? & [=] & _).
Qed.

Lemma isLive_lt Nodes p : isLive Nodes (Some p) = true <-> p < length Nodes.
Proof.
  rewrite isLive_Some. split.
  - intros (? & N & [= <-] & H). by apply lookup_lt_Some in H.
  - intros H. apply lookup_lt_is_Some in H as [N H]. eauto.
Qed.

Lemma nodeEvolves_refl N : nodeEvolves N N.
Proof. by left. Qed.

Lemma nodeEvolves_trans N1 N2 N3 :
  nodeEvolves N1 N2 -> nodeEvolves N2 N3 -> nodeEvolves N1 N3.
Proof.
  intros [->|(H1 & CT & ->)] [->|(H2 & CT' & ->)].
  - by left.
  - right. eauto.
  - right. eauto.
  - simpl in H2. discriminate.
Qed.

Lemma nodeEvolves_fields N N' :
  nodeEvolves N N' ->
  Kind N' = Kind N /\ Properties N' = Properties N /\ SubclassBits N' = SubclassBits N
  /\ Members N' = Members N /\ isCanonical N' = isCanonical N.
Proof.
  intros [->|(H & CT & ->)]; [done|].
  unfold isCanonical. simpl. rewrite H. done.
Qed.

Lemma nodeEvolves_slot N N' CT :
  nodeEvolves N N' -> CanonicalType N = IsTypeBase (Some CT) ->
  CanonicalType N' = IsTypeBase (Some CT).
Proof. intros [->|(H & ? & ->)] E; [done|congruence]. Qed.

Lemma nodeEvolves_uniquingKey N N' : nodeEvolves N N' -> uniquingKey N' = uniquingKey N.
Proof.
  intros [->|(H & CT & ->)]; [done|]. reflexivity.
Qed.

Lemma extends_refl C : extends C C.
Proof. repeat split; eauto using nodeEvolves_refl. Qed.

Lemma extends_trans C1 C2 C3 : extends C1 C2 -> extends C2 C3 -> extends C1 C3.
Proof.
  intros (D1 & S1 & U1) (D2 & S2 & U2). repeat split.
  - congruence.
  - intros p N H. destruct (S1 _ _ H) as (N' & H' & E1).
    destruct (S2 _ _ H') as (N'' & H'' & E2).
    eauto using nodeEvolves_trans.
  - eauto.
Qed.

Lemma extends_length C C' : extends C C' -> length (Storage C) <= length (Storage C').
Proof.
  intros (_ & S & _).
  destruct (decide (length (Storage C) <= length (Storage C'))) as [|Hn]; [done|].
  assert (length (Storage C') < length (Storage C)) as Hlt by lia.
  apply lookup_lt_is_Some in Hlt as [N HN].
  destruct (S _ _ HN) as (N' & HN' & _).
  apply lookup_lt_Some in HN'. lia.
Qed.

Lemma frozenFrom_refl b C : frozenFrom b C C.
Proof. by intros p N _ H. Qed.

Lemma frozenFrom_trans b C1 C2 C3 :
  frozenFrom b C1 C2 -> frozenFrom b C2 C3 -> frozenFrom b C1 C3.
Proof. intros H1 H2 p N Hp H. eauto. Qed.

Lemma frozenFrom_mono b b' C C' : b <= b' -> frozenFrom b C C' -> frozenFrom b' C C'.
Proof. intros Hb H p N Hp HN. apply H; [lia|done]. Qed.

Section Stability.
Context (C C' : ASTContext) (Hext : extends C C').

Lemma extends_deref T N :
  derefType (Storage C) T = Some N ->
  exists N', derefType (Storage C') T = Some N' /\ nodeEvolves N N'.
Proof.
  destruct Hext as (_ & S & _). destruct T as [p|]; simpl; [|discriminate]. auto.
Qed.

Lemma extends_isLive T : isLive (Storage C) T = true -> isLive (Storage C') T = true.
Proof.
  unfold isLive. destruct (derefType (Storage C) T) eqn:E; [|discriminate].
  destruct (extends_deref _ _ E) as (N' & -> & _). done.
Qed.

Lemma extends_propertiesOf T :
  isLive (Storage C) T = true ->
  propertiesOf (Storage C') T = propertiesOf (Storage C) T.
Proof.
  unfold isLive, propertiesOf. destruct (derefType (Storage C) T) eqn:E; [|discriminate].
  destruct (extends_deref _ _ E) as (N' & -> & Ev). intros _.
  apply nodeEvolves_fields in Ev as (_ & Hp & _).
  unfold getRecursiveProperties. by rewrite Hp.
Qed.

Lemma extends_canonicalOf T :
  isLive (Storage C) T = true ->
  canonicalOf (Storage C') T = canonicalOf (Storage C) T.
Proof.
  unfold isLive, canonicalOf. destruct (derefType (Storage C) T) eqn:E; [|discriminate].
  destruct (extends_deref _ _ E) as (N' & -> & Ev). intros _.
  by apply nodeEvolves_fields in Ev as (_ & _ & _ & _ & ?).
Qed.

Lemma extends_kindOf T :
  isLive (Storage C) T = true ->
  kindOf (Storage C') T = kindOf (Storage C) T.
Proof.
  unfold isLive, kindOf. destruct (derefType (Storage C) T) eqn:E; [|discriminate].
  destruct (extends_deref _ _ E) as (N' & -> & Ev). intros _.
  apply nodeEvolves_fields in Ev as (-> & _). done.
Qed.

Lemma extends_forallb_isLive Ts :
  forallb (isLive (Storage C)) Ts = true -> forallb (isLive (Storage C')) Ts = true.
Proof.
  rewrite !forallb_forall. intros H T HT. apply extends_isLive. auto.
Qed.

Lemma extends_forallb_canonicalOf Ts :
  forallb (isLive (Storage C)) Ts = true ->
  forallb (canonicalOf (Storage C')) Ts = forallb (canonicalOf (Storage C)) Ts.
Proof.
  induction Ts as [|T Ts IH]; simpl; [done|].
  intros [H1 H2]%andb_true_iff. rewrite extends_canonicalOf by done. by rewrite IH.
Qed.

Lemma extends_getDesugaredType_fuel fuel T D :
  getDesugaredType_fuel fuel (Storage C) T = Some D ->
  getDesugaredType_fuel fuel (Storage C') T = Some D.
Proof.
  revert T. induction fuel as [|fuel IH]; simpl; [discriminate|].
  intros T. destruct (Storage C !! T) as [N|] eqn:E; [|discriminate].
  destruct Hext as (_ & S & _). destruct (S _ _ E) as (N' & -> & Ev).
  apply nodeEvolves_fields in Ev as (_ & _ & _ & -> & _).
  destruct (Members N); try done. destruct UnderlyingType; [|done]. apply IH.
Qed.

End Stability.



(** ** Fingerprints determine the members *)

Lemma pointerValue_inj T1 T2 : pointerValue T1 = pointerValue T2 -> T1 = T2.
Proof.
  destruct T1, T2; simpl; intros H; try done; try lia.
  f_equal. lia.
Qed.

Lemma DefaultArgOrVarArg_value_inj d1 d2 :
  DefaultArgOrVarArg_value d1 = DefaultArgOrVarArg_value d2 -> d1 = d2.
Proof. destruct d1, d2; simpl; intros H; done. Qed.

Lemma TypeKind_value_inj K1 K2 : TypeKind_value K1 = TypeKind_value K2 -> K1 = K2.
Proof. destruct K1, K2; simpl; intros H; done. Qed.

Lemma fold_fieldWords Fields (acc : FoldingSetNodeID) :
  fold_left (fun ID Elt =>
      AddInteger (AddPointer (AddPointer ID (Name Elt)) (pointerValue (Ty Elt)))
        (DefaultArgOrVarArg_value (DefaultOrVarArg Elt))) Fields acc
  = acc ++ concat (map fieldWords Fields).
Proof.
  revert acc. induction Fields as [|Elt Fields IH]; intros acc; simpl.
  - by rewrite app_nil_r.
  - rewrite IH. unfold AddInteger, AddPointer. by rewrite <- !app_assoc.
Qed.

Lemma TupleType_Profile_words ID Fields :
  TupleType_Profile ID Fields =
  ID ++ Z.of_nat (length Fields) :: concat (map fieldWords Fields).
Proof.
  unfold TupleType_Profile. rewrite fold_fieldWords.
  unfold AddInteger. by rewrite <- app_assoc.
Qed.

Lemma fieldWords_inj Fs1 Fs2 :
  concat (map fieldWords Fs1) = concat (map fieldWords Fs2) -> Fs1 = Fs2.
Proof.
  revert Fs2. induction Fs1 as [|E1 Fs1 IH]; intros [|E2 Fs2]; simpl; try done.
  intros [= Hn Ht Hd Hr]. f_equal; [|by apply IH].
  destruct E1, E2; simpl in *. f_equal; auto using pointerValue_inj, DefaultArgOrVarArg_value_inj.
Qed.

Lemma fold_AddPointer_words ID (Ts : list Type_) :
  fold_left (fun ID T => AddPointer ID (pointerValue T)) Ts ID = ID ++ map pointerValue Ts.
Proof.
  revert ID. induction Ts as [|T Ts IH]; intros ID; simpl.
  - by rewrite app_nil_r.
  - rewrite IH. unfold AddPointer. by rewrite <- app_assoc.
Qed.

Lemma map_pointerValue_inj Ts1 Ts2 :
  map pointerValue Ts1 = map pointerValue Ts2 -> Ts1 = Ts2.
Proof.
  revert Ts2. induction Ts1 as [|T1 Ts1 IH]; intros [|T2 Ts2]; simpl; try done.
  intros [= H1 H2]. f_equal; auto using pointerValue_inj.
Qed.

Lemma membersOK_kind decls Nodes K members :
  membersOK decls Nodes K members -> In K (kindsOfClass members).
Proof.
  destruct members as [| | | | | D P | D P A | | | | [|] | |]; simpl; intros H;
    try (destruct (declKind decls D); simpl in H); intuition (subst; auto; congruence).
Qed.

(** Two uniqued nodes of one kind with one fingerprint have the same
    members. *)
Lemma Profile_inj decls Nodes1 Nodes2 N1 N2 :
  membersOK decls Nodes1 (Kind N1) (Members N1) ->
  membersOK decls Nodes2 (Kind N2) (Members N2) ->
  isUniquedClass (Members N1) = true ->
  isUniquedClass (Members N2) = true ->
  Kind N1 = Kind N2 ->
  Profile N1 = Profile N2 ->
  Members N1 = Members N2.
Proof.
  unfold Profile. intros OK1%membersOK_kind OK2%membersOK_kind U1 U2 HK HP.
  rewrite HK in OK1.
  destruct (Members N1) as [| w1 | e1 n1 | u1 | Fs1 | D1 P1 | D1 P1 A1 | I1 | Ps1
                            | c1 s1 o1 i1 | [d1|f1] | B1 m1 |];
    destruct (Members N2) as [| w2 | e2 n2 | u2 | Fs2 | D2 P2 | D2 P2 A2 | I2 | Ps2
                            | c2 s2 o2 i2 | [d2|f2] | B2 m2 |];
    simpl in U1, U2; try discriminate;
    try (exfalso; simpl in OK1, OK2; intuition congruence).
  - injection HP as HP. destruct w1, w2; simpl in *. congruence.
  - unfold BuiltinVectorType_Profile, AddInteger, AddPointer in HP. simpl in HP.
    injection HP as H1 H2. apply pointerValue_inj in H1. congruence.
  - unfold AddPointer in HP. injection HP as H1. apply pointerValue_inj in H1. congruence.
  - rewrite !TupleType_Profile_words in HP. simpl in HP.
    injection HP as _ HP. apply fieldWords_inj in HP. congruence.
  - unfold NominalType_Profile, AddPointer in HP. simpl in HP.
    injection HP as H1 H2. apply pointerValue_inj in H2. congruence.
  - unfold BoundGenericType_Profile in HP. rewrite !fold_AddPointer_words in HP.
    unfold AddInteger, AddPointer in HP. simpl in HP.
    injection HP as H1 H2 _ H3. apply pointerValue_inj in H2.
    apply map_pointerValue_inj in H3. congruence.
  - unfold AddInteger, AddPointer in HP. simpl in HP.
    injection HP as H1 _. apply pointerValue_inj in H1. congruence.
  - unfold ProtocolCompositionType_Profile in HP. rewrite !fold_AddPointer_words in HP.
    simpl in HP. apply map_pointerValue_inj in HP. congruence.
  - unfold AddInteger in HP. simpl in HP. congruence.
  - unfold AddPointer in HP. simpl in HP.
    injection HP as H1 H2. apply pointerValue_inj in H1. congruence.
Qed.

Lemma uniquingKey_inv N1 N2 :
  uniquingKey N1 = uniquingKey N2 -> Kind N1 = Kind N2 /\ Profile N1 = Profile N2.
Proof.
  unfold uniquingKey. intros [= _ HK HP]. split; [by apply TypeKind_value_inj|done].
Qed.



(** ** What a later context preserves *)

Lemma getDesugaredType_fuel_live fuel Nodes T D :
  getDesugaredType_fuel fuel Nodes T = Some D -> isLive Nodes (Some D) = true.
Proof.
  revert T. induction fuel as [|fuel IH]; simpl; [discriminate|].
  intros T. destruct (Nodes !! T) as [N|] eqn:E; [|discriminate].
  destruct (Members N) eqn:EM; try (intros [= <-]; unfold isLive; simpl; by rewrite E).
  destruct UnderlyingType; [apply IH|discriminate].
Qed.


Section Stability2.
Context (C C' : ASTContext) (Hext : extends C C').

Lemma extends_TupleType_properties Fields :
  forallb (isLive (Storage C)) (map getType Fields) = true ->
  TupleType_properties (Storage C') Fields = TupleType_properties (Storage C) Fields.
Proof.
  unfold TupleType_properties. generalize RTP.empty.
  induction Fields as [|Elt Fields IH]; intros acc; simpl; [done|].
  intros [H1 H2]%andb_true_iff.
  rewrite (extends_propertiesOf _ _ Hext) by done. by apply IH.
Qed.

Lemma extends_fold_plus Args acc :
  forallb (isLive (Storage C)) Args = true ->
  fold_left (fun properties Arg => RTP.plus properties (propertiesOf (Storage C') Arg)) Args acc
  = fold_left (fun properties Arg => RTP.plus properties (propertiesOf (Storage C) Arg)) Args acc.
Proof.
  revert acc. induction Args as [|Arg Args IH]; intros acc; simpl; [done|].
  intros [H1 H2]%andb_true_iff.
  rewrite (extends_propertiesOf _ _ Hext) by done. by apply IH.
Qed.

Lemma extends_propertiesOf_parent Parent :
  forallb (isLive (Storage C)) (parentTypes Parent) = true ->
  propertiesOf (Storage C') Parent = propertiesOf (Storage C) Parent.
Proof.
  destruct Parent; simpl; [|done].
  intros [H _]%andb_true_iff. by apply (extends_propertiesOf _ _ Hext).
Qed.

Lemma extends_canonicalOf_parent (Parent : Type_) :
  forallb (isLive (Storage C)) (parentTypes Parent) = true ->
  match Parent with None => true | Some _ => canonicalOf (Storage C') Parent end
  = match Parent with None => true | Some _ => canonicalOf (Storage C) Parent end.
Proof.
  destruct Parent; simpl; [|done].
  intros [H _]%andb_true_iff. by apply (extends_canonicalOf _ _ Hext).
Qed.

Lemma extends_forallb_canonicalOf_fields Fields :
  forallb (isLive (Storage C)) (map getType Fields) = true ->
  forallb (fun Elt => canonicalOf (Storage C') (getType Elt)) Fields
  = forallb (fun Elt => canonicalOf (Storage C) (getType Elt)) Fields.
Proof.
  induction Fields as [|Elt Fields IH]; simpl; [done|].
  intros [H1 H2]%andb_true_iff.
  rewrite (extends_canonicalOf _ _ Hext) by done. by rewrite IH.
Qed.

Lemma extends_expectedProperties members :
  forallb (isLive (Storage C)) (childrenOf members) = true ->
  expectedProperties (Storage C') members = expectedProperties (Storage C) members.
Proof.
  destruct members; simpl; try done.
  - intros [H _]%andb_true_iff. by apply (extends_propertiesOf _ _ Hext).
  - apply extends_TupleType_properties.
  - apply extends_propertiesOf_parent.
  - rewrite forallb_app. intros [H1 H2]%andb_true_iff.
    unfold BoundGenericType_properties.
    rewrite extends_fold_plus by done. by rewrite extends_propertiesOf_parent.
  - intros [H _]%andb_true_iff. by apply (extends_propertiesOf _ _ Hext).
  - intros [H _]%andb_true_iff. by apply (extends_propertiesOf _ _ Hext).
Qed.

Lemma extends_expectedCanonical members :
  forallb (isLive (Storage C)) (childrenOf members) = true ->
  expectedCanonical (Storage C') members = expectedCanonical (Storage C) members.
Proof.
  destruct members; simpl; try done.
  - apply extends_forallb_canonicalOf_fields.
  - apply extends_canonicalOf_parent.
  - rewrite forallb_app. intros [H1 H2]%andb_true_iff.
    unfold BoundGenericType_isCanonical.
    rewrite extends_canonicalOf_parent by done.
    by rewrite (extends_forallb_canonicalOf _ _ Hext).
  - intros [H _]%andb_true_iff. by apply (extends_canonicalOf _ _ Hext).
  - apply (extends_forallb_canonicalOf _ _ Hext).
  - intros [H _]%andb_true_iff. by apply (extends_canonicalOf _ _ Hext).
Qed.

Lemma extends_getDesugaredType p D :
  getDesugaredType (Storage C) p = Some D -> getDesugaredType (Storage C') p = Some D.
Proof. apply (extends_getDesugaredType_fuel _ _ Hext). Qed.

Lemma extends_is_defined K p D :
  getDesugaredType (Storage C) p = Some D ->
  is_ (Storage C') K (Some p) = is_ (Storage C) K (Some p).
Proof.
  intros H. unfold is_. rewrite H, (extends_getDesugaredType _ _ H).
  apply getDesugaredType_fuel_live in H.
  by rewrite (extends_kindOf _ _ Hext) by done.
Qed.

Lemma extends_is_true K T : is_ (Storage C) K T = true -> is_ (Storage C') K T = true.
Proof.
  destruct T as [p|]; [|done]. intros H.
  destruct (getDesugaredType (Storage C) p) as [D|] eqn:E.
  - by rewrite (extends_is_defined _ _ _ E).
  - unfold is_ in H. by rewrite E in H.
Qed.

Lemma extends_isExistentialSpelling_true T :
  isExistentialSpelling (Storage C) T = true -> isExistentialSpelling (Storage C') T = true.
Proof.
  unfold isExistentialSpelling. rewrite !orb_true_iff.
  intros [H|H]; [left|right]; by apply extends_is_true.
Qed.

Lemma extends_isExistentialSpelling_defined p D :
  getDesugaredType (Storage C) p = Some D ->
  isExistentialSpelling (Storage C') (Some p) = isExistentialSpelling (Storage C) (Some p).
Proof.
  intros H. unfold isExistentialSpelling. by rewrite !(extends_is_defined _ _ _ H).
Qed.

Lemma extends_isExistentialKind T :
  isLive (Storage C) (Some T) = true ->
  isExistentialKind (Storage C) T -> isExistentialKind (Storage C') T.
Proof.
  intros HL. unfold isExistentialKind. by rewrite (extends_kindOf _ _ Hext).
Qed.

Lemma extends_resolvedCanonicalType T c :
  resolvedCanonicalType (Storage C) T = Some c ->
  resolvedCanonicalType (Storage C') T = Some c.
Proof.
  unfold resolvedCanonicalType. destruct (Storage C !! T) as [N|] eqn:E; [|discriminate].
  destruct Hext as (_ & S & _). destruct (S _ _ E) as (N' & -> & Ev).
  pose proof (nodeEvolves_fields _ _ Ev) as (_ & _ & _ & _ & ->).
  destruct (isCanonical N); [done|].
  destruct (CanonicalType N) as [[CT|]|] eqn:ECT; try discriminate.
  by rewrite (nodeEvolves_slot _ _ _ Ev ECT).
Qed.

Lemma extends_membersOK K members :
  forallb (isLive (Storage C)) (childrenOf members) = true ->
  membersOK (Decls C) (Storage C) K members ->
  membersOK (Decls C') (Storage C') K members.
Proof.
  intros HL. destruct Hext as (-> & _). destruct members; simpl; try done.
  simpl in HL. intros (HK & HE & HP). split; [done|split].
  - rewrite forallb_forall in HE |- *. intros T HT.
    apply extends_isExistentialSpelling_true. auto.
  - rewrite (extends_forallb_canonicalOf _ _ Hext) by done. intros HC.
    specialize (HP HC). rewrite Forall_forall in HP |- *. intros T HT.
    rewrite (extends_kindOf _ _ Hext); [auto|].
    rewrite forallb_forall in HL. apply HL. by apply list_elem_of_In.
Qed.

End Stability2.

(** ** Facts that follow from the invariant *)

Lemma canonicalOf_live Nodes T : canonicalOf Nodes T = true -> isLive Nodes T = true.
Proof. unfold canonicalOf, isLive. by destruct (derefType Nodes T). Qed.

Lemma resolvedCanonicalType_live Nodes T c :
  resolvedCanonicalType Nodes T = Some c -> isLive Nodes (Some T) = true.
Proof.
  unfold resolvedCanonicalType, isLive. simpl. by destruct (Nodes !! T).
Qed.

Lemma WF_node C p N : WF C -> Storage C !! p = Some N -> nodeOK (Decls C) (Storage C) p N.
Proof. intros (H & _). apply H. Qed.

Lemma nodeOK_children_live decls Nodes p N :
  nodeOK decls Nodes p N -> p <= length Nodes ->
  forallb (isLive Nodes) (childrenOf (Members N)) = true.
Proof.
  intros (_ & H & _) Hp. rewrite forallb_forall. intros T HT.
  rewrite Forall_forall in H. apply list_elem_of_In in HT.
  destruct (H _ HT) as (q & -> & Hq). apply isLive_lt. lia.
Qed.

Lemma WF_getDesugaredType_fuel C fuel p :
  WF C -> p < length (Storage C) -> p < fuel ->
  exists D, getDesugaredType_fuel fuel (Storage C) p = Some D.
Proof.
  intros HWF. revert p. induction fuel as [|fuel IH]; intros p Hp Hf; [lia|].
  simpl. apply lookup_lt_is_Some in Hp as [N HN]. rewrite HN.
  pose proof (WF_node _ _ _ HWF HN) as (_ & Hch & _).
  destruct (Members N) eqn:EM; eauto.
  simpl in Hch. apply Forall_cons in Hch as [(q & -> & Hq) _].
  apply IH; [|lia]. apply lookup_lt_Some in HN. lia.
Qed.

Lemma WF_getDesugaredType C p :
  WF C -> p < length (Storage C) -> exists D, getDesugaredType (Storage C) p = Some D.
Proof. intros. apply WF_getDesugaredType_fuel; auto. Qed.

Section Stability3.
Context (C C' : ASTContext) (Hext : extends C C') (HWF : WF C).

Lemma extends_slotOK p N :
  p < length (Storage C) -> slotOK (Storage C) p N -> slotOK (Storage C') p N.
Proof.
  intros Hp H CT HCT. destruct (H CT HCT) as (H1 & H2 & H3). repeat split.
  - rewrite (extends_canonicalOf _ _ Hext); auto using canonicalOf_live.
  - destruct (WF_getDesugaredType _ _ HWF Hp) as (D & HD).
    rewrite (extends_isExistentialSpelling_defined _ _ Hext _ _ HD).
    intros HE. apply (extends_isExistentialKind _ _ Hext); auto using canonicalOf_live.
  - intros U HU. destruct (H3 U HU) as (u & -> & Hu).
    eauto using extends_resolvedCanonicalType.
Qed.

Lemma extends_nodeOK_core p N :
  p <= length (Storage C) ->
  nodeOK (Decls C) (Storage C) p N ->
  slotOK (Storage C') p N ->
  nodeOK (Decls C') (Storage C') p N.
Proof.
  intros Hp HN HS. pose proof (nodeOK_children_live _ _ _ _ HN Hp) as HL.
  destruct HN as (H1 & H2 & H3 & H4 & _). unfold nodeOK. split_and!.
  - by apply (extends_membersOK _ _ Hext).
  - done.
  - by rewrite (extends_expectedProperties _ _ Hext).
  - by rewrite (extends_expectedCanonical _ _ Hext).
  - done.
Qed.

Lemma extends_nodeOK p N :
  p < length (Storage C) ->
  nodeOK (Decls C) (Storage C) p N -> nodeOK (Decls C') (Storage C') p N.
Proof.
  intros Hp HN. apply extends_nodeOK_core; [lia|done|].
  apply extends_slotOK; [done|]. by destruct HN as (_ & _ & _ & _ & ?).
Qed.

End Stability3.

Lemma slotOK_empty Nodes p N :
  (forall CT, CanonicalType N <> IsTypeBase (Some CT)) -> slotOK Nodes p N.
Proof. intros H CT HCT. by destruct (H CT). Qed.

Lemma nodeOK_fields decls Nodes p N N' :
  nodeOK decls Nodes p N ->
  Kind N' = Kind N -> Properties N' = Properties N -> Members N' = Members N ->
  isCanonical N' = isCanonical N ->
  slotOK Nodes p N' ->
  nodeOK decls Nodes p N'.
Proof.
  intros (H1 & H2 & H3 & H4 & _) EK EP EM EC HS.
  unfold nodeOK. rewrite EK, EP, EM, EC. done.
Qed.



(** ** The primitive updates of the context *)

Lemma allocate_extends C New T C' :
  allocate New C = Returns (T, C') ->
  T = length (Storage C) /\ Storage C' = Storage C ++ [New]
  /\ Decls C' = Decls C /\ Uniqued C' = Uniqued C
  /\ NextOpenedExistentialID C' = NextOpenedExistentialID C
  /\ OpenedExistentialArchetypes C' = OpenedExistentialArchetypes C
  /\ extends C C' /\ frozenFrom 0 C C'.
Proof.
  unfold allocate. intros [= <- <-]. simpl. split_and!; try done.
  - unfold extends. split_and!; simpl; try done.
    intros p N H. exists N. split; [by apply lookup_app_l_Some|apply nodeEvolves_refl].
  - intros p N _ H. simpl. by apply lookup_app_l_Some.
Qed.

Lemma allocate_WF C New T C' :
  WF C ->
  nodeOK (Decls C) (Storage C) (length (Storage C)) New ->
  (forall CT, CanonicalType New <> IsTypeBase (Some CT)) ->
  allocate New C = Returns (T, C') ->
  WF C' /\ Storage C' !! T = Some New.
Proof.
  intros HWF HN HS H.
  destruct (allocate_extends _ _ _ _ H) as (-> & ES & ED & EU & _ & EO & Hext & _).
  split.
  - destruct HWF as (W1 & W2 & W3). unfold WF. split_and!.
    + intros p N. rewrite ES at 1. intros [Hp|[Hp Hq]]%lookup_app_Some.
      * apply (extends_nodeOK _ _ Hext); [by split_and!| |by apply W1].
        by apply lookup_lt_Some in Hp.
      * destruct (p - length (Storage C)) as [|k] eqn:Ek; [|by destruct k].
        injection Hq as <-. assert (p = length (Storage C)) as -> by lia.
        apply (extends_nodeOK_core _ _ Hext); [lia|done|by apply slotOK_empty].
    + rewrite EU. intros key T HT. destruct (W2 _ _ HT) as (N & HN' & ?).
      exists N. split; [|done]. rewrite ES. by apply lookup_app_l_Some.
    + rewrite EO. intros ID T HT. specialize (W3 _ _ HT).
      rewrite ES, length_app. simpl. lia.
  - rewrite ES. by apply list_lookup_middle.
Qed.

Lemma insertNode_extends C key T u C' :
  Uniqued C !! key = None ->
  insertNode key T C = Returns (u, C') ->
  Storage C' = Storage C /\ Decls C' = Decls C
  /\ Uniqued C' = <[key := T]> (Uniqued C)
  /\ NextOpenedExistentialID C' = NextOpenedExistentialID C
  /\ OpenedExistentialArchetypes C' = OpenedExistentialArchetypes C
  /\ extends C C' /\ frozenFrom 0 C C'.
Proof.
  unfold insertNode. intros Hk [= <- <-]. simpl. split_and!; try done.
  - unfold extends. split_and!; simpl; eauto using nodeEvolves_refl.
    intros key' T' H. rewrite lookup_insert_ne; [done|]. congruence.
  - by intros p N _ H.
Qed.

Lemma WF_same_storage C C' :
  WF C -> Storage C' = Storage C -> Decls C' = Decls C ->
  (forall key T, Uniqued C' !! key = Some T ->
     exists N, Storage C !! T = Some N /\ uniquingKey N = key
               /\ isUniquedClass (Members N) = true) ->
  (forall ID T, OpenedExistentialArchetypes C' !! ID = Some T ->
     T < length (Storage C)) ->
  WF C'.
Proof.
  intros (W1 & _ & _) ES ED HU HO. unfold WF. rewrite ES, ED. done.
Qed.

Lemma insertNode_WF C key T N u C' :
  WF C ->
  Storage C !! T = Some N -> uniquingKey N = key -> isUniquedClass (Members N) = true ->
  Uniqued C !! key = None ->
  insertNode key T C = Returns (u, C') ->
  WF C'.
Proof.
  intros HWF HN HK HU Hk H.
  destruct (insertNode_extends _ _ _ _ _ Hk H) as (ES & ED & EU & _ & EO & _).
  apply (WF_same_storage C); try done.
  - rewrite EU. intros key' T'. destruct (decide (key = key')) as [<-|Hne].
    + rewrite lookup_insert_eq. intros [= <-]. eauto.
    + rewrite lookup_insert_ne by done. destruct HWF as (_ & W2 & _). apply W2.
  - rewrite EO. destruct HWF as (_ & _ & W3). apply W3.
Qed.

(** ** The interning step *)

Lemma TypeBase_ctor_fresh kind CanTypeCtx properties members :
  freshSlot (TypeBase_ctor kind CanTypeCtx properties members).
Proof. intros CT. unfold TypeBase_ctor. simpl. by destruct CanTypeCtx. Qed.

Lemma getOrCreate_miss New C T C' :
  Uniqued C !! uniquingKey New = None ->
  getOrCreate New C = Returns (T, C') ->
  exists C1, allocate New C = Returns (T, C1)
             /\ insertNode (uniquingKey New) T C1 = Returns (tt, C').
Proof.
  unfold getOrCreate. intros ->. unfold bind, allocate, insertNode, ret. simpl.
  intros [= <- <-]. eauto.
Qed.



Lemma getOrCreate_extends New C T C' :
  getOrCreate New C = Returns (T, C') ->
  extends C C' /\ frozenFrom 0 C C'
  /\ NextOpenedExistentialID C' = NextOpenedExistentialID C
  /\ OpenedExistentialArchetypes C' = OpenedExistentialArchetypes C.
Proof.
  destruct (Uniqued C !! uniquingKey New) eqn:E.
  - unfold getOrCreate. rewrite E.
    intros [= <- <-]. split_and!; auto using extends_refl, frozenFrom_refl.
  - intros (C1 & HA & HI)%getOrCreate_miss; [|done].
    destruct (allocate_extends _ _ _ _ HA) as (_ & _ & _ & EU & EN & EO & X1 & F1).
    rewrite <- EU in E.
    destruct (insertNode_extends _ _ _ _ _ E HI) as (_ & _ & _ & EN' & EO' & X2 & F2).
    split_and!; [eauto using extends_trans|eauto using frozenFrom_trans|congruence..].
Qed.

Lemma getOrCreate_WF C New T C' :
  WF C ->
  nodeOK (Decls C) (Storage C) (length (Storage C)) New ->
  freshSlot New ->
  isUniquedClass (Members New) = true ->
  getOrCreate New C = Returns (T, C') ->
  WF C'
  /\ exists N, Storage C' !! T = Some N /\ Kind N = Kind New
       /\ Members N = Members New /\ Properties N = Properties New
       /\ isCanonical N = isCanonical New.
Proof.
  intros HWF HN HS HU.
  destruct (Uniqued C !! uniquingKey New) as [T0|] eqn:E.
  - unfold getOrCreate. rewrite E.
    intros [= <- <-]. split; [done|].
    pose proof HWF as (W1 & W2 & _).
    destruct (W2 _ _ E) as (N & HTN & HK & HUN). exists N.
    apply uniquingKey_inv in HK as [HK HP].
    pose proof (W1 _ _ HTN) as (M1 & _ & P1 & C1 & _).
    pose proof HN as (M2 & _ & P2 & C2 & _).
    assert (Members N = Members New) as EM
      by (apply (Profile_inj (Decls C) (Storage C) (Storage C)); auto).
    split_and!; try done.
    + by rewrite P1, P2, EM.
    + by rewrite C1, C2, EM.
  - intros (C1 & HA & HI)%getOrCreate_miss; [|done].
    destruct (allocate_WF _ _ _ _ HWF HN HS HA) as (HWF1 & HT).
    destruct (allocate_extends _ _ _ _ HA) as (-> & _ & _ & EU & _).
    rewrite <- EU in E.
    split.
    + exact (insertNode_WF _ _ _ _ _ _ HWF1 HT eq_refl HU E HI).
    + destruct (insertNode_extends _ _ _ _ _ E HI) as (-> & _).
      exists New. by split_and!.
Qed.

(** ** Filling a slot *)

Lemma setCanonicalType_extends C T N c u C' :
  Storage C !! T = Some N ->
  CanonicalType N = IsTypeBase None ->
  setCanonicalType T c C = Returns (u, C') ->
  Storage C' = <[T := fillSlot N c]> (Storage C)
  /\ Decls C' = Decls C /\ Uniqued C' = Uniqued C
  /\ NextOpenedExistentialID C' = NextOpenedExistentialID C
  /\ OpenedExistentialArchetypes C' = OpenedExistentialArchetypes C
  /\ extends C C' /\ frozenFrom (S T) C C'
  /\ resolvedCanonicalType (Storage C') T = Some c.
Proof.
  intros HN HS. unfold setCanonicalType. rewrite HN. intros [= <- <-]. simpl.
  assert (T < length (Storage C)) as HT by by apply lookup_lt_Some in HN.
  split_and!; try done.
  - unfold extends. split_and!; simpl; try done.
    intros p N' H. destruct (decide (p = T)) as [->|Hne].
    + rewrite list_lookup_insert_eq by done. exists (fillSlot N c).
      split; [done|]. right. rewrite HN in H. injection H as <-. eauto.
    + rewrite list_lookup_insert_ne by done. eauto using nodeEvolves_refl.
  - intros p N' Hp H. simpl. rewrite list_lookup_insert_ne by lia. done.
  - unfold resolvedCanonicalType. by rewrite list_lookup_insert_eq.
Qed.

Lemma setCanonicalType_WF C T N c u C' :
  WF C ->
  Storage C !! T = Some N ->
  CanonicalType N = IsTypeBase None ->
  canonicalOf (Storage C) (Some c) = true ->
  (isExistentialSpelling (Storage C) (Some T) = true -> isExistentialKind (Storage C) c) ->
  (forall U, Members N = ParenType_ U ->
     exists q, U = Some q /\ resolvedCanonicalType (Storage C) q = Some c) ->
  setCanonicalType T c C = Returns (u, C') ->
  WF C'.
Proof.
  intros HWF HN HS Hc He Hp H.
  destruct (setCanonicalType_extends _ _ _ _ _ _ HN HS H)
    as (ES & ED & EU & _ & EO & Hext & _ & _).
  assert (T < length (Storage C)) as HT by by apply lookup_lt_Some in HN.
  pose proof HWF as (W1 & W2 & W3). unfold WF. split_and!.
  - intros p N'. rewrite ES at 1. destruct (decide (p = T)) as [->|Hne].
    + rewrite list_lookup_insert_eq by done. intros [= <-].
      apply (nodeOK_fields _ _ _ N); try done.
      * apply (extends_nodeOK _ _ Hext); auto.
      * unfold isCanonical. simpl. by rewrite HS.
      * intros CT [= <-]. split_and!.
        -- rewrite (extends_canonicalOf _ _ Hext); auto using canonicalOf_live.
        -- destruct (WF_getDesugaredType _ _ HWF HT) as (D & HD).
           rewrite (extends_isExistentialSpelling_defined _ _ Hext _ _ HD).
           intros HE. apply (extends_isExistentialKind _ _ Hext); auto using canonicalOf_live.
        -- simpl. intros U HU. destruct (Hp U HU) as (q & -> & Hq).
           eauto using extends_resolvedCanonicalType.
    + rewrite list_lookup_insert_ne by done. intros Hp'.
      apply (extends_nodeOK _ _ Hext); auto. by apply lookup_lt_Some in Hp'.
  - rewrite EU. intros key T' HT'. destruct (W2 _ _ HT') as (N' & HN' & HK & HU).
    destruct Hext as (_ & S & _). destruct (S _ _ HN') as (N'' & HN'' & Ev).
    exists N''. split_and!; [done| |].
    + rewrite <- HK. by apply nodeEvolves_uniquingKey.
    + by apply nodeEvolves_fields in Ev as (_ & _ & _ & -> & _).
  - rewrite EO, ES, length_insert. apply W3.
Qed.



(** ** The factories keep the invariant *)

Lemma forallb_isLive_Forall Nodes Ts :
  forallb (isLive Nodes) Ts = true ->
  Forall (fun T => exists q, T = Some q /\ q < length Nodes) Ts.
Proof.
  rewrite forallb_forall, Forall_forall. intros H T HT%list_elem_of_In.
  apply H in HT. apply isLive_Some in HT as (p & N & -> & HN).
  exists p. split; [done|]. by apply lookup_lt_Some in HN.
Qed.

Lemma isCanonical_ctor kind can props members :
  isCanonical (TypeBase_ctor kind can props members) = can.
Proof. by destruct can. Qed.

Lemma ctor_nodeOK decls Nodes kind can props members :
  membersOK decls Nodes kind members ->
  forallb (isLive Nodes) (childrenOf members) = true ->
  props = expectedProperties Nodes members ->
  can = expectedCanonical Nodes members ->
  nodeOK decls Nodes (length Nodes) (TypeBase_ctor kind can props members).
Proof.
  intros HM HL -> ->. unfold nodeOK. split_and!; simpl; try done.
  - by apply forallb_isLive_Forall.
  - apply isCanonical_ctor.
  - apply slotOK_empty, TypeBase_ctor_fresh.
Qed.

Lemma getOrCreate_returns New C : exists T C', getOrCreate New C = Returns (T, C').
Proof.
  unfold getOrCreate. destruct (Uniqued C !! uniquingKey New); [by eauto|].
  unfold bind, allocate, insertNode, ret. eauto.
Qed.

Lemma getOrCreate_Post C New T C' :
  WF C ->
  nodeOK (Decls C) (Storage C) (length (Storage C)) New ->
  freshSlot New ->
  isUniquedClass (Members New) = true ->
  getOrCreate New C = Returns (T, C') ->
  Post C T C'
  /\ nodeIs C' T (Kind New) (Members New) (isCanonical New)
       (RTP.mk (Properties New)).
Proof.
  intros HWF HN HS HU H.
  destruct (getOrCreate_WF _ _ _ _ HWF HN HS HU H) as (HWF' & N & HT & HK & HM & HP & HC).
  destruct (getOrCreate_extends _ _ _ _ H) as (Hext & Hfr & EN & EO).
  split.
  - unfold Post. split_and!; try done. by apply lookup_lt_Some in HT.
  - exists N. split_and!; try done. simpl. rewrite HP.
    destruct HN as (_ & _ & -> & _). by rewrite toBitField_idem.
Qed.

Lemma getOrCreate_ctor C kind can props members T C' :
  WF C ->
  membersOK (Decls C) (Storage C) kind members ->
  forallb (isLive (Storage C)) (childrenOf members) = true ->
  props = expectedProperties (Storage C) members ->
  can = expectedCanonical (Storage C) members ->
  isUniquedClass members = true ->
  getOrCreate (TypeBase_ctor kind can props members) C = Returns (T, C') ->
  Post C T C' /\ nodeIs C' T kind members can props.
Proof.
  intros HWF HM HL Hp Hc HU H.
  pose proof (ctor_nodeOK _ _ _ _ _ _ HM HL Hp Hc) as HN.
  destruct (getOrCreate_Post _ _ _ _ HWF HN (TypeBase_ctor_fresh _ _ _ _) HU H)
    as (HP & N & HT & HK & HMem & HC & HPr).
  split; [done|]. exists N. rewrite isCanonical_ctor in HC. simpl in *.
  split_and!; try done. by rewrite HPr, !toBitField_idem.
Qed.

Lemma BuiltinIntegerType_get_WF C BitWidth T C' :
  WF C -> BuiltinIntegerType_get BitWidth C = Returns (T, C') ->
  Post C T C' /\ nodeIs C' T BuiltinInteger (BuiltinIntegerType_ BitWidth) true RTP.empty.
Proof. intros HWF H. by eapply getOrCreate_ctor. Qed.

Lemma BuiltinVectorType_get_WF C elementType numElements T C' :
  WF C -> BuiltinVectorType_get elementType numElements C = Returns (T, C') ->
  Post C T C'
  /\ nodeIs C' T BuiltinVector (BuiltinVectorType_ elementType numElements) true RTP.empty.
Proof.
  intros HWF H. unfold BuiltinVectorType_get in H. inv_M.
  eapply getOrCreate_ctor; eauto; done.
Qed.

Lemma ParenType_get_WF C underlying T C' :
  WF C -> ParenType_get underlying C = Returns (T, C') ->
  Post C T C'
  /\ nodeIs C' T Paren (ParenType_ underlying) false (propertiesOf (Storage C) underlying)
  /\ isLive (Storage C) underlying = true.
Proof.
  intros HWF H. unfold ParenType_get in H. inv_M.
  match goal with H : getOrCreate _ _ = Returns _ |- _ =>
    eapply getOrCreate_ctor in H as [HP HN]; eauto; try done end.
  split_and!; try done.
  match goal with H : forallb _ _ = true |- _ =>
    simpl in H; by apply andb_true_iff in H as [? _] end.
Qed.

Lemma TupleType_getUniqued_WF C Fields T C' :
  WF C -> isParenthesized Fields = false ->
  TupleType_getUniqued Fields C = Returns (T, C') ->
  Post C T C'
  /\ nodeIs C' T Tuple (TupleType_ Fields)
       (forallb (fun Elt => canonicalOf (Storage C) (getType Elt)) Fields)
       (TupleType_properties (Storage C) Fields).
Proof.
  intros HWF HP H. unfold TupleType_getUniqued in H. inv_M.
  eapply getOrCreate_ctor; eauto; done.
Qed.

Lemma TupleType_get_unfold Fields :
  TupleType_get Fields =
  if isParenthesized Fields
  then ParenType_get (match Fields with Elt :: _ => getType Elt | [] => None end)
  else TupleType_getUniqued Fields.
Proof.
  destruct Fields as [|Elt [|Elt' Fields]]; simpl; try done.
Qed.

Lemma ProtocolType_get_WF C D T C' :
  WF C -> ProtocolType_get D C = Returns (T, C') ->
  Post C T C' /\ nodeIs C' T Protocol (NominalType_ D None) true RTP.empty.
Proof.
  intros HWF H. unfold ProtocolType_get in H. inv_M.
  eapply (getOrCreate_ctor _ Protocol true RTP.empty (NominalType_ D None)); eauto.
  simpl. by left.
Qed.

Lemma NominalType_get_WF C D Parent T C' :
  WF C -> NominalType_get D Parent C = Returns (T, C') ->
  Post C T C'
  /\ nodeIs C' T (NominalTypeKind (declKind (Decls C) D)) (NominalType_ D Parent)
       (match Parent with None => true | Some _ => canonicalOf (Storage C) Parent end)
       (propertiesOf (Storage C) Parent).
Proof.
  intros HWF H. unfold NominalType_get in H. inv_M.
  match goal with H : _ = Returns (T, C') |- _ => rename H into HG end.
  assert (declKind (Decls C) D = ProtocolDeclKind -> Parent = None) as HPar.
  { intros E. rewrite E in HG. by destruct Parent. }
  assert (getOrCreate
            (NominalType_ctor (Storage C) (NominalTypeKind (declKind (Decls C) D)) true D
               Parent (propertiesOf (Storage C) Parent)) C = Returns (T, C')) as HG'.
  { by destruct (declKind (Decls C) D), Parent. }
  clear HG. unfold NominalType_ctor in HG'.
  set (can := match Parent with None => true | Some _ => canonicalOf (Storage C) Parent end) in *.
  replace (if can then true else false) with can in HG' by by destruct can.
  eapply getOrCreate_ctor; eauto; try done.
  simpl. destruct (declKind (Decls C) D) eqn:E; simpl; auto.
Qed.

Lemma BoundGenericType_get_WF C TheDecl Parent GenericArgs T C' :
  WF C -> BoundGenericType_get TheDecl Parent GenericArgs C = Returns (T, C') ->
  exists theKind, BoundGenericKind (declKind (Decls C) TheDecl) = Some theKind
  /\ Post C T C'
  /\ nodeIs C' T theKind (BoundGenericType_ TheDecl Parent GenericArgs)
       (BoundGenericType_isCanonical (Storage C) Parent GenericArgs)
       (BoundGenericType_properties (Storage C) Parent GenericArgs).
Proof.
  intros HWF H. unfold BoundGenericType_get in H. inv_M.
  destruct (BoundGenericKind (declKind (Decls C) TheDecl)) as [theKind|] eqn:E; [|done].
  exists theKind. split; [done|].
  eapply getOrCreate_ctor; eauto; done.
Qed.

Lemma set_Representation_nodeOK decls Nodes p N v :
  nodeOK decls Nodes p N ->
  nodeOK decls Nodes p (set_AnyMetatypeTypeBits_Representation N v).
Proof. done. Qed.

Lemma isCanonical_AnyMetatypeType_ctor kind can props T Repr :
  isCanonical (AnyMetatypeType_ctor kind can props T Repr) = can.
Proof. by destruct can. Qed.

Lemma AnyMetatypeType_get_WF C kind T Repr T' C' :
  WF C -> kind = Metatype \/ kind = ExistentialMetatype ->
  isLive (Storage C) T = true ->
  getOrCreate
    (AnyMetatypeType_ctor kind (canonicalOf (Storage C) T) (propertiesOf (Storage C) T) T Repr)
    C = Returns (T', C') ->
  Post C T' C'
  /\ nodeIs C' T' kind (AnyMetatypeType_ T) (canonicalOf (Storage C) T)
       (propertiesOf (Storage C) T).
Proof.
  intros HWF HK HL H.
  apply getOrCreate_Post in H; try done.
  - destruct H as (HP & N & HT & HKd & HM & HC & HPr). split; [done|].
    exists N. rewrite isCanonical_AnyMetatypeType_ctor in HC.
    split_and!; try done. rewrite HPr. simpl. by rewrite !toBitField_idem.
  - unfold AnyMetatypeType_ctor.
    apply set_Representation_nodeOK, ctor_nodeOK; try done.
    simpl. by rewrite HL.
  - intros CT. simpl. by destruct (canonicalOf (Storage C) T).
Qed.

Lemma MetatypeType_get_WF C T Repr T' C' :
  WF C -> MetatypeType_get T Repr C = Returns (T', C') ->
  Post C T' C'
  /\ nodeIs C' T' Metatype (AnyMetatypeType_ T) (canonicalOf (Storage C) T)
       (propertiesOf (Storage C) T).
Proof.
  intros HWF H. unfold MetatypeType_get in H. inv_M.
  eapply AnyMetatypeType_get_WF; eauto.
  match goal with H : forallb _ _ = true |- _ =>
    simpl in H; by apply andb_true_iff in H as [? _] end.
Qed.

Lemma ExistentialMetatypeType_get_WF C T Repr T' C' :
  WF C -> ExistentialMetatypeType_get T Repr C = Returns (T', C') ->
  Post C T' C'
  /\ nodeIs C' T' ExistentialMetatype (AnyMetatypeType_ T) (canonicalOf (Storage C) T)
       (propertiesOf (Storage C) T).
Proof.
  intros HWF H. unfold ExistentialMetatypeType_get in H. inv_M.
  eapply AnyMetatypeType_get_WF; eauto.
  match goal with H : forallb _ _ = true |- _ =>
    simpl in H; by apply andb_true_iff in H as [? _] end.
Qed.

Lemma GenericTypeParamType_get_WF C depth index T C' :
  WF C -> GenericTypeParamType_get depth index C = Returns (T, C') ->
  Post C T C'
  /\ nodeIs C' T GenericTypeParam
       (GenericTypeParamType_ (IsDepthIndex (Z.lor (toUnsigned (Z.shiftl depth 16)) index)))
       true (RTP.ofProperty RTP.IsDependent).
Proof. intros HWF H. by eapply getOrCreate_ctor. Qed.

Lemma DependentMemberType_get_WF C base name T C' :
  WF C -> DependentMemberType_get base name C = Returns (T, C') ->
  Post C T C'
  /\ nodeIs C' T DependentMember (DependentMemberType_ base name)
       (canonicalOf (Storage C) base) (propertiesOf (Storage C) base).
Proof.
  intros HWF H. unfold DependentMemberType_get in H. inv_M.
  eapply getOrCreate_ctor; eauto; done.
Qed.



(** ** Steps of a computation *)

Lemma Step_refl b C : WF C -> Step b C C.
Proof. intros H. unfold Step. split_and!; auto using extends_refl, frozenFrom_refl. Qed.

Lemma Step_trans b C1 C2 C3 : Step b C1 C2 -> Step b C2 C3 -> Step b C1 C3.
Proof.
  intros (_ & E1 & F1 & N1 & O1) (W2 & E2 & F2 & N2 & O2). unfold Step.
  split_and!; eauto using extends_trans, frozenFrom_trans; congruence.
Qed.

Lemma Step_mono b b' C C' : b <= b' -> Step b C C' -> Step b' C C'.
Proof.
  intros Hb (W & E & F & N & O). unfold Step. split_and!; eauto using frozenFrom_mono.
Qed.

Lemma Post_Step C T C' : Post C T C' -> Step 0 C C'.
Proof. intros (W & E & F & N & O & _). by unfold Step. Qed.

Lemma Step_WF b C C' : Step b C C' -> WF C'.
Proof. by intros (? & _). Qed.

Lemma Step_extends b C C' : Step b C C' -> extends C C'.
Proof. by intros (_ & ? & _). Qed.

Lemma Step_node b C C' p N :
  Step b C C' -> b <= p -> Storage C !! p = Some N -> Storage C' !! p = Some N.
Proof. intros (_ & _ & F & _) Hp H. by apply F. Qed.

(** A loop over a list, each round of which is a step. *)
Lemma mapM_Step {A B} (b : nat) (F : A -> M B) (R : ASTContext -> A -> B -> Prop)
    (l : list A) (C0 : ASTContext) :
  (forall x, x ∈ l -> forall C1, WF C1 -> extends C0 C1 ->
     exists y C2, F x C1 = Returns (y, C2) /\ Step b C1 C2 /\ R C2 x y) ->
  (forall x y C1 C2, extends C1 C2 -> R C1 x y -> R C2 x y) ->
  forall C1, WF C1 -> extends C0 C1 ->
    exists ys C2, mapM F l C1 = Returns (ys, C2) /\ Step b C1 C2 /\ Forall2 (R C2) l ys.
Proof.
  intros HF HR. induction l as [|x l IH]; intros C1 HWF Hext.
  - exists [], C1. split_and!; [done|by apply Step_refl|constructor].
  - destruct (HF x ltac:(by left) C1 HWF Hext) as (y & C2 & Hy & HS & HRy).
    destruct IH with (C1 := C2) as (ys & C3 & Hys & HS' & HRys).
    + intros x' Hx'. apply HF. by right.
    + by apply Step_WF in HS.
    + eauto using extends_trans, Step_extends.
    + exists (y :: ys), C3. split_and!.
      * simpl. unfold bind. rewrite Hy, Hys. done.
      * eauto using Step_trans.
      * constructor; [|done]. eauto using Step_extends.
Qed.

(** ** Reading kinds off a well-formed node *)

Lemma WF_Protocol_members C T N :
  WF C -> Storage C !! T = Some N -> Kind N = Protocol ->
  exists D, Members N = NominalType_ D None /\ isCanonical N = true.
Proof.
  intros HWF HN HK. destruct (WF_node _ _ _ HWF HN) as (HM & _ & _ & HC & _).
  rewrite HK in HM. rewrite HC.
  destruct (Members N) as [| | | | | D P | D P A | | | | [|] | |]; simpl in HM |- *;
    try (destruct (declKind (Decls C) D)); simpl in HM; try intuition congruence.
  all: destruct HM as [[_ ->]|[_ ?]]; [eauto|done].
Qed.

Lemma WF_ProtocolComposition_members C T N :
  WF C -> Storage C !! T = Some N -> Kind N = ProtocolComposition ->
  exists Ps, Members N = ProtocolCompositionType_ Ps.
Proof.
  intros HWF HN HK. destruct (WF_node _ _ _ HWF HN) as (HM & _).
  rewrite HK in HM.
  destruct (Members N) as [| | | | | D P | D P A | | | | [|] | |]; simpl in HM |- *;
    try (destruct (declKind (Decls C) D)); simpl in HM; try intuition congruence.
  eauto.
Qed.

Lemma WF_canonical_not_Paren C T N U :
  WF C -> Storage C !! T = Some N -> Members N = ParenType_ U -> isCanonical N = false.
Proof.
  intros HWF HN HM. destruct (WF_node _ _ _ HWF HN) as (_ & _ & _ & HC & _).
  by rewrite HC, HM.
Qed.

Lemma getDesugaredType_self Nodes T N :
  Nodes !! T = Some N -> (forall U, Members N <> ParenType_ U) ->
  getDesugaredType Nodes T = Some T.
Proof.
  intros HN HM. unfold getDesugaredType. simpl. rewrite HN.
  destruct (Members N) eqn:E; try done. by destruct (HM UnderlyingType).
Qed.

Lemma isExistentialSpelling_self Nodes T N :
  Nodes !! T = Some N -> (forall U, Members N <> ParenType_ U) ->
  isExistentialSpelling Nodes (Some T) = true ->
  isExistentialKind Nodes T.
Proof.
  intros HN HM. unfold isExistentialSpelling, is_.
  rewrite (getDesugaredType_self _ _ _ HN HM). unfold isExistentialKind.
  intros [H|H]%orb_true_iff; apply bool_decide_eq_true in H; auto.
Qed.

Lemma isExistentialKind_spelling C T :
  WF C -> isExistentialKind (Storage C) T -> isExistentialSpelling (Storage C) (Some T) = true.
Proof.
  intros HWF HK. unfold isExistentialKind, kindOf in HK. simpl in HK.
  destruct (Storage C !! T) as [N|] eqn:HN; [|by destruct HK].
  assert (forall U, Members N <> ParenType_ U) as HM.
  { intros U HU. destruct (WF_node _ _ _ HWF HN) as (HM & _).
    rewrite HU in HM. simpl in HM. destruct HK as [[= HK]|[= HK]]; congruence. }
  unfold isExistentialSpelling, is_. rewrite (getDesugaredType_self _ _ _ HN HM).
  unfold kindOf. simpl. rewrite HN. apply orb_true_iff.
  destruct HK as [HK|HK]; [left|right]; by apply bool_decide_eq_true.
Qed.

Lemma WF_canonical_existential C T :
  WF C -> canonicalOf (Storage C) (Some T) = true ->
  isExistentialSpelling (Storage C) (Some T) = true ->
  isExistentialKind (Storage C) T.
Proof.
  intros HWF HC HE. unfold canonicalOf in HC. simpl in HC.
  destruct (Storage C !! T) as [N|] eqn:HN; [|done].
  apply (isExistentialSpelling_self _ _ _ HN); [|done].
  intros U HU. rewrite (WF_canonical_not_Paren _ _ _ _ HWF HN HU) in HC. done.
Qed.

(** ** Protocol compositions *)

Lemma addProtocols_returns C Ts :
  WF C ->
  Forall (fun T => exists p, T = Some p /\ canonicalOf (Storage C) T = true
                             /\ isExistentialKind (Storage C) p) Ts ->
  exists Ds, addProtocols (Storage C) Ts = Returns Ds.
Proof.
  intros HWF. induction 1 as [|T Ts (p & -> & HC & HK) _ (Ds & IH)]; simpl; [eauto|].
  unfold canonicalOf in HC. simpl in HC.
  destruct (Storage C !! p) as [N|] eqn:HN; [|done].
  rewrite IH. unfold isExistentialKind, kindOf in HK. simpl in HK. rewrite HN in HK.
  unfold CanType_getAnyExistentialTypeProtocols.
  destruct HK as [[= HK]|[= HK]]; rewrite HK.
  - destruct (WF_Protocol_members _ _ _ HWF HN HK) as (D & -> & _). simpl. eauto.
  - destruct (WF_ProtocolComposition_members _ _ _ HWF HN HK) as (Ps & HM). rewrite HM.
    destruct (WF_node _ _ _ HWF HN) as (HMOK & _ & _ & HCan & _).
    rewrite HM in HMOK, HCan. simpl in HMOK, HCan.
    destruct HMOK as (_ & _ & HP). rewrite HC in HCan. specialize (HP (eq_sym HCan)).
    assert (exists Ds', CanProtocolCompositionType_getProtocolDecls (Storage C) Ps
                        = Returns Ds') as (Ds' & ->); [|simpl; eauto].
    clear -HP HWF. induction HP as [|P Ps HP _ (Ds' & IH)]; simpl; [eauto|].
    unfold kindOf in HP. destruct (derefType (Storage C) P) as [NP|] eqn:E; [|done].
    injection HP as HP. destruct P as [q|]; [|done]. simpl in E.
    destruct (WF_Protocol_members _ _ _ HWF E HP) as (D & HM & _).
    unfold ProtocolType_getDecl. rewrite HP, HM. simpl. rewrite IH. simpl. eauto.
Qed.

Lemma nodeIs_kindOf C T kind members can props :
  nodeIs C T kind members can props ->
  kindOf (Storage C) (Some T) = Some kind /\ canonicalOf (Storage C) (Some T) = can.
Proof.
  intros (N & HN & HK & _ & HC & _). unfold kindOf, canonicalOf. simpl.
  rewrite HN. by rewrite HK, HC.
Qed.

Lemma extends_isProtocolNode C C' T :
  extends C C' -> isProtocolNode C T -> isProtocolNode C' T.
Proof.
  intros Hext [HK HC]. pose proof (canonicalOf_live _ _ HC) as HL. split.
  - by rewrite (extends_kindOf _ _ Hext).
  - by rewrite (extends_canonicalOf _ _ Hext).
Qed.

Lemma mapM_ProtocolType_get C Ds :
  WF C ->
  exists Ts C', mapM ProtocolType_get Ds C = Returns (Ts, C') /\ Step 0 C C'
                /\ Forall (isProtocolNode C') Ts.
Proof.
  intros HWF.
  destruct (mapM_Step 0 ProtocolType_get (fun C' _ T => isProtocolNode C' T) Ds C)
    with (C1 := C) as (Ts & C' & H & HS & HR); auto using extends_refl.
  - intros D _ C1 HWF1 _.
    destruct (getOrCreate_returns (ProtocolType_ctor (Storage C1) D) C1) as (T & C2 & HG).
    assert (ProtocolType_get D C1 = Returns (T, C2)) as HG' by done.
    exists T, C2. split; [done|].
    destruct (ProtocolType_get_WF _ _ _ _ HWF1 HG') as (HP & HN).
    split; [by eapply Post_Step|]. by apply nodeIs_kindOf in HN.
  - intros _ T C1 C2. apply extends_isProtocolNode.
  - exists Ts, C'. split_and!; try done.
    clear -HR. induction HR; constructor; auto.
Qed.

Lemma isProtocolNode_spelling C T :
  WF C -> isProtocolNode C T -> isExistentialSpelling (Storage C) (Some T) = true.
Proof. intros HWF [HK _]. apply isExistentialKind_spelling; [done|by left]. Qed.

Lemma ProtocolCompositionType_build_WF C Protocols T C' :
  WF C ->
  forallb (isExistentialSpelling (Storage C)) Protocols = true ->
  (forallb (canonicalOf (Storage C)) Protocols = true ->
   Forall (fun P => kindOf (Storage C) P = Some Protocol) Protocols) ->
  ProtocolCompositionType_build Protocols C = Returns (T, C') ->
  Post C T C'
  /\ nodeIs C' T ProtocolComposition (ProtocolCompositionType_ Protocols)
       (forallb (canonicalOf (Storage C)) Protocols) RTP.empty.
Proof.
  intros HWF HE HP H. unfold ProtocolCompositionType_build in H. inv_M.
  eapply getOrCreate_ctor; eauto; done.
Qed.

Lemma ProtocolCompositionType_build_returns C Protocols :
  forallb (isLive (Storage C)) Protocols = true ->
  exists T C', ProtocolCompositionType_build Protocols C = Returns (T, C').
Proof.
  intros HL. unfold ProtocolCompositionType_build, bind, requireLive, getStorage.
  rewrite HL. apply getOrCreate_returns.
Qed.

Lemma Post_trans_Step C1 C2 T C3 : Step 0 C1 C2 -> Post C2 T C3 -> Post C1 T C3.
Proof.
  intros (_ & E' & F' & N' & O') (W & E & F & N & O & L).
  unfold Post. split_and!; eauto using extends_trans, frozenFrom_trans; congruence.
Qed.

Lemma ProtocolCompositionType_canonical_WF C Canon T C' :
  WF C ->
  (let* CanProtocolTypes := mapM ProtocolType_get Canon in
   ProtocolCompositionType_build (map Some CanProtocolTypes)) C = Returns (T, C') ->
  Post C T C'
  /\ isExistentialKind (Storage C') T
  /\ canonicalOf (Storage C') (Some T) = true.
Proof.
  intros HWF H. apply bind_Returns in H as (Ts & C1 & HM & HB).
  destruct (mapM_ProtocolType_get C Canon HWF) as (Ts' & C1' & HM' & HS & HF).
  rewrite HM in HM'. injection HM' as <- <-.
  assert (forallb (canonicalOf (Storage C1)) (map Some Ts) = true) as HCan1.
  { apply forallb_forall. intros U (q & <- & Hq)%in_map_iff.
    apply list_elem_of_In in Hq. rewrite Forall_forall in HF. by apply HF. }
  apply ProtocolCompositionType_build_WF in HB as (HP & HN).
  - apply nodeIs_kindOf in HN as [HK HCan]. rewrite HCan1 in HCan.
    split_and!; [|by right|done]. eauto using Post_trans_Step.
  - by apply Step_WF in HS.
  - apply forallb_forall. intros U (q & <- & Hq)%in_map_iff.
    apply list_elem_of_In in Hq. rewrite Forall_forall in HF.
    apply isProtocolNode_spelling; [by apply Step_WF in HS|by apply HF].
  - intros _. apply Forall_forall. intros U (q & <- & Hq)%list_elem_of_In%in_map_iff.
    apply list_elem_of_In in Hq. rewrite Forall_forall in HF. by apply HF.
Qed.

(** What [ProtocolCompositionType::get] returns: an existential type, which
    is canonical when the protocols given are. *)
Lemma ProtocolCompositionType_get_WF C Protocols T C' :
  WF C -> ProtocolCompositionType_get Protocols C = Returns (T, C') ->
  Post C T C'
  /\ isExistentialKind (Storage C') T
  /\ (forallb (canonicalOf (Storage C)) Protocols = true ->
      canonicalOf (Storage C') (Some T) = true).
Proof.
  intros HWF H. unfold ProtocolCompositionType_get in H.
  apply bind_Returns in H as (? & ? & (HL & [= -> ->])%requireLive_Returns & H).
  apply bind_Returns in H as (? & ? & [= <- <-] & H).
  apply bind_Returns in H as (? & ? & (? & HE%Assert_Returns & [= -> ->])%lift_Returns & H).
  destruct (forallb (canonicalOf (Storage C)) Protocols) eqn:HC.
  - apply bind_Returns in H as (? & ? & [= <- <-] & H).
    apply bind_Returns in H as (? & ? & (Ds & HDs & [= -> ->])%lift_Returns & H).
    destruct (canonicalizeProtocols (Decls C) Ds) as [|D [|D' Canon]] eqn:ECan.
    + apply ProtocolCompositionType_canonical_WF in H; [|done].
      destruct H as (? & ? & ?). done.
    + destruct (ProtocolType_get_WF _ _ _ _ HWF H) as (HP & HN).
      apply nodeIs_kindOf in HN as [HK HCan]. split_and!; [done|by left|done].
    + apply ProtocolCompositionType_canonical_WF in H; [|done].
      destruct H as (? & ? & ?). done.
  - apply ProtocolCompositionType_build_WF in H as (HP & HN); try done.
    + apply nodeIs_kindOf in HN as [HK HCan]. split_and!; [done|by right|done].
    + by rewrite HC.
Qed.

Lemma ProtocolCompositionType_get_returns C Protocols :
  WF C ->
  Forall (fun T => exists p, T = Some p /\ canonicalOf (Storage C) T = true
                             /\ isExistentialKind (Storage C) p) Protocols ->
  exists T C', ProtocolCompositionType_get Protocols C = Returns (T, C').
Proof.
  intros HWF HF.
  assert (forallb (isLive (Storage C)) Protocols = true) as HL.
  { apply forallb_forall. intros T HT%list_elem_of_In.
    rewrite Forall_forall in HF. destruct (HF _ HT) as (p & -> & HC & _).
    by apply canonicalOf_live. }
  assert (forallb (isExistentialSpelling (Storage C)) Protocols = true) as HE.
  { apply forallb_forall. intros T HT%list_elem_of_In.
    rewrite Forall_forall in HF. destruct (HF _ HT) as (p & -> & _ & HK).
    by apply isExistentialKind_spelling. }
  assert (forallb (canonicalOf (Storage C)) Protocols = true) as HC.
  { apply forallb_forall. intros T HT%list_elem_of_In.
    rewrite Forall_forall in HF. by destruct (HF _ HT) as (p & -> & HC & _). }
  destruct (addProtocols_returns _ _ HWF HF) as (Ds & HDs).
  assert (ProtocolCompositionType_get Protocols C =
          match canonicalizeProtocols (Decls C) Ds with
          | [D] => ProtocolType_get D
          | Canon =>
              let* CanProtocolTypes := mapM ProtocolType_get Canon in
              ProtocolCompositionType_build (map Some CanProtocolTypes)
          end C) as ->.
  { unfold ProtocolCompositionType_get, bind, requireLive, getStorage, getDecls, lift.
    rewrite HL, HE. simpl. by rewrite HC, HDs. }
  assert (forall Canon, exists T C',
    (let* CanProtocolTypes := mapM ProtocolType_get Canon in
     ProtocolCompositionType_build (map Some CanProtocolTypes)) C = Returns (T, C')) as HB.
  { intros Canon.
    destruct (mapM_ProtocolType_get C Canon HWF) as (Ts & C1 & HM & HS & HFP).
    destruct (ProtocolCompositionType_build_returns C1 (map Some Ts)) as (T & C' & HT).
    - apply forallb_forall. intros U (q & <- & Hq)%in_map_iff.
      apply list_elem_of_In in Hq. rewrite Forall_forall in HFP.
      destruct (HFP _ Hq) as [_ HCq]. by apply canonicalOf_live.
    - exists T, C'. apply bind_Returns. eauto. }
  destruct (canonicalizeProtocols (Decls C) Ds) as [|D [|D' Canon]] eqn:ECan.
  - apply HB.
  - apply getOrCreate_returns.
  - apply HB.
Qed.



(** ** When the factories return *)

Lemma TupleType_getUniqued_returns C Fields :
  forallb (isLive (Storage C)) (map getType Fields) = true ->
  exists T C', TupleType_getUniqued Fields C = Returns (T, C').
Proof.
  intros HL. unfold TupleType_getUniqued, bind, requireLive, getStorage.
  rewrite HL. apply getOrCreate_returns.
Qed.

Lemma ParenType_get_returns C underlying :
  isLive (Storage C) underlying = true ->
  exists T C', ParenType_get underlying C = Returns (T, C').
Proof.
  intros HL. unfold ParenType_get, bind, requireLive, getStorage. simpl.
  rewrite HL. apply getOrCreate_returns.
Qed.

Lemma TupleType_get_returns C Fields :
  forallb (isLive (Storage C)) (map getType Fields) = true ->
  exists T C', TupleType_get Fields C = Returns (T, C').
Proof.
  intros HL. rewrite TupleType_get_unfold. destruct (isParenthesized Fields) eqn:E.
  - destruct Fields as [|Elt Fields]; [done|]. simpl in HL.
    apply andb_true_iff in HL as [HL _]. by apply ParenType_get_returns.
  - by apply TupleType_getUniqued_returns.
Qed.

Lemma NominalType_get_returns C D p :
  isLive (Storage C) (Some p) = true -> declKind (Decls C) D <> ProtocolDeclKind ->
  exists T C', NominalType_get D (Some p) C = Returns (T, C').
Proof.
  intros HL HK. unfold NominalType_get, bind, requireLive, getStorage, getDecls.
  simpl. rewrite HL. simpl.
  destruct (declKind (Decls C) D); try done; apply getOrCreate_returns.
Qed.

Lemma BoundGenericType_get_returns C TheDecl Parent GenericArgs theKind :
  forallb (isLive (Storage C)) (parentTypes Parent ++ GenericArgs) = true ->
  BoundGenericKind (declKind (Decls C) TheDecl) = Some theKind ->
  exists T C', BoundGenericType_get TheDecl Parent GenericArgs C = Returns (T, C').
Proof.
  intros HL HK. unfold BoundGenericType_get, bind, requireLive, getStorage, getDecls.
  rewrite HL, HK. apply getOrCreate_returns.
Qed.

Lemma MetatypeType_get_returns C T Repr :
  isLive (Storage C) T = true ->
  exists T' C', MetatypeType_get T Repr C = Returns (T', C').
Proof.
  intros HL. unfold MetatypeType_get, bind, requireLive, getStorage. simpl.
  rewrite HL. apply getOrCreate_returns.
Qed.

Lemma ExistentialMetatypeType_get_returns C T Repr :
  isLive (Storage C) T = true ->
  exists T' C', ExistentialMetatypeType_get T Repr C = Returns (T', C').
Proof.
  intros HL. unfold ExistentialMetatypeType_get, bind, requireLive, getStorage. simpl.
  rewrite HL. apply getOrCreate_returns.
Qed.

Lemma DependentMemberType_get_returns C base name :
  isLive (Storage C) base = true ->
  exists T C', DependentMemberType_get base name C = Returns (T, C').
Proof.
  intros HL. unfold DependentMemberType_get, bind, requireLive, getStorage. simpl.
  rewrite HL. apply getOrCreate_returns.
Qed.

(** ** Sugar in a well-formed context *)

Lemma getDesugaredType_fuel_mono fuel fuel' Nodes T D :
  getDesugaredType_fuel fuel Nodes T = Some D -> fuel <= fuel' ->
  getDesugaredType_fuel fuel' Nodes T = Some D.
Proof.
  revert fuel' T. induction fuel as [|fuel IH]; intros [|fuel'] T; simpl; try done; [lia|].
  intros H Hf. destruct (Nodes !! T) as [N|]; [|done].
  destruct (Members N); try done. destruct UnderlyingType; [|done].
  apply IH; [done|lia].
Qed.

Lemma WF_getDesugaredType_Paren C T N q :
  WF C -> Storage C !! T = Some N -> Members N = ParenType_ (Some q) ->
  getDesugaredType (Storage C) T = getDesugaredType (Storage C) q.
Proof.
  intros HWF HN HM.
  destruct (WF_node _ _ _ HWF HN) as (_ & Hch & _). rewrite HM in Hch. simpl in Hch.
  apply Forall_cons in Hch as [(q' & [= <-] & Hq) _].
  assert (q < length (Storage C)) as Hq' by (apply lookup_lt_Some in HN; lia).
  destruct (WF_getDesugaredType _ _ HWF Hq') as (D & HD).
  rewrite HD. unfold getDesugaredType. simpl. rewrite HN, HM.
  apply (getDesugaredType_fuel_mono (S q)); [done|lia].
Qed.

Lemma WF_isExistentialSpelling_Paren C T N q :
  WF C -> Storage C !! T = Some N -> Members N = ParenType_ (Some q) ->
  isExistentialSpelling (Storage C) (Some T) = isExistentialSpelling (Storage C) (Some q).
Proof.
  intros HWF HN HM. unfold isExistentialSpelling, is_.
  by rewrite (WF_getDesugaredType_Paren _ _ _ _ HWF HN HM).
Qed.

Lemma WF_spelling_kind C T N :
  WF C -> Storage C !! T = Some N -> (forall U, Members N <> ParenType_ U) ->
  isExistentialSpelling (Storage C) (Some T) = true ->
  Kind N = Protocol \/ Kind N = ProtocolComposition.
Proof.
  intros HWF HN HM HE.
  pose proof (isExistentialSpelling_self _ _ _ HN HM HE) as HK.
  unfold isExistentialKind, kindOf in HK. simpl in HK. rewrite HN in HK.
  destruct HK as [[= ->]|[= ->]]; auto.
Qed.

(** ** Canonicalization terminates and keeps the invariant *)

Lemma extends_childCanon C0 C1 C2 U c :
  extends C1 C2 -> childCanon C0 C1 U c -> childCanon C0 C2 U c.
Proof.
  intros Hext (q & -> & HR & HC & HE). exists q.
  pose proof (canonicalOf_live _ _ HC) as HL. split_and!; try done.
  - eauto using extends_resolvedCanonicalType.
  - by rewrite (extends_canonicalOf _ _ Hext).
  - intros H. apply (extends_isExistentialKind _ _ Hext); auto.
Qed.

Lemma mapM_canon b C0 canon Us C1 :
  canonSpec b C0 canon ->
  Forall (fun U => exists q, U = Some q /\ q < b) Us ->
  WF C1 -> extends C0 C1 ->
  exists cs C2, mapM canon Us C1 = Returns (cs, C2) /\ Step b C1 C2
                /\ Forall2 (childCanon C0 C2) Us cs.
Proof.
  intros Hcanon HUs HWF Hext.
  apply (mapM_Step b canon (childCanon C0) Us C0); try done.
  - intros U HU C1' HWF1 Hext1. rewrite Forall_forall in HUs.
    destruct (HUs _ HU) as (q & -> & Hq). by apply (Hcanon _ q).
  - intros U c C1' C2'. apply extends_childCanon.
Qed.

Lemma Forall2_childCanon_live C0 C2 Us cs :
  Forall2 (childCanon C0 C2) Us cs ->
  forallb (isLive (Storage C2)) (map Some cs) = true
  /\ forallb (canonicalOf (Storage C2)) (map Some cs) = true.
Proof.
  induction 1 as [|U c Us cs (q & -> & _ & HC & _) _ [IH1 IH2]]; simpl; [done|].
  rewrite IH1, IH2, HC. by rewrite (canonicalOf_live _ _ HC).
Qed.

Lemma Forall2_fieldCanon C0 C2 Fields CanElts :
  Forall2 (fieldCanon C0 C2) Fields CanElts ->
  isParenthesized CanElts = isParenthesized Fields
  /\ forallb (isLive (Storage C2)) (map getType CanElts) = true
  /\ forallb (fun Elt => canonicalOf (Storage C2) (getType Elt)) CanElts = true.
Proof.
  intros H. split.
  - destruct H as [|f e Fs Es (c & -> & _) [|f' e' Fs' Es' _ _]]; simpl; try done.
  - induction H as [|f e Fs Es (c & -> & q & _ & _ & HC & _) _ [IH1 IH2]]; simpl; [done|].
    change (getType {| Name := Name f; Ty := Some c; DefaultOrVarArg := DefaultOrVarArg f |})
      with (Some c).
    rewrite IH1, IH2, HC. by rewrite (canonicalOf_live _ _ HC).
Qed.

Lemma Step_trans_0 b C1 C2 T C3 : Step b C1 C2 -> Post C2 T C3 -> Step b C1 C3.
Proof.
  intros H1 H2%Post_Step. eapply Step_trans; [done|]. eapply Step_mono; [|done]. lia.
Qed.

Lemma computeCanonicalType_total canon C T N :
  WF C -> Storage C !! T = Some N -> isCanonical N = false ->
  canonSpec T C canon ->
  exists c C2, computeCanonicalType canon N C = Returns (c, C2)
    /\ Step T C C2
    /\ canonicalOf (Storage C2) (Some c) = true
    /\ (isExistentialSpelling (Storage C) (Some T) = true -> isExistentialKind (Storage C2) c)
    /\ (forall U, Members N = ParenType_ U ->
        exists q, U = Some q /\ resolvedCanonicalType (Storage C2) q = Some c).
Proof.
  intros HWF HN HNC Hcanon.
  destruct (WF_node _ _ _ HWF HN) as (HM & Hch & _ & HC & _).
  rewrite HNC in HC. unfold computeCanonicalType.
  assert (forall c C2, (forall U, Members N <> ParenType_ U) ->
            Kind N <> Protocol -> Kind N <> ProtocolComposition ->
            (isExistentialSpelling (Storage C) (Some T) = true ->
             isExistentialKind (Storage C2) c)) as Hnot.
  { intros c C2 HMN H1 H2 HE.
    destruct (WF_spelling_kind _ _ _ HWF HN HMN HE); congruence. }
  destruct (Members N) as [| w | e n | U | Fields | D Parent | D Parent Args | Inst | Ps
                           | ? ? ? ? | [d|f] | Base name |] eqn:EM;
    simpl in HC, HM, Hch; try discriminate; try done.
  - (* ParenType *)
    apply Forall_cons in Hch as [(q & -> & Hq) _].
    destruct (Hcanon _ q eq_refl Hq C HWF (extends_refl _)) as (c & C2 & Hc & HS & HCC).
    exists c, C2. destruct HCC as (q' & [= <-] & HR & HCan & HE).
    split_and!; try done.
    + by rewrite (WF_isExistentialSpelling_Paren _ _ _ _ HWF HN EM).
    + intros U [= <-]. eauto.
  - (* TupleType *)
    destruct HM as [HK HPar].
    destruct (mapM_Step T
                (fun field => let* CanTy := canon (getType field) in
                              ret {| Name := Name field; Ty := Some CanTy;
                                     DefaultOrVarArg := DefaultOrVarArg field |})
                (fieldCanon C) Fields C) with (C1 := C)
      as (CanElts & C1 & HMap & HS1 & HF); auto using extends_refl.
    { intros field Hf C1 HWF1 Hext1.
      rewrite Forall_forall in Hch.
      destruct (Hch (getType field)) as (q & Hq & Hlt).
      { apply list_elem_of_fmap. eauto. }
      destruct (Hcanon _ q Hq Hlt C1 HWF1 Hext1) as (c & C2 & Hc & HS & HCC).
      eexists _, C2. split_and!; [|done|by exists c].
      unfold bind. by rewrite Hc. }
    { intros f e C1 C2 Hext (c & -> & HCC). exists c. eauto using extends_childCanon. }
    destruct (Forall2_fieldCanon _ _ _ _ HF) as (HPar' & HL & HCan).
    rewrite HPar in HPar'.
    destruct (TupleType_getUniqued_returns C1 CanElts HL) as (T' & C2 & HG).
    pose proof (Step_WF _ _ _ HS1) as HWF1.
    destruct (TupleType_getUniqued_WF _ _ _ _ HWF1 HPar' HG) as (HP & HNI).
    exists T', C2. split_and!.
    + apply bind_Returns. exists CanElts, C1. split; [done|].
      by rewrite TupleType_get_unfold, HPar'.
    + eauto using Step_trans_0.
    + apply nodeIs_kindOf in HNI as [_ ->]. done.
    + apply Hnot; congruence.
    + done.
  - (* NominalType *)
    destruct Parent as [q|]; [|done]. simpl in Hch.
    apply Forall_cons in Hch as [(q' & [= <-] & Hq) _].
    destruct (Hcanon _ q eq_refl Hq C HWF (extends_refl _)) as (c & C1 & Hc & HS1 & HCC).
    destruct HCC as (q' & [= <-] & HR & HCan & HE).
    pose proof (Step_WF _ _ _ HS1) as HWF1.
    assert (declKind (Decls C1) D <> ProtocolDeclKind /\ Kind N <> Protocol
            /\ Kind N <> ProtocolComposition) as (HD & HK1 & HK2).
    { destruct (Step_extends _ _ _ HS1) as (-> & _).
      destruct HM as [[_ [=]]|[HK HKP]]. split_and!; [|done|].
      - intros E. rewrite E in HK. done.
      - rewrite HK. by destruct (declKind (Decls C) D). }
    destruct (NominalType_get_returns C1 D c (canonicalOf_live _ _ HCan) HD) as (T' & C2 & HG).
    destruct (NominalType_get_WF _ _ _ _ _ HWF1 HG) as (HP & HNI).
    exists T', C2. split_and!.
    + apply bind_Returns. eauto.
    + eauto using Step_trans_0.
    + apply nodeIs_kindOf in HNI as [_ ->]. done.
    + apply Hnot; congruence.
    + done.
  - (* BoundGenericType *)
    apply Forall_app in Hch as [HchP HchA].
    assert (exists parentTy C1,
      match Parent with
      | None => ret None
      | Some _ => let* CanTy := canon Parent in ret (Some CanTy)
      end C = Returns (parentTy, C1)
      /\ Step T C C1
      /\ forallb (isLive (Storage C1)) (parentTypes parentTy) = true
      /\ match parentTy with None => true | Some _ => canonicalOf (Storage C1) parentTy end
         = true) as (parentTy & C1 & HPt & HS1 & HLP & HCP).
    { destruct Parent as [q|]; simpl in HchP.
      - apply Forall_cons in HchP as [(q' & [= <-] & Hq) _].
        destruct (Hcanon _ q eq_refl Hq C HWF (extends_refl _)) as (c & C1 & Hc & HS1 & HCC).
        destruct HCC as (q' & [= <-] & HR & HCan & HE).
        exists (Some c), C1. split_and!; try done.
        + unfold bind. by rewrite Hc.
        + simpl. by rewrite (canonicalOf_live _ _ HCan).
      - exists None, C. split_and!; try done. by apply Step_refl. }
    pose proof (Step_WF _ _ _ HS1) as HWF1.
    destruct (mapM_canon T C canon Args C1 Hcanon HchA HWF1 (Step_extends _ _ _ HS1))
      as (cs & C2 & HMap & HS2 & HF).
    pose proof (Step_WF _ _ _ HS2) as HWF2.
    destruct (Forall2_childCanon_live _ _ _ _ HF) as [HLA HCA].
    pose proof (Step_extends _ _ _ HS2) as Hext2.
    assert (BoundGenericKind (declKind (Decls C2) D) = Some (Kind N)) as HK.
    { destruct Hext2 as (-> & _). destruct (Step_extends _ _ _ HS1) as (-> & _). done. }
    destruct (BoundGenericType_get_returns C2 D parentTy (map Some cs) (Kind N))
      as (T' & C3 & HG); [|done|].
    { rewrite forallb_app, HLA, andb_true_r.
      by apply (extends_forallb_isLive _ _ Hext2). }
    destruct (BoundGenericType_get_WF _ _ _ _ _ _ HWF2 HG) as (K & _ & HP & HNI).
    exists T', C3. split_and!.
    + apply bind_Returns. exists parentTy, C1. split; [done|].
      apply bind_Returns. eauto.
    + eauto using Step_trans, Step_trans_0.
    + apply nodeIs_kindOf in HNI as [_ ->]. unfold BoundGenericType_isCanonical.
      rewrite HCA, andb_true_r. destruct parentTy; [|done].
      rewrite (extends_canonicalOf _ _ Hext2); [done|]. by apply canonicalOf_live.
    + apply Hnot; try congruence;
        destruct (declKind (Decls C) D); simpl in HM; congruence.
    + done.
  - (* AnyMetatypeType *)
    apply Forall_cons in Hch as [(q & -> & Hq) _].
    destruct (Hcanon _ q eq_refl Hq C HWF (extends_refl _)) as (c & C1 & Hc & HS1 & HCC).
    destruct HCC as (q' & [= <-] & HR & HCan & HE).
    pose proof (Step_WF _ _ _ HS1) as HWF1.
    pose proof (canonicalOf_live _ _ HCan) as HL.
    destruct HM as [HK|HK].
    + destruct (MetatypeType_get_returns C1 (Some c) (representationOf N) HL) as (T' & C2 & HG).
      destruct (MetatypeType_get_WF _ _ _ _ _ HWF1 HG) as (HP & HNI).
      exists T', C2. split_and!.
      * apply bind_Returns. exists c, C1. split; [done|]. by rewrite HK.
      * eauto using Step_trans_0.
      * apply nodeIs_kindOf in HNI as [_ ->]. done.
      * apply Hnot; congruence.
      * done.
    + destruct (ExistentialMetatypeType_get_returns C1 (Some c) (representationOf N) HL)
        as (T' & C2 & HG).
      destruct (ExistentialMetatypeType_get_WF _ _ _ _ _ HWF1 HG) as (HP & HNI).
      exists T', C2. split_and!.
      * apply bind_Returns. exists c, C1. split; [done|]. by rewrite HK.
      * eauto using Step_trans_0.
      * apply nodeIs_kindOf in HNI as [_ ->]. done.
      * apply Hnot; congruence.
      * done.
  - (* ProtocolCompositionType *)
    destruct HM as (HK & HE & _).
    destruct (mapM_canon T C canon Ps C Hcanon Hch HWF (extends_refl _))
      as (cs & C1 & HMap & HS1 & HF).
    pose proof (Step_WF _ _ _ HS1) as HWF1.
    assert (Forall (fun T => exists p, T = Some p /\ canonicalOf (Storage C1) T = true
                                       /\ isExistentialKind (Storage C1) p) (map Some cs)) as HFc.
    { rewrite forallb_forall in HE. clear -HF HE.
      induction HF as [|U c Us cs (q & -> & _ & HC & HEx) _ IH]; simpl; constructor.
      - exists c. split_and!; try done. apply HEx, HE. by left.
      - apply IH. intros x Hx. apply HE. by right. }
    destruct (ProtocolCompositionType_get_returns C1 (map Some cs) HWF1 HFc) as (T' & C2 & HG).
    destruct (ProtocolCompositionType_get_WF _ _ _ _ HWF1 HG) as (HP & HEK & HCan).
    exists T', C2. split_and!.
    + apply bind_Returns. eauto.
    + eauto using Step_trans_0.
    + apply HCan. by destruct (Forall2_childCanon_live _ _ _ _ HF).
    + done.
    + done.
  - (* DependentMemberType *)
    apply Forall_cons in Hch as [(q & -> & Hq) _].
    destruct (Hcanon _ q eq_refl Hq C HWF (extends_refl _)) as (c & C1 & Hc & HS1 & HCC).
    destruct HCC as (q' & [= <-] & HR & HCan & HE).
    pose proof (Step_WF _ _ _ HS1) as HWF1.
    pose proof (canonicalOf_live _ _ HCan) as HL.
    destruct (DependentMemberType_get_returns C1 (Some c) name HL) as (T' & C2 & HG).
    destruct (DependentMemberType_get_WF _ _ _ _ _ HWF1 HG) as (HP & HNI).
    exists T', C2. split_and!.
    + apply bind_Returns. eauto.
    + eauto using Step_trans_0.
    + apply nodeIs_kindOf in HNI as [_ ->]. done.
    + apply Hnot; congruence.
    + done.
Qed.


Lemma getCanonicalType_fuel_resolved fuel T c C :
  resolvedCanonicalType (Storage C) T = Some c ->
  getCanonicalType_fuel (S fuel) T C = Returns (c, C).
Proof.
  unfold resolvedCanonicalType. simpl. unfold bind, getStorage.
  destruct (Storage C !! T) as [N|]; [|done].
  destruct (isCanonical N); [by intros [= ->]|].
  destruct (CanonicalType N) as [[CT|]|]; try done. by intros [= ->].
Qed.

Lemma getCanonicalType_resolved T c C :
  resolvedCanonicalType (Storage C) T = Some c ->
  getCanonicalType T C = Returns (c, C).
Proof. apply getCanonicalType_fuel_resolved. Qed.

Lemma WF_resolved_Canonicalized C T c :
  WF C -> resolvedCanonicalType (Storage C) T = Some c -> Canonicalized C T c C.
Proof.
  intros HWF HR. unfold Canonicalized. split; [by apply Step_refl|]. split; [done|].
  unfold resolvedCanonicalType in HR.
  destruct (Storage C !! T) as [N|] eqn:HN; [|done].
  destruct (isCanonical N) eqn:HC.
  - injection HR as <-.
    assert (canonicalOf (Storage C) (Some T) = true) as HCan.
    { unfold canonicalOf. simpl. by rewrite HN. }
    split; [done|]. by apply WF_canonical_existential.
  - destruct (CanonicalType N) as [[CT|]|] eqn:ES; try done. injection HR as <-.
    destruct (WF_node _ _ _ HWF HN) as (_ & _ & _ & _ & HS).
    destruct (HS _ ES) as (H1 & H2 & _). done.
Qed.

Lemma WF_isExistentialSpelling_extends C C' T :
  WF C -> extends C C' -> T < length (Storage C) ->
  isExistentialSpelling (Storage C') (Some T) = isExistentialSpelling (Storage C) (Some T).
Proof.
  intros HWF Hext HT. destruct (WF_getDesugaredType _ _ HWF HT) as (D & HD).
  by apply (extends_isExistentialSpelling_defined _ _ Hext _ D).
Qed.

Lemma getCanonicalType_fuel_total fuel :
  forall T C, WF C -> T < length (Storage C) -> T < fuel ->
  exists c C', getCanonicalType_fuel fuel T C = Returns (c, C') /\ Canonicalized C T c C'.
Proof.
  induction fuel as [|fuel IH]; intros T C HWF HT Hf; [lia|].
  destruct (resolvedCanonicalType (Storage C) T) as [c|] eqn:HR.
  { exists c, C. split; [by apply getCanonicalType_fuel_resolved|].
    by apply WF_resolved_Canonicalized. }
  pose proof HT as HT'. apply lookup_lt_is_Some in HT' as [N HN].
  unfold resolvedCanonicalType in HR. rewrite HN in HR.
  destruct (isCanonical N) eqn:HC; [done|].
  destruct (CanonicalType N) as [[CT|]|] eqn:ES; try done.
  2:{ unfold isCanonical in HC. by rewrite ES in HC. }
  set (canon := fun U : Type_ =>
                  match U with
                  | Some p => getCanonicalType_fuel fuel p
                  | None => abort
                  end).
  assert (canonSpec T C canon) as Hcanon.
  { intros U q -> Hq C1 HWF1 Hext1.
    assert (q < length (Storage C1)) as Hq1.
    { pose proof (extends_length _ _ Hext1). lia. }
    destruct (IH q C1 HWF1 Hq1) as (c & C2 & Hc & HS & HRes & HCan & HE); [lia|].
    exists c, C2. split; [done|]. split.
    - eapply Step_mono; [|done]. lia.
    - exists q. split_and!; try done. intros H. apply HE.
      by apply (extends_isExistentialSpelling_true _ _ Hext1). }
  destruct (computeCanonicalType_total canon C T N HWF HN HC Hcanon)
    as (c & C2 & Hc & HS & HCan & HE & HP).
  pose proof (Step_WF _ _ _ HS) as HWF2.
  pose proof (Step_extends _ _ _ HS) as Hext2.
  pose proof (Step_node _ _ _ _ _ HS (le_n T) HN) as HN2.
  destruct (setCanonicalType T c C2) as [[u C3]|] eqn:HSet.
  2:{ unfold setCanonicalType in HSet. by rewrite HN2 in HSet. }
  assert (isExistentialSpelling (Storage C2) (Some T) = true ->
          isExistentialKind (Storage C2) c) as HE2.
  { by rewrite (WF_isExistentialSpelling_extends C C2 T HWF Hext2 HT). }
  pose proof (setCanonicalType_WF _ _ _ _ _ _ HWF2 HN2 ES HCan HE2 HP HSet) as HWF3.
  destruct (setCanonicalType_extends _ _ _ _ _ _ HN2 ES HSet)
    as (_ & _ & _ & HNx & HOp & Hext3 & HFr & HRes).
  exists c, C3. split.
  - simpl. unfold bind at 1, getStorage. rewrite HN, HC, ES.
    fold canon. apply bind_Returns. exists c, C2. split; [done|].
    apply bind_Returns. exists u, C3. done.
  - assert (Step (S T) C2 C3) as HS3 by (unfold Step; by split_and!).
    unfold Canonicalized. split_and!.
    + eapply Step_trans; [|done]. eapply Step_mono; [|done]. lia.
    + done.
    + rewrite (extends_canonicalOf _ _ Hext3); [done|]. by apply canonicalOf_live.
    + intros H. apply (extends_isExistentialKind _ _ Hext3).
      * by apply canonicalOf_live.
      * by apply HE.
Qed.

Lemma getCanonicalType_total T C :
  WF C -> T < length (Storage C) ->
  exists c C', getCanonicalType T C = Returns (c, C') /\ Canonicalized C T c C'.
Proof. intros. apply getCanonicalType_fuel_total; auto. Qed.

Lemma getCanonicalType_fuel_live fuel T C r :
  getCanonicalType_fuel fuel T C = Returns r -> T < length (Storage C).
Proof.
  destruct fuel; [done|]. simpl. unfold bind at 1, getStorage.
  destruct (Storage C !! T) eqn:E; [|done]. intros _. by apply lookup_lt_Some in E.
Qed.



(** ** Every call keeps the invariant *)

Lemma TupleType_get_Post C Fields T C' :
  WF C -> TupleType_get Fields C = Returns (T, C') -> Post C T C'.
Proof.
  intros HWF. rewrite TupleType_get_unfold.
  destruct (isParenthesized Fields) eqn:E.
  - destruct Fields as [|Elt Fields]; [done|]. intros H.
    by apply ParenType_get_WF in H as (? & _).
  - intros H. by apply TupleType_getUniqued_WF in H as (? & _).
Qed.

Lemma get_Post C request T C' :
  WF C -> get request C = Returns (T, C') -> Post C T C'.
Proof.
  intros HWF. destruct request; simpl; intros H.
  - by apply BuiltinIntegerType_get_WF in H as (? & _).
  - by apply BuiltinVectorType_get_WF in H as (? & _).
  - by apply ParenType_get_WF in H as (? & _).
  - by apply TupleType_get_Post in H.
  - by apply NominalType_get_WF in H as (? & _).
  - by apply ProtocolType_get_WF in H as (? & _).
  - by apply BoundGenericType_get_WF in H as (? & _ & ? & _).
  - by apply MetatypeType_get_WF in H as (? & _).
  - by apply ExistentialMetatypeType_get_WF in H as (? & _).
  - by apply ProtocolCompositionType_get_WF in H as (? & _).
  - by apply GenericTypeParamType_get_WF in H as (? & _).
  - by apply DependentMemberType_get_WF in H as (? & _).
Qed.

Lemma getCanonicalType_Canonicalized C T c C' :
  WF C -> getCanonicalType T C = Returns (c, C') -> Canonicalized C T c C'.
Proof.
  intros HWF H. pose proof (getCanonicalType_fuel_live _ _ _ _ H) as HT.
  destruct (getCanonicalType_total T C HWF HT) as (c' & C'' & H' & HC).
  rewrite H in H'. by injection H' as <- <-.
Qed.

Lemma extends_same C C' :
  Decls C' = Decls C -> Storage C' = Storage C -> Uniqued C' = Uniqued C -> extends C C'.
Proof.
  intros HD HS HU. unfold extends. rewrite HD, HS, HU. split_and!; try done.
  intros p N H. exists N. split; [done|apply nodeEvolves_refl].
Qed.

Lemma freshOpenedExistentialID_WF C ID C' :
  WF C -> freshOpenedExistentialID C = Returns (ID, C') ->
  WF C' /\ extends C C' /\ Storage C' = Storage C
  /\ ID = NextOpenedExistentialID C
  /\ NextOpenedExistentialID C' = toUnsigned (NextOpenedExistentialID C + 1).
Proof.
  intros HWF [= <- <-].
  split; [|split; [by apply extends_same|done]].
  destruct HWF as (W1 & W2 & W3). by apply (WF_same_storage C).
Qed.

Lemma registerOpenedExistential_WF C ID T u C' :
  WF C -> T < length (Storage C) ->
  registerOpenedExistential ID T C = Returns (u, C') ->
  WF C' /\ extends C C' /\ Storage C' = Storage C
  /\ NextOpenedExistentialID C' = NextOpenedExistentialID C.
Proof.
  intros HWF HT [= <- <-].
  split; [|split; [by apply extends_same|done]].
  destruct HWF as (W1 & W2 & W3). apply (WF_same_storage C); try done. simpl.
  intros ID' T'. destruct (decide (ID = ID')) as [->|Hne].
  - rewrite lookup_insert_eq. by intros [= <-].
  - rewrite lookup_insert_ne by done. apply W3.
Qed.

Lemma ArchetypeType_ctor_opened_nodeOK decls Nodes E ID conformsTo :
  isLive Nodes (Some E) = true ->
  nodeOK decls Nodes (length Nodes) (ArchetypeType_ctor_opened (Some E) ID conformsTo None).
Proof.
  intros HL. apply ctor_nodeOK; try done. simpl. by rewrite HL.
Qed.

Lemma isExistentialType_inv C E b C' :
  isExistentialType E C = Returns (b, C') ->
  exists c, getCanonicalType E C = Returns (c, C')
    /\ b = match kindOf (Storage C') (Some c) with
           | Some Protocol | Some ProtocolComposition => true
           | _ => false
           end.
Proof.
  unfold isExistentialType. intros H.
  apply bind_Returns in H as (c & C1 & Hc & H).
  apply bind_Returns in H as (? & ? & [= <- <-] & [= <- <-]). eauto.
Qed.

Lemma openExistential_WF C E ID T C' :
  WF C -> openExistential E ID C = Returns (T, C') ->
  WF C' /\ extends C C' /\ openedBy C E ID T C'.
Proof.
  intros HWF H. unfold openExistential in H.
  apply bind_Returns in H as (b & C1 & (c & Hc & Hb)%isExistentialType_inv & H).
  apply bind_Returns in H as (? & ? & (? & HA%Assert_Returns & [= -> ->])%lift_Returns & H).
  apply bind_Returns in H as (conformsTo & C2 & HP & H).
  apply bind_Returns in H as (T' & C3 & HAl & H).
  apply bind_Returns in H as (u & C4 & HR & [= <- <-]).
  destruct (getCanonicalType_Canonicalized _ _ _ _ HWF Hc) as (HS1 & HRes & HCan & _).
  pose proof (Step_WF _ _ _ HS1) as HWF1.
  pose proof (getCanonicalType_resolved _ _ _ HRes) as Hc1.
  unfold getAnyExistentialTypeProtocols in HP.
  apply bind_Returns in HP as (c' & C2' & Hc' & HP).
  rewrite Hc1 in Hc'. injection Hc' as Ec EC. subst c' C2'.
  apply bind_Returns in HP as (? & ? & [= <- <-] & HP).
  destruct (Storage C1 !! c) as [N|] eqn:HN; [|done].
  apply lift_Returns in HP as (Ds & HDs & [= -> ->]).
  assert (isLive (Storage C1) (Some E) = true) as HL.
  { apply isLive_lt. apply getCanonicalType_fuel_live in Hc1. done. }
  destruct (allocate_extends _ _ _ _ HAl) as (-> & ES & _ & _ & EN & EO & Hext3 & _).
  destruct (allocate_WF _ _ _ _ HWF1
              (ArchetypeType_ctor_opened_nodeOK _ _ _ _ _ HL)
              (TypeBase_ctor_fresh _ _ _ _) HAl) as (HWF3 & HNew).
  assert (length (Storage C1) < length (Storage C3)) as HT.
  { by apply lookup_lt_Some in HNew. }
  destruct (registerOpenedExistential_WF _ _ _ _ _ HWF3 HT HR) as (HWF4 & Hext4 & ES4 & EN4).
  split; [done|]. split; [eauto using extends_trans, Step_extends|].
  exists c, C1, N, Ds. split_and!; try done.
  - by rewrite ES4.
  - destruct HS1 as (_ & _ & _ & E1 & _). congruence.
  - unfold registerOpenedExistential in HR. injection HR as <- <-. simpl.
    by rewrite lookup_insert_eq.
  - eauto using extends_trans.
Qed.

Lemma ArchetypeType_getOpened_WF C existential knownID T C' :
  WF C -> ArchetypeType_getOpened existential knownID C = Returns (T, C') ->
  WF C' /\ extends C C' /\ T < length (Storage C').
Proof.
  intros HWF. unfold ArchetypeType_getOpened.
  destruct existential as [E|]; [|done]. destruct knownID as [ID|].
  - intros H. apply bind_Returns in H as (known & ? & [= <- <-] & H).
    destruct (OpenedExistentialArchetypes C !! ID) as [result|] eqn:EK.
    + injection H as <- <-. split; [done|]. split; [apply extends_refl|].
      destruct HWF as (_ & _ & W3). eauto.
    + apply openExistential_WF in H as (HWF' & Hext & HO); [|done].
      destruct HO as (? & ? & ? & ? & _ & _ & _ & -> & ES & _).
      split; [done|]. split; [done|]. rewrite ES, length_app. simpl. lia.
  - intros H. apply bind_Returns in H as (ID & C1 & HF & H).
    destruct (freshOpenedExistentialID_WF _ _ _ HWF HF) as (HWF1 & Hext1 & _).
    apply openExistential_WF in H as (HWF' & Hext & HO); [|done].
    destruct HO as (? & ? & ? & ? & _ & _ & _ & -> & ES & _).
    split; [done|]. split; [eauto using extends_trans|].
    rewrite ES, length_app. simpl. lia.
Qed.

Lemma TypeVariableType_ctor_nodeOK decls Nodes ID :
  nodeOK decls Nodes (length Nodes) (TypeVariableType_ctor ID).
Proof.
  apply (nodeOK_fields _ _ _
           (TypeBase_ctor TypeVariable true (RTP.ofProperty RTP.HasTypeVariable)
              TypeVariableType_)); first [done | by apply ctor_nodeOK | by apply slotOK_empty].
Qed.

Lemma TypeVariableType_getNew_WF C ID T C' :
  WF C -> TypeVariableType_getNew ID C = Returns (T, C') ->
  WF C' /\ extends C C' /\ T < length (Storage C').
Proof.
  intros HWF H. unfold TypeVariableType_getNew in H.
  destruct (allocate_extends _ _ _ _ H) as (_ & _ & _ & _ & _ & _ & Hext & _).
  destruct (allocate_WF _ _ _ _ HWF (TypeVariableType_ctor_nodeOK _ _ _) ltac:(done) H)
    as (HWF' & HN).
  split; [done|]. split; [done|]. by apply lookup_lt_Some in HN.
Qed.

Lemma perform_WF C op T C' :
  WF C -> perform op C = Returns (T, C') ->
  WF C' /\ extends C C' /\ T < length (Storage C').
Proof.
  intros HWF. destruct op; simpl; intros H.
  - apply get_Post in H as (? & ? & _ & _ & _ & ?); done.
  - apply getCanonicalType_Canonicalized in H as (HS & HR & HC & _); [|done].
    split; [eauto using Step_WF|]. split; [eauto using Step_extends|].
    apply canonicalOf_live in HC. by apply isLive_lt.
  - by apply ArchetypeType_getOpened_WF in H.
  - by apply TypeVariableType_getNew_WF in H.
Qed.

Lemma session_WF ops : forall C Ts C',
  WF C -> session ops C = Returns (Ts, C') -> WF C' /\ extends C C'.
Proof.
  unfold session. induction ops as [|op ops IH]; simpl; intros C Ts C' HWF H.
  - injection H as <- <-. auto using extends_refl.
  - apply bind_Returns in H as (T & C1 & HP & H).
    apply bind_Returns in H as (Ts' & C2 & HS & [= <- <-]).
    destruct (perform_WF _ _ _ _ HWF HP) as (HWF1 & Hext1 & _).
    destruct (IH _ _ _ HWF1 HS) as (HWF2 & Hext2).
    eauto using extends_trans.
Qed.

Lemma WF_emptyContext decls : WF (emptyContext decls).
Proof. unfold WF. simpl. split_and!; intros ? ?; by rewrite ?lookup_nil, ?lookup_empty. Qed.

(** Every context that a session builds from the empty one is well formed. *)
Lemma reachable_WF decls ops Ts C :
  session ops (emptyContext decls) = Returns (Ts, C) -> WF C.
Proof. intros H. by apply session_WF in H as (? & _); [|apply WF_emptyContext]. Qed.



(** ** Asking again *)





























(** ** More fuel changes nothing *)

Lemma bind_mono {A B} (m m' : M A) (f f' : A -> M B) C r :
  (forall C r, m C = Returns r -> m' C = Returns r) ->
  (forall a C r, f a C = Returns r -> f' a C = Returns r) ->
  bind m f C = Returns r -> bind m' f' C = Returns r.
Proof.
  intros Hm Hf (a & C1 & H1 & H2)%bind_Returns. apply bind_Returns.
  exists a, C1. auto.
Qed.

Lemma mapM_mono {A B} (f g : A -> M B) (l : list A) :
  (forall x C r, f x C = Returns r -> g x C = Returns r) ->
  forall C r, mapM f l C = Returns r -> mapM g l C = Returns r.
Proof.
  intros Hfg. induction l as [|x l IH]; simpl; [done|]. intros C r.
  apply bind_mono; [apply Hfg|]. intros a C' r'. apply bind_mono; auto.
Qed.

Lemma computeCanonicalType_mono canon canon' N :
  (forall U C r, canon U C = Returns r -> canon' U C = Returns r) ->
  forall C r, computeCanonicalType canon N C = Returns r ->
              computeCanonicalType canon' N C = Returns r.
Proof.
  intros Hc C r. unfold computeCanonicalType.
  destruct (Members N); try done; auto.
  - apply bind_mono; [|done]. apply mapM_mono. intros x C' r'. apply bind_mono; auto.
  - apply bind_mono; auto.
  - apply bind_mono.
    + destruct Parent; [|done]. intros C' r'. apply bind_mono; auto.
    + intros a C' r'. apply bind_mono; [|done]. by apply mapM_mono.
  - apply bind_mono; auto.
  - apply bind_mono; [|done]. by apply mapM_mono.
  - apply bind_mono; auto.
Qed.

Lemma getCanonicalType_fuel_mono fuel : forall fuel' T C r,
  getCanonicalType_fuel fuel T C = Returns r -> fuel <= fuel' ->
  getCanonicalType_fuel fuel' T C = Returns r.
Proof.
  induction fuel as [|fuel IH]; intros [|fuel'] T C r; simpl; try done; [lia|].
  intros H Hf. revert H. apply bind_mono; [done|]. intros Nodes C' r'.
  destruct (Nodes !! T) as [N|]; [|done].
  destruct (isCanonical N); [done|].
  assert (forall C r,
    (let* Result := computeCanonicalType
        (fun U => match U with Some p => getCanonicalType_fuel fuel p | None => abort end) N in
     let* _ := setCanonicalType T Result in ret Result) C = Returns r ->
    (let* Result := computeCanonicalType
        (fun U => match U with Some p => getCanonicalType_fuel fuel' p | None => abort end) N in
     let* _ := setCanonicalType T Result in ret Result) C = Returns r) as HM.
  { intros C0 r0. apply bind_mono; [|done]. apply computeCanonicalType_mono.
    intros [p|] C1 r1; [|done]. intros H. apply (IH fuel'); [done|lia]. }
  destruct (CanonicalType N) as [[CT|]|]; auto.
Qed.

(** The canonical form of a node does not depend on what was canonicalized
    before. *)
Lemma getCanonicalType_fuel_enough fuel T C r :
  WF C -> T < fuel -> getCanonicalType_fuel fuel T C = Returns r ->
  getCanonicalType T C = Returns r.
Proof.
  intros HWF Hf H. pose proof (getCanonicalType_fuel_live _ _ _ _ H) as HT.
  destruct (getCanonicalType_total T C HWF HT) as (c & C' & HG & _).
  pose proof (getCanonicalType_fuel_mono (S T) fuel T C _ HG ltac:(lia)) as HG'.
  rewrite HG' in H. by rewrite <- H.
Qed.



(** ** The accessors that Types.h defines inline *)

(** C8: [BuiltinIntegerWidth::getFixedWidth()] aborts exactly when the width
    is not a fixed width, as the pointer width is not, and returns the stored
    value otherwise; [BuiltinIntegerType::getFixedWidth()] hands the request
    to the width of the type and behaves alike. *)
Theorem getFixedWidth_aborts_unless_fixed :
  (forall w : BuiltinIntegerWidth.t,
     BuiltinIntegerWidth.getFixedWidth w
     = if BuiltinIntegerWidth.isFixedWidth w
       then Returns (BuiltinIntegerWidth.RawValue w) else Aborts)
  /\ BuiltinIntegerWidth.isFixedWidth BuiltinIntegerWidth.pointer = false
  /\ BuiltinIntegerWidth.getFixedWidth BuiltinIntegerWidth.pointer = Aborts
  /\ (forall w : BuiltinIntegerWidth.t,
        BuiltinIntegerType_getFixedWidth (BuiltinIntegerType_ctor w)
        = if BuiltinIntegerWidth.isFixedWidth w
          then Returns (BuiltinIntegerWidth.RawValue w) else Aborts).
Proof.
  assert (forall w, BuiltinIntegerWidth.getFixedWidth w
                    = if BuiltinIntegerWidth.isFixedWidth w
                      then Returns (BuiltinIntegerWidth.RawValue w) else Aborts) as H.
  { intros w. unfold BuiltinIntegerWidth.getFixedWidth.
    by destruct (BuiltinIntegerWidth.isFixedWidth w). }
  split_and!; first [done | intros w; apply H].
Qed.

(** C9: [isIndirectParameter] is true exactly for the three indirect
    conventions; they are the first three enumerators, so the comparison
    with [Indirect_Out] separates them from the direct ones. *)
Theorem isIndirectParameter_exactly_indirect :
  forall conv : ParameterConvention,
    (isIndirectParameter conv = true
     <-> conv = Indirect_In \/ conv = Indirect_Inout \/ conv = Indirect_Out)
    /\ (isIndirectParameter conv = false
        <-> conv = Direct_Owned \/ conv = Direct_Unowned \/ conv = Direct_Guaranteed)
    /\ isIndirectParameter conv
       = (ParameterConvention_value conv <=? ParameterConvention_value Indirect_Out)%Z
    /\ (isIndirectParameter conv = true <-> (ParameterConvention_value conv < 3)%Z).
Proof.
  intros conv. destruct conv; vm_compute; intuition congruence.
Qed.

Lemma MetatypeRepresentation_cast_value r :
  MetatypeRepresentation_cast (MetatypeRepresentation_value r) = Returns r.
Proof. by destruct r. Qed.

Lemma Representation_stored kind C properties instanceType repr :
  AnyMetatypeTypeBits_Representation
    (AnyMetatypeType_ctor kind C properties instanceType repr)
  = match repr with
    | Some r => (MetatypeRepresentation_value r + 1)%Z
    | None => 0%Z
    end.
Proof. by destruct repr as [[]|]. Qed.

Lemma Representation_range T : (0 <= AnyMetatypeTypeBits_Representation T < 4)%Z.
Proof.
  unfold AnyMetatypeTypeBits_Representation, RepresentationBitWidth.
  rewrite Z.land_ones by lia. change (2 ^ 2)%Z with 4%Z. apply Z.mod_pos_bound. lia.
Qed.

(** C10: the [Representation] field of a metatype holds the representation
    plus one in its two bits and zero when there is none.  A node built with
    representation [r] has the field [r + 1], [hasRepresentation()] is true
    and [getRepresentation()] returns [r]; a node built without one has the
    field zero, [hasRepresentation()] is false and [getRepresentation()]
    aborts.  Whatever the node, [getRepresentation()] returns the field
    minus one exactly when [hasRepresentation()] holds. *)
Theorem metatype_representation_shifted :
  (forall kind C properties instanceType r,
     let T := AnyMetatypeType_ctor kind C properties instanceType (Some r) in
     AnyMetatypeTypeBits_Representation T = (MetatypeRepresentation_value r + 1)%Z
     /\ hasRepresentation T = true
     /\ getRepresentation T = Returns r)
  /\ (forall kind C properties instanceType,
        let T := AnyMetatypeType_ctor kind C properties instanceType None in
        AnyMetatypeTypeBits_Representation T = 0%Z
        /\ hasRepresentation T = false
        /\ getRepresentation T = Aborts)
  /\ (forall T : TypeBase,
        if hasRepresentation T
        then exists r, getRepresentation T = Returns r
                       /\ AnyMetatypeTypeBits_Representation T
                          = (MetatypeRepresentation_value r + 1)%Z
        else getRepresentation T = Aborts
             /\ AnyMetatypeTypeBits_Representation T = 0%Z).
Proof.
  split_and!.
  - intros kind C properties instanceType r T.
    pose proof (Representation_stored kind C properties instanceType (Some r)) as H.
    fold T in H. unfold hasRepresentation, getRepresentation. rewrite H.
    split; [done|]. by destruct r.
  - intros kind C properties instanceType T.
    pose proof (Representation_stored kind C properties instanceType None) as H.
    fold T in H. unfold hasRepresentation, getRepresentation. by rewrite H.
  - intros T. pose proof (Representation_range T) as HR.
    unfold hasRepresentation, getRepresentation.
    assert (AnyMetatypeTypeBits_Representation T = 0 \/
            AnyMetatypeTypeBits_Representation T = 1 \/
            AnyMetatypeTypeBits_Representation T = 2 \/
            AnyMetatypeTypeBits_Representation T = 3)%Z as [E|[E|[E|E]]] by lia;
      rewrite E; simpl; [done|by exists Thin|by exists Thick|by exists ObjC].
Qed.

(** ** The property bitset *)

Lemma lor_range a b : (0 <= a < 8)%Z -> (0 <= b < 8)%Z -> (0 <= Z.lor a b < 8)%Z.
Proof.
  intros Ha Hb. rewrite <- (toBitField_small a), <- (toBitField_small b) by done.
  rewrite <- toBitField_lor. apply toBitField_range.
Qed.

Lemma getBits_plus a b :
  (0 <= RTP.getBits a < 8)%Z -> (0 <= RTP.getBits b < 8)%Z ->
  RTP.getBits (RTP.plus a b) = Z.lor (RTP.getBits a) (RTP.getBits b).
Proof. intros Ha Hb. apply toBitField_small. by apply lor_range. Qed.

Lemma fold_lor_range (bits : list Z) :
  Forall (fun b => 0 <= b < 8)%Z bits -> (0 <= fold_right Z.lor 0%Z bits < 8)%Z.
Proof.
  induction 1 as [|b bits Hb _ IH]; simpl; [lia|]. by apply lor_range.
Qed.

(** The union that [operator+=] accumulates over a list of children. *)
Lemma getBits_fold_plus Nodes (Ts : list Type_) acc :
  (0 <= RTP.getBits acc < 8)%Z ->
  RTP.getBits (fold_left (fun properties T => RTP.plus properties (propertiesOf Nodes T))
                 Ts acc)
  = Z.lor (RTP.getBits acc)
      (fold_right Z.lor 0%Z (map (fun T => RTP.getBits (propertiesOf Nodes T)) Ts)).
Proof.
  revert acc. induction Ts as [|T Ts IH]; intros acc Hacc; simpl.
  - by rewrite Z.lor_0_r.
  - rewrite IH by apply plus_range.
    rewrite getBits_plus by auto using propertiesOf_range. by rewrite Z.lor_assoc.
Qed.

Lemma TupleType_properties_fold Nodes Fields :
  TupleType_properties Nodes Fields
  = fold_left (fun properties T => RTP.plus properties (propertiesOf Nodes T))
      (map getType Fields) RTP.empty.
Proof.
  unfold TupleType_properties. generalize RTP.empty.
  induction Fields as [|Elt Fields IH]; intros acc; simpl; [done|]. apply IH.
Qed.

Lemma getBits_TupleType_properties Nodes Fields :
  RTP.getBits (TupleType_properties Nodes Fields)
  = fold_right Z.lor 0%Z
      (map (fun Elt => RTP.getBits (propertiesOf Nodes (getType Elt))) Fields).
Proof.
  rewrite TupleType_properties_fold, getBits_fold_plus by done.
  by rewrite map_map.
Qed.

Lemma nodeIs_properties C T kind members can props :
  nodeIs C T kind members can props -> (0 <= RTP.getBits props < 8)%Z ->
  exists N, Storage C !! T = Some N /\ Kind N = kind /\ Members N = members
            /\ getRecursiveProperties N = props.
Proof.
  intros (N & HN & HK & HM & _ & HP) Hr. exists N. split_and!; try done.
  unfold getRecursiveProperties, RTP.ofBits. rewrite HP, toBitField_idem.
  rewrite toBitField_small by done. by destruct props.
Qed.

Lemma map_ext_live {A} Nodes Nodes' (f : A -> Type_) (g : list TypeBase -> Type_ -> Z) l :
  (forall T, isLive Nodes T = true -> g Nodes' T = g Nodes T) ->
  forallb (isLive Nodes) (map f l) = true ->
  map (fun x => g Nodes' (f x)) l = map (fun x => g Nodes (f x)) l.
Proof.
  intros Hg. induction l as [|x l IH]; simpl; [done|].
  intros [H1 H2]%andb_true_iff. by rewrite Hg, IH.
Qed.

(** C6: the bitset of the node that [TupleType::get] returns is the bitwise
    OR of the bitsets of the element types and nothing more; unless the list
    is one unlabeled non-variadic element the node is a tuple of exactly
    these elements. *)
Theorem tuple_properties_union_of_children :
  forall decls ops Ts C Fields T C',
    session ops (emptyContext decls) = Returns (Ts, C) ->
    TupleType_get Fields C = Returns (T, C') ->
    exists N,
      Storage C' !! T = Some N
      /\ (isParenthesized Fields = false
          -> Kind N = Tuple /\ Members N = TupleType_ Fields)
      /\ RTP.getBits (getRecursiveProperties N)
         = fold_right Z.lor 0%Z
             (map (fun Elt => RTP.getBits (propertiesOf (Storage C') (getType Elt)))
                Fields).
Proof.
  intros decls ops Ts C Fields T C' HR%reachable_WF HG.
  pose proof (TupleType_get_Post _ _ _ _ HR HG) as (_ & Hext & _).
  rewrite TupleType_get_unfold in HG.
  destruct (isParenthesized Fields) eqn:EP.
  - destruct Fields as [|Elt [|Elt' Fields]]; try done.
    apply ParenType_get_WF in HG as (_ & HN & HL); [|done].
    apply nodeIs_properties in HN as (N & HN & _ & _ & HP); [|apply propertiesOf_range].
    exists N. split_and!; try done. rewrite HP. simpl.
    by rewrite Z.lor_0_r, (extends_propertiesOf C C' Hext (getType Elt) HL).
  - pose proof HG as HG'. unfold TupleType_getUniqued in HG'.
    apply bind_Returns in HG' as (? & ? & (HL & _)%requireLive_Returns & _).
    apply TupleType_getUniqued_WF in HG as (_ & HN); [|done..].
    apply nodeIs_properties in HN as (N & HN & HK & HM & HP).
    + exists N. split_and!; try done. rewrite HP, getBits_TupleType_properties.
      f_equal. symmetry.
      apply (map_ext_live (Storage C) (Storage C') getType
               (fun Nodes T => RTP.getBits (propertiesOf Nodes T))); [|done].
      intros U HU. by rewrite (extends_propertiesOf _ _ Hext).
    + rewrite getBits_TupleType_properties. apply fold_lor_range.
      apply Forall_forall. intros b (Elt & -> & _)%list_elem_of_fmap.
      apply propertiesOf_range.
Qed.






(** ** Uniquing *)


(** ** Canonical types *)



(** C4: [TupleType::get] of one unlabeled element that is not variadic
    returns a [ParenType] around the type of the element, not a tuple; the
    canonical form of that node is the canonical form of the type of the
    element, whichever of the two is asked for first. *)
Theorem single_element_tuple_is_paren :
  forall decls ops Ts C Elt T C1,
    session ops (emptyContext decls) = Returns (Ts, C) ->
    hasName Elt = false ->
    isVararg Elt = false ->
    TupleType_get [Elt] C = Returns (T, C1) ->
    exists N E CanTy C2 C3,
      Storage C1 !! T = Some N
      /\ Kind N = Paren
      /\ Members N = ParenType_ (getType Elt)
      /\ getType Elt = Some E
      /\ getCanonicalType T C1 = Returns (CanTy, C2)
      /\ getCanonicalType E C1 = Returns (CanTy, C3)
      /\ getCanonicalType E C2 = Returns (CanTy, C2).
Proof.
  intros decls ops Ts C Elt T C1 HR%reachable_WF HName HVar HG.
  rewrite TupleType_get_unfold in HG. simpl in HG. rewrite HName, HVar in HG. simpl in HG.
  apply ParenType_get_WF in HG as ((HWF1 & Hext & _ & _ & _ & HT) & HN & HL); [|done].
  destruct HN as (N & HN & HK & HM & HC & _).
  apply isLive_Some in HL as (E & B & HE & HB).
  destruct (getCanonicalType_total T C1 HWF1 HT) as (c & C2 & HGT & HS & HRes & HCan & _).
  pose proof (Step_WF _ _ _ HS) as HWF2.
  assert (getCanonicalType E C2 = Returns (c, C2)) as HGE2.
  { apply getCanonicalType_resolved.
    destruct (Step_extends _ _ _ HS) as (_ & HSt & _).
    destruct (HSt _ _ HN) as (N' & HN' & Ev).
    pose proof (nodeEvolves_fields _ _ Ev) as (_ & _ & _ & EM & EC).
    unfold resolvedCanonicalType in HRes. rewrite HN', EC, HC in HRes.
    destruct (CanonicalType N') as [[CT|]|] eqn:ES; try done. injection HRes as ->.
    destruct (WF_node _ _ _ HWF2 HN') as (_ & _ & _ & _ & HSlot).
    destruct (HSlot _ ES) as (_ & _ & HP).
    destruct (HP (getType Elt)) as (u & Hu & HRu); [congruence|]. congruence. }
  assert (exists C3, getCanonicalType E C1 = Returns (c, C3)) as (C3 & HGE1).
  { destruct (CanonicalType N) as [[CT|]|] eqn:ES.
    - assert (resolvedCanonicalType (Storage C1) T = Some CT) as HR1.
      { unfold resolvedCanonicalType. by rewrite HN, HC, ES. }
      pose proof (getCanonicalType_resolved _ _ _ HR1) as HGT'.
      rewrite HGT in HGT'. injection HGT' as -> ->. eauto.
    - unfold getCanonicalType in HGT. simpl in HGT.
      apply bind_Returns in HGT as (? & ? & [= <- <-] & HGT).
      rewrite HN, HC, ES in HGT.
      apply bind_Returns in HGT as (c' & C3 & HComp & HSet).
      apply bind_Returns in HSet as (? & ? & _ & [= <- <-]).
      unfold computeCanonicalType in HComp. rewrite HM, HE in HComp.
      exists C3. apply (getCanonicalType_fuel_enough T); [done| |done].
      destruct (WF_node _ _ _ HWF1 HN) as (_ & Hch & _).
      rewrite HM, HE in Hch. simpl in Hch.
      apply Forall_cons in Hch as [(q & [= <-] & Hq) _]. done.
    - unfold isCanonical in HC. by rewrite ES in HC. }
  exists N, E, c, C2, C3. by split_and!.
Qed.



(** ** Protocol compositions *)





(** ** Opened existentials *)









(** ** The theorems at work on the small program *)

Lemma exampleContext_reachable :
  session exampleOps (emptyContext exampleDecls) = Returns (exampleResults, exampleContext).
Proof. vm_compute. reflexivity. Defined.




(** The one-element tuple of the tuple of node 5 is the parenthesized type of
    node 5. *)
Lemma single_element_tuple_is_paren_witness :
  hasName (TupleTypeElt_ofType 5) = false
  /\ isVararg (TupleTypeElt_ofType 5) = false
  /\ TupleType_get [TupleTypeElt_ofType 5] exampleContext
     = Returns (7, contextAfter (TupleType_get [TupleTypeElt_ofType 5]) exampleContext)
  /\ exists N E CanTy C2 C3,
       Storage (contextAfter (TupleType_get [TupleTypeElt_ofType 5]) exampleContext) !! 7
       = Some N
       /\ Kind N = Paren
       /\ Members N = ParenType_ (getType (TupleTypeElt_ofType 5))
       /\ getType (TupleTypeElt_ofType 5) = Some E
       /\ getCanonicalType 7
            (contextAfter (TupleType_get [TupleTypeElt_ofType 5]) exampleContext)
          = Returns (CanTy, C2)
       /\ getCanonicalType E
            (contextAfter (TupleType_get [TupleTypeElt_ofType 5]) exampleContext)
          = Returns (CanTy, C3)
       /\ getCanonicalType E C2 = Returns (CanTy, C2).
Proof.
  assert (TupleType_get [TupleTypeElt_ofType 5] exampleContext
          = Returns (7, contextAfter (TupleType_get [TupleTypeElt_ofType 5]) exampleContext))
    as H by (vm_compute; reflexivity).
  split; [reflexivity|]. split; [reflexivity|]. split; [exact H|].
  exact (single_element_tuple_is_paren exampleDecls exampleOps exampleResults exampleContext
           (TupleTypeElt_ofType 5) 7 _ exampleContext_reachable eq_refl eq_refl H).
Defined.


(** The tuple of [Builtin.Int32] and the generic parameter, node 5, carries
    the dependent mark of its second element and nothing else. *)
Lemma tuple_properties_union_of_children_witness :
  TupleType_get [TupleTypeElt_ofType 2; TupleTypeElt_ofType 3] exampleContext
  = Returns (5, exampleContext)
  /\ exists N,
       Storage exampleContext !! 5 = Some N
       /\ (isParenthesized [TupleTypeElt_ofType 2; TupleTypeElt_ofType 3] = false
           -> Kind N = Tuple
              /\ Members N = TupleType_ [TupleTypeElt_ofType 2; TupleTypeElt_ofType 3])
       /\ RTP.getBits (getRecursiveProperties N)
          = fold_right Z.lor 0%Z
              (map (fun Elt =>
                      RTP.getBits (propertiesOf (Storage exampleContext) (getType Elt)))
                 [TupleTypeElt_ofType 2; TupleTypeElt_ofType 3]).
Proof.
  assert (TupleType_get [TupleTypeElt_ofType 2; TupleTypeElt_ofType 3] exampleContext
          = Returns (5, exampleContext)) as H by (vm_compute; reflexivity).
  split; [exact H|].
  exact (tuple_properties_union_of_children exampleDecls exampleOps exampleResults
           exampleContext _ 5 exampleContext exampleContext_reachable H).
Defined.


(** What the model computes on the small program: the sugared composition of
    node 6 canonicalizes to [Q], and its two openings are the nodes 7 and 8
    with the identifiers 0 and 1, both conforming to [Q] alone. *)
Example exampleContext_computes :
  resultOf (getCanonicalType 6) exampleContext 0 = 1
  /\ resultOf
       (let* A1 := ArchetypeType_getOpened (Some 6) None in
        let* A2 := ArchetypeType_getOpened (Some 6) None in
        let* Nodes := getStorage in
        ret (A1, A2, getConformsTo <$> Nodes !! A1, getConformsTo <$> Nodes !! A2,
             getOpenedExistentialID <$> Nodes !! A1, getOpenedExistentialID <$> Nodes !! A2))
       exampleContext (0, 0, None, None, None, None)
     = (7, 8, Some [exampleQ], Some [exampleQ], Some (Returns 0%Z), Some (Returns 1%Z)).
Proof. split; vm_compute; reflexivity. Qed.

(** * What the inline code of Types.h shows besides *)

(** ** RecursiveTypeProperties as a set of three properties *)

Lemma Property_value_pow2 prop :
  exists k, (0 <= k < 3)%Z /\ RTP.Property_value prop = (2 ^ k)%Z.
Proof. destruct prop; [exists 0%Z|exists 1%Z|exists 2%Z]; split; (lia || reflexivity). Qed.

Lemma land_pow2_testbit x k :
  (0 <= k)%Z -> negb (Z.land x (2 ^ k) =? 0)%Z = Z.testbit x k.
Proof.
  intros Hk. destruct (Z.testbit x k) eqn:E.
  - apply negb_true_iff, Z.eqb_neq. intros H.
    assert (Z.testbit (Z.land x (2 ^ k)) k = false) as H' by (rewrite H; apply Z.bits_0).
    rewrite Z.land_spec, E, Z.pow2_bits_true in H' by done. done.
  - apply negb_false_iff, Z.eqb_eq, Z.bits_inj'. intros n Hn.
    rewrite Z.land_spec, Z.bits_0. destruct (decide (n = k)) as [->|Hne].
    + by rewrite E.
    + rewrite Z.pow2_bits_false by lia. apply andb_false_r.
Qed.

Lemma toBitField_testbit x n :
  (0 <= n)%Z -> Z.testbit (RTP.toBitField x) n = Z.testbit x n && (n <? 3)%Z.
Proof.
  intros Hn. unfold RTP.toBitField, RTP.BitWidth.
  by rewrite Z.land_spec, Z.testbit_ones_nonneg by lia.
Qed.

(** A property is in the set when its bit is. *)
Lemma test_testbit s prop k :
  (0 <= k < 3)%Z -> RTP.Property_value prop = (2 ^ k)%Z ->
  RTP.test s prop = Z.testbit (RTP.Bits s) k.
Proof. intros Hk E. unfold RTP.test. rewrite E. apply land_pow2_testbit. lia. Qed.

Lemma test_ofBits bits prop k :
  (0 <= k < 3)%Z -> RTP.Property_value prop = (2 ^ k)%Z ->
  RTP.test (RTP.ofBits bits) prop = Z.testbit bits k.
Proof.
  intros Hk E. rewrite (test_testbit _ _ k) by done. simpl.
  rewrite toBitField_testbit by lia.
  assert ((k <? 3)%Z = true) as -> by (apply Z.ltb_lt; lia). apply andb_true_r.
Qed.

Lemma ofBits_ext a b :
  (forall n, (0 <= n < 3)%Z -> Z.testbit a n = Z.testbit b n) -> RTP.ofBits a = RTP.ofBits b.
Proof.
  intros H. unfold RTP.ofBits. f_equal. apply Z.bits_inj'. intros n Hn.
  rewrite !toBitField_testbit by done.
  destruct (Z.ltb_spec n 3); [|by rewrite !andb_false_r]. rewrite H by lia. done.
Qed.

(** X1: [operator+] of RecursiveTypeProperties is the union of the two sets:
    a property is in the sum exactly when it is in one of the operands, so the
    sum has a type variable or is dependent when an operand is and is
    materializable when both are; the sum does not depend on the order or
    the grouping of the operands. *)
Theorem RecursiveTypeProperties_plus_is_union :
  forall a b c : RTP.t,
    (forall prop, RTP.test (RTP.plus a b) prop = RTP.test a prop || RTP.test b prop)
    /\ RTP.hasTypeVariable (RTP.plus a b) = RTP.hasTypeVariable a || RTP.hasTypeVariable b
    /\ RTP.isDependent (RTP.plus a b) = RTP.isDependent a || RTP.isDependent b
    /\ RTP.isMaterializable (RTP.plus a b)
       = RTP.isMaterializable a && RTP.isMaterializable b
    /\ RTP.plus a b = RTP.plus b a
    /\ RTP.plus (RTP.plus a b) c = RTP.plus a (RTP.plus b c)
    /\ RTP.plus (RTP.plus a b) b = RTP.plus a b.
Proof.
  intros a b c.
  assert (forall prop, RTP.test (RTP.plus a b) prop = RTP.test a prop || RTP.test b prop)
    as Htest.
  { intros prop. destruct (Property_value_pow2 prop) as (k & Hk & E).
    unfold RTP.plus. rewrite (test_ofBits _ _ k), !(test_testbit _ _ k) by done.
    apply Z.lor_spec. }
  split_and!.
  - done.
  - apply (Htest RTP.HasTypeVariable).
  - apply (Htest RTP.IsDependent).
  - pose proof (Htest RTP.IsNotMaterializable) as H. unfold RTP.test in H.
    apply (f_equal negb) in H. rewrite negb_orb, !negb_involutive in H. exact H.
  - unfold RTP.plus. by rewrite Z.lor_comm.
  - unfold RTP.plus. apply ofBits_ext. intros n Hn. simpl.
    rewrite !Z.lor_spec, !toBitField_testbit, !Z.lor_spec by lia.
    assert ((n <? 3)%Z = true) as -> by (apply Z.ltb_lt; lia).
    by rewrite !andb_true_r, orb_assoc.
  - unfold RTP.plus. apply ofBits_ext. intros n Hn. simpl.
    rewrite !Z.lor_spec, !toBitField_testbit, !Z.lor_spec by lia.
    assert ((n <? 3)%Z = true) as -> by (apply Z.ltb_lt; lia).
    rewrite !andb_true_r. by destruct (Z.testbit (RTP.Bits a) n), (Z.testbit (RTP.Bits b) n).
Qed.

(** X2: [operator-] of RecursiveTypeProperties is set difference: a property
    is in the difference exactly when it is in the left operand and not in
    the right one; taking [b] away from a sum with [b] leaves what [a] has
    and [b] has not, and adding [b] back gives the sum again. *)
Theorem RecursiveTypeProperties_minus_is_difference :
  forall a b : RTP.t,
    (forall prop,
       RTP.test (RTP.minus a b) prop = RTP.test a prop && negb (RTP.test b prop))
    /\ (forall prop, RTP.test (RTP.minus a b) prop && RTP.test b prop = false)
    /\ RTP.minus (RTP.plus a b) b = RTP.minus a b
    /\ RTP.plus (RTP.minus a b) b = RTP.plus a b
    /\ RTP.minus a a = RTP.empty.
Proof.
  intros a b.
  assert (forall prop,
            RTP.test (RTP.minus a b) prop = RTP.test a prop && negb (RTP.test b prop))
    as Htest.
  { intros prop. destruct (Property_value_pow2 prop) as (k & Hk & E).
    unfold RTP.minus. rewrite (test_ofBits _ _ k), !(test_testbit _ _ k) by done.
    rewrite Z.land_spec, Z.lnot_spec by lia. done. }
  split_and!.
  - done.
  - intros prop. rewrite Htest. by destruct (RTP.test a prop), (RTP.test b prop).
  - unfold RTP.minus, RTP.plus. apply ofBits_ext. intros n Hn. simpl.
    rewrite !Z.land_spec, !Z.lnot_spec, toBitField_testbit, Z.lor_spec by lia.
    assert ((n <? 3)%Z = true) as -> by (apply Z.ltb_lt; lia).
    by destruct (Z.testbit (RTP.Bits a) n), (Z.testbit (RTP.Bits b) n).
  - unfold RTP.minus, RTP.plus. apply ofBits_ext. intros n Hn. simpl.
    rewrite !Z.lor_spec, toBitField_testbit, Z.land_spec, Z.lnot_spec by lia.
    assert ((n <? 3)%Z = true) as -> by (apply Z.ltb_lt; lia).
    by destruct (Z.testbit (RTP.Bits a) n), (Z.testbit (RTP.Bits b) n).
  - unfold RTP.minus, RTP.empty, RTP.ofBits. f_equal. f_equal.
    apply Z.bits_inj'. intros n Hn. rewrite Z.land_spec, Z.lnot_spec, Z.bits_0 by lia.
    by destruct (Z.testbit (RTP.Bits a) n).
Qed.

(** ** The node and its property bits *)

Lemma toBitField_idem' bits : RTP.toBitField (RTP.toBitField bits) = RTP.toBitField bits.
Proof.
  apply Z.bits_inj'. intros n Hn. rewrite !toBitField_testbit by done.
  by destruct (Z.testbit bits n), (n <? 3)%Z.
Qed.

(** X3: a node as its constructor leaves it: it has the kind it was given, is
    canonical exactly when it was given a context, has a canonical type
    computed exactly when it is canonical, and gives back the properties it
    was given, for every set that the constructors and operators of
    RecursiveTypeProperties build.  Storing other properties into a node
    later changes nothing else of it, and a canonical node always has its
    canonical type computed. *)
Theorem TypeBase_constructor_round_trip :
  forall (kind : TypeKind) (CanTypeCtx : bool) (bits : Z) (a b : RTP.t)
         (members : Subclass) (T : TypeBase),
    let ctor properties := TypeBase_ctor kind CanTypeCtx properties members in
    getKind (ctor (RTP.ofBits bits)) = kind
    /\ isCanonical (ctor (RTP.ofBits bits)) = CanTypeCtx
    /\ hasCanonicalTypeComputed (ctor (RTP.ofBits bits)) = CanTypeCtx
    /\ getRecursiveProperties (ctor (RTP.ofBits bits)) = RTP.ofBits bits
    /\ getRecursiveProperties (ctor (RTP.plus a b)) = RTP.plus a b
    /\ getRecursiveProperties (ctor (RTP.minus a b)) = RTP.minus a b
    /\ getRecursiveProperties (ctor RTP.empty) = RTP.empty
    /\ (forall prop, getRecursiveProperties (ctor (RTP.ofProperty prop))
                     = RTP.ofProperty prop)
    /\ getRecursiveProperties (setRecursiveProperties T (RTP.plus a b)) = RTP.plus a b
    /\ getKind (setRecursiveProperties T a) = getKind T
    /\ isCanonical (setRecursiveProperties T a) = isCanonical T
    /\ Members (setRecursiveProperties T a) = Members T
    /\ SubclassBits (setRecursiveProperties T a) = SubclassBits T
    /\ (isCanonical T = true -> hasCanonicalTypeComputed T = true).
Proof.
  intros kind CanTypeCtx bits a b members T ctor.
  assert (forall T' x, getRecursiveProperties (setRecursiveProperties T' (RTP.ofBits x))
                       = RTP.ofBits x) as Hrt.
  { intros T' x. unfold getRecursiveProperties, setRecursiveProperties, RTP.ofBits,
      RTP.getBits. simpl. by rewrite !toBitField_idem'. }
  split_and!; try done; try apply Hrt.
  - by destruct CanTypeCtx.
  - by destruct CanTypeCtx.
  - intros prop. apply Hrt.
  - unfold isCanonical, hasCanonicalTypeComputed. by destruct (CanonicalType T).
Qed.

(** ** Widths of builtin integers *)

Lemma Least_SpecialValue_eq :
  BuiltinIntegerWidth.Least_SpecialValue = 4294967293%Z
  /\ BuiltinIntegerWidth.DenseMapTombstone = 4294967293%Z
  /\ BuiltinIntegerWidth.DenseMapEmpty = 4294967294%Z
  /\ BuiltinIntegerWidth.PointerWidth = 4294967295%Z.
Proof. by vm_compute. Qed.

(** X4: [BuiltinIntegerWidth::fixed] accepts exactly the bit widths below
    [Least_SpecialValue], that is all but the last three values of
    [unsigned]; what it returns is a fixed width that is not the pointer
    width, and [getFixedWidth], [getLeastWidth] and [getGreatestWidth] all
    give back the bit width. *)
Theorem BuiltinIntegerWidth_fixed_round_trip :
  forall bitWidth : Z,
    (0 <= bitWidth < 2 ^ 32)%Z ->
    if (bitWidth <? 2 ^ 32 - 3)%Z
    then exists w,
           BuiltinIntegerWidth.fixed bitWidth = Returns w
           /\ BuiltinIntegerWidth.isFixedWidth w = true
           /\ BuiltinIntegerWidth.isPointerWidth w = false
           /\ BuiltinIntegerWidth.getFixedWidth w = Returns bitWidth
           /\ BuiltinIntegerWidth.getLeastWidth w = Returns bitWidth
           /\ BuiltinIntegerWidth.getGreatestWidth w = Returns bitWidth
           /\ BuiltinIntegerType_getFixedWidth (BuiltinIntegerType_ctor w)
              = Returns bitWidth
    else BuiltinIntegerWidth.fixed bitWidth = Aborts.
Proof.
  intros bitWidth Hr. destruct Least_SpecialValue_eq as (EL & _ & _ & EP).
  unfold BuiltinIntegerWidth.fixed. rewrite EL.
  change (2 ^ 32 - 3)%Z with 4294967293%Z.
  destruct (Z.ltb_spec bitWidth 4294967293) as [Hlt|Hge]; simpl; [|done].
  eexists. split; [reflexivity|].
  assert (BuiltinIntegerWidth.isFixedWidth (BuiltinIntegerWidth.mk bitWidth) = true) as HF.
  { unfold BuiltinIntegerWidth.isFixedWidth. simpl. rewrite EL. by apply Z.ltb_lt. }
  assert (BuiltinIntegerWidth.getFixedWidth (BuiltinIntegerWidth.mk bitWidth)
          = Returns bitWidth) as HG.
  { unfold BuiltinIntegerWidth.getFixedWidth. by rewrite HF. }
  split_and!; try done.
  - unfold BuiltinIntegerWidth.isPointerWidth. simpl. rewrite EP. apply Z.eqb_neq. lia.
  - unfold BuiltinIntegerWidth.getLeastWidth. by rewrite HF.
  - unfold BuiltinIntegerWidth.getGreatestWidth. by rewrite HF.
Qed.

Lemma BuiltinIntegerWidth_fixed_round_trip_witness :
  (0 <= 64 < 2 ^ 32)%Z
  /\ exists w,
       BuiltinIntegerWidth.fixed 64 = Returns w
       /\ BuiltinIntegerWidth.isFixedWidth w = true
       /\ BuiltinIntegerWidth.isPointerWidth w = false
       /\ BuiltinIntegerWidth.getFixedWidth w = Returns 64%Z
       /\ BuiltinIntegerWidth.getLeastWidth w = Returns 64%Z
       /\ BuiltinIntegerWidth.getGreatestWidth w = Returns 64%Z
       /\ BuiltinIntegerType_getFixedWidth (BuiltinIntegerType_ctor w) = Returns 64%Z.
Proof.
  assert (0 <= 64 < 2 ^ 32)%Z as H by (split; [discriminate | reflexivity]).
  split; [exact H|]. exact (BuiltinIntegerWidth_fixed_round_trip 64 H).
Defined.

(** X5: [getLeastWidth] and [getGreatestWidth] reach [llvm_unreachable] on
    exactly two raw values, the keys that [DenseMapInfo] sets apart for empty
    and deleted slots; on every other width both return, the least width is
    at most the greatest, and they differ only for the pointer width (32 and
    64).  The two keys are different from each other, from the pointer width
    and from every width that [fixed] returns. *)
Theorem BuiltinIntegerWidth_special_values :
  forall w : BuiltinIntegerWidth.t,
    (0 <= BuiltinIntegerWidth.RawValue w < 2 ^ 32)%Z ->
    let isKey :=
      DenseMapInfo_BuiltinIntegerWidth.isEqual w
        DenseMapInfo_BuiltinIntegerWidth.getEmptyKey
      || DenseMapInfo_BuiltinIntegerWidth.isEqual w
           DenseMapInfo_BuiltinIntegerWidth.getTombstoneKey in
    (if isKey
     then BuiltinIntegerWidth.getLeastWidth w = Aborts
          /\ BuiltinIntegerWidth.getGreatestWidth w = Aborts
          /\ BuiltinIntegerWidth.isFixedWidth w = false
          /\ BuiltinIntegerWidth.isPointerWidth w = false
     else exists least greatest,
            BuiltinIntegerWidth.getLeastWidth w = Returns least
            /\ BuiltinIntegerWidth.getGreatestWidth w = Returns greatest
            /\ (least <= greatest)%Z
            /\ (if BuiltinIntegerWidth.isPointerWidth w
                then least = 32%Z /\ greatest = 64%Z
                else least = BuiltinIntegerWidth.RawValue w
                     /\ greatest = BuiltinIntegerWidth.RawValue w))
    /\ DenseMapInfo_BuiltinIntegerWidth.isEqual
         DenseMapInfo_BuiltinIntegerWidth.getEmptyKey
         DenseMapInfo_BuiltinIntegerWidth.getTombstoneKey = false
    /\ (forall bitWidth, BuiltinIntegerWidth.fixed bitWidth = Returns w -> isKey = false)
    /\ (BuiltinIntegerWidth_eq w BuiltinIntegerWidth.pointer = true -> isKey = false).
Proof.
  intros [raw] Hr isKey. simpl in Hr. subst isKey.
  destruct Least_SpecialValue_eq as (EL & ET & EE & EP).
  unfold DenseMapInfo_BuiltinIntegerWidth.isEqual, BuiltinIntegerWidth_eq,
    DenseMapInfo_BuiltinIntegerWidth.getEmptyKey,
    DenseMapInfo_BuiltinIntegerWidth.getTombstoneKey, BuiltinIntegerWidth.pointer,
    BuiltinIntegerWidth.getLeastWidth, BuiltinIntegerWidth.getGreatestWidth,
    BuiltinIntegerWidth.getFixedWidth, BuiltinIntegerWidth.isFixedWidth,
    BuiltinIntegerWidth.isPointerWidth, BuiltinIntegerWidth.fixed.
  simpl. rewrite EL, ET, EE, EP. change (2 ^ 32)%Z with 4294967296%Z in Hr.
  split_and!.
  - destruct (Z.eqb_spec raw 4294967294) as [->|H1]; [done|].
    destruct (Z.eqb_spec raw 4294967293) as [->|H2]; [done|]. simpl.
    destruct (Z.ltb_spec raw 4294967293) as [Hlt|Hge]; simpl.
    + exists raw, raw. split_and!; try done; try lia.
      destruct (Z.eqb_spec raw 4294967295); [lia|done].
    + assert (raw = 4294967295%Z) as -> by lia. simpl. exists 32%Z, 64%Z. by split_and!.
  - done.
  - intros bitWidth. destruct (Z.ltb_spec bitWidth 4294967293) as [Hlt|Hge]; simpl; [|done].
    intros [= ->]. apply orb_false_iff. split; apply Z.eqb_neq; lia.
  - intros ->%Z.eqb_eq. done.
Qed.

Lemma BuiltinIntegerWidth_special_values_witness :
  (0 <= BuiltinIntegerWidth.RawValue BuiltinIntegerWidth.pointer < 2 ^ 32)%Z
  /\ BuiltinIntegerWidth.getLeastWidth BuiltinIntegerWidth.pointer = Returns 32%Z
  /\ BuiltinIntegerWidth.getGreatestWidth BuiltinIntegerWidth.pointer = Returns 64%Z
  /\ BuiltinIntegerWidth.getLeastWidth DenseMapInfo_BuiltinIntegerWidth.getEmptyKey
     = Aborts.
Proof.
  assert (0 <= BuiltinIntegerWidth.RawValue BuiltinIntegerWidth.pointer < 2 ^ 32)%Z as H
    by (split; [discriminate | reflexivity]).
  assert (0 <= BuiltinIntegerWidth.RawValue DenseMapInfo_BuiltinIntegerWidth.getEmptyKey
          < 2 ^ 32)%Z as H' by (split; [discriminate | reflexivity]).
  split; [exact H|].
  pose proof (proj1 (BuiltinIntegerWidth_special_values _ H)) as HP.
  pose proof (proj1 (BuiltinIntegerWidth_special_values _ H')) as HE.
  split_and!; [by vm_compute..|]. exact (proj1 HE).
Defined.

(** X6: [BuiltinIntegerType::isFixedWidth(width)] never aborts: [&&] keeps
    [getFixedWidth] from a width that is not fixed, and the answer is true
    exactly when the width of the type is fixed and equal to [width]. *)
Theorem BuiltinIntegerType_isFixedWidth_of_width_total :
  forall (w : BuiltinIntegerWidth.t) (width : Z),
    BuiltinIntegerType_isFixedWidthOf (BuiltinIntegerType_ctor w) width
    = Returns (BuiltinIntegerWidth.isFixedWidth w
               && (BuiltinIntegerWidth.RawValue w =? width)%Z)
    /\ BuiltinIntegerType_isFixedWidthOf
         (BuiltinIntegerType_ctor BuiltinIntegerWidth.pointer) width = Returns false.
Proof.
  intros w width.
  assert (forall w', BuiltinIntegerType_isFixedWidthOf (BuiltinIntegerType_ctor w') width
                     = Returns (BuiltinIntegerWidth.isFixedWidth w'
                                && (BuiltinIntegerWidth.RawValue w' =? width)%Z)) as H.
  { intros w'. unfold BuiltinIntegerType_isFixedWidthOf. simpl.
    unfold BuiltinIntegerWidth.getFixedWidth.
    by destruct (BuiltinIntegerWidth.isFixedWidth w'). }
  split; [apply H|]. rewrite H. done.
Qed.

(** ** Elements of tuples *)

(** X7: an element built without the variadic flag is always built, and gives
    back the type, the name and the kind of default argument it was built
    from; it has an initializer exactly when that kind is not [None].  With
    the variadic flag the constructor goes through only for a type that
    passes its test and for the kind [None]; the element is then variadic,
    has no default argument and no initializer. *)
Theorem TupleTypeElt_constructor_round_trip :
  forall (isVarargStorageType : Type_ -> Outcome bool) (ty : Type_)
         (name : Identifier) (defArg : DefaultArgumentKind),
    (exists elt,
        TupleTypeElt_ctor isVarargStorageType ty name defArg false = Returns elt
        /\ getType elt = ty
        /\ getName elt = name
        /\ getDefaultArgKind elt = defArg
        /\ isVararg elt = false
        /\ hasInit elt = negb (bool_decide (defArg = DefaultArgumentKind_None)))
    /\ match isVarargStorageType ty, defArg with
       | Returns true, DefaultArgumentKind_None =>
           exists elt,
             TupleTypeElt_ctor isVarargStorageType ty name defArg true = Returns elt
             /\ getType elt = ty
             /\ getName elt = name
             /\ isVararg elt = true
             /\ getDefaultArgKind elt = DefaultArgumentKind_None
             /\ hasInit elt = false
       | _, _ => TupleTypeElt_ctor isVarargStorageType ty name defArg true = Aborts
       end.
Proof.
  intros f ty name defArg. split.
  - unfold TupleTypeElt_ctor. simpl. eexists. split; [reflexivity|].
    by destruct defArg.
  - unfold TupleTypeElt_ctor. simpl.
    destruct (f ty) as [[|]|]; simpl; try by destruct defArg.
    destruct defArg; simpl; try done.
    eexists. split; [reflexivity|]. done.
Qed.

(** X8: [getWithType] replaces the type of an element and nothing else: the
    name and the stored default-argument or variadic marker stay.  It always
    returns for an element that is not variadic; for a variadic one it
    returns exactly when the new type passes the constructor's test.
    Putting back the element's own type gives the element itself, and a
    second replacement overrides the first. *)
Theorem TupleTypeElt_getWithType_replaces_type_only :
  forall (isVarargStorageType : Type_ -> Outcome bool) (elt : TupleTypeElt)
         (T U : Type_),
    let replaced T' :=
      {| Name := Name elt; Ty := T'; DefaultOrVarArg := DefaultOrVarArg elt |} in
    getWithType isVarargStorageType elt T
    = (if isVararg elt
       then match isVarargStorageType T with
            | Returns true => Returns (replaced T)
            | _ => Aborts
            end
       else Returns (replaced T))
    /\ (isVararg elt = false ->
        getWithType isVarargStorageType elt (getType elt) = Returns elt
        /\ Outcome_bind (getWithType isVarargStorageType elt T)
             (fun elt' => getWithType isVarargStorageType elt' U)
           = getWithType isVarargStorageType elt U)
    /\ (isVararg elt = true -> hasInit elt = false).
Proof.
  intros f [name ty dav] T U replaced. subst replaced.
  assert (forall T',
    getWithType f {| Name := name; Ty := ty; DefaultOrVarArg := dav |} T'
    = if isVararg {| Name := name; Ty := ty; DefaultOrVarArg := dav |}
      then match f T' with
           | Returns true =>
               Returns {| Name := name; Ty := T'; DefaultOrVarArg := dav |}
           | _ => Aborts
           end
      else Returns {| Name := name; Ty := T'; DefaultOrVarArg := dav |}) as H.
  { intros T'. unfold getWithType, TupleTypeElt_ctor, isVararg, getDefaultArgKind, getName.
    simpl. destruct dav; simpl; try done. by destruct (f T') as [[|]|]. }
  split_and!.
  - apply H.
  - intros HV. rewrite !H, HV. simpl. split; [done|].
    pose proof (H U) as HU. rewrite HV in HU.
    unfold isVararg in HV. simpl in HV.
    unfold getWithType, TupleTypeElt_ctor, isVararg, getDefaultArgKind, getName. simpl.
    by destruct dav.
  - unfold isVararg, hasInit, getDefaultArgKind. simpl. by destruct dav.
Qed.

(** ** The calling details of a function type *)

Lemma ExtInfo_ofAll_getters CC Rep IsNoReturn IsAutoClosure :
  let Info := AnyFunctionType.ExtInfo.ofAll CC Rep IsNoReturn IsAutoClosure in
  AnyFunctionType.ExtInfo.getCC Info = Returns CC
  /\ AnyFunctionType.ExtInfo.getRepresentation Info = Returns Rep
  /\ AnyFunctionType.ExtInfo.isNoReturn Info = IsNoReturn
  /\ AnyFunctionType.ExtInfo.isAutoClosure Info = IsAutoClosure.
Proof. by destruct CC, Rep, IsNoReturn, IsAutoClosure; vm_compute. Qed.

Lemma ExtInfo_ofAll_inj CC Rep NR AC CC' Rep' NR' AC' :
  AnyFunctionType.ExtInfo.ofAll CC Rep NR AC
  = AnyFunctionType.ExtInfo.ofAll CC' Rep' NR' AC' ->
  CC = CC' /\ Rep = Rep' /\ NR = NR' /\ AC = AC'.
Proof.
  intros E.
  destruct (ExtInfo_ofAll_getters CC Rep NR AC) as (H1 & H2 & H3 & H4).
  destruct (ExtInfo_ofAll_getters CC' Rep' NR' AC') as (H1' & H2' & H3' & H4').
  rewrite E in H1, H2, H3, H4. split_and!; congruence.
Qed.

Lemma ExtInfo_with_ofAll CC Rep NR AC :
  let Info := AnyFunctionType.ExtInfo.ofAll CC Rep NR AC in
  (forall CC', AnyFunctionType.ExtInfo.withCallingConv Info CC'
               = AnyFunctionType.ExtInfo.ofAll CC' Rep NR AC)
  /\ (forall Rep', AnyFunctionType.ExtInfo.withRepresentation Info Rep'
                   = AnyFunctionType.ExtInfo.ofAll CC Rep' NR AC)
  /\ (forall NR', AnyFunctionType.ExtInfo.withIsNoReturn Info NR'
                  = AnyFunctionType.ExtInfo.ofAll CC Rep NR' AC)
  /\ (forall AC', AnyFunctionType.ExtInfo.withIsAutoClosure Info AC'
                  = AnyFunctionType.ExtInfo.ofAll CC Rep NR AC').
Proof.
  split_and!; intros x; by destruct CC, Rep, NR, AC, x; vm_compute.
Qed.

Lemma ExtInfo_constructors_ofAll :
  AnyFunctionType.ExtInfo.default
  = Returns (AnyFunctionType.ExtInfo.ofAll
               AnyFunctionType.Freestanding AnyFunctionType.Thick false false)
  /\ (forall CC,
        AnyFunctionType.ExtInfo.ofCC CC
        = AnyFunctionType.ExtInfo.ofAll CC AnyFunctionType.Thick false false)
  /\ (forall CC Rep NR,
        AnyFunctionType.ExtInfo.ofCCRepNoReturn CC Rep NR
        = AnyFunctionType.ExtInfo.ofAll CC Rep NR false).
Proof.
  split_and!; [by vm_compute | by intros []; vm_compute
              | by intros [] [] []; vm_compute].
Qed.

Lemma ExtInfo_ofAll_stored CC Rep NR AC T :
  let Info := AnyFunctionType.ExtInfo.ofAll CC Rep NR AC in
  (0 <= AnyFunctionType.ExtInfo.Bits Info < 2 ^ 8)%Z
  /\ AnyFunctionType.getExtInfo (AnyFunctionType.set_AnyFunctionTypeBits_ExtInfo T Info)
     = Info.
Proof.
  unfold AnyFunctionType.getExtInfo, AnyFunctionType.set_AnyFunctionTypeBits_ExtInfo,
    AnyFunctionType.AnyFunctionTypeBits_ExtInfo.
  simpl. by destruct CC, Rep, NR, AC; vm_compute.
Qed.

(** X9: an [ExtInfo] built from a calling convention, a representation and
    the two flags gives each of the four back, so two of them are equal only
    if they were built from the same four; it has a context unless the
    representation is thin.  The shorter constructors fill in what they are
    not given: no auto-closure for the one of three arguments, the thick
    representation and no flag for the one of a calling convention, and
    these with the freestanding convention for the default one, whose assert
    holds. *)
Theorem ExtInfo_constructor_round_trip :
  forall (CC CC' : AnyFunctionType.AbstractCC)
         (Rep Rep' : AnyFunctionType.Representation)
         (IsNoReturn IsNoReturn' IsAutoClosure IsAutoClosure' : bool),
    let Info := AnyFunctionType.ExtInfo.ofAll CC Rep IsNoReturn IsAutoClosure in
    let Info' := AnyFunctionType.ExtInfo.ofAll CC' Rep' IsNoReturn' IsAutoClosure' in
    AnyFunctionType.ExtInfo.getCC Info = Returns CC
    /\ AnyFunctionType.ExtInfo.getRepresentation Info = Returns Rep
    /\ AnyFunctionType.ExtInfo.isNoReturn Info = IsNoReturn
    /\ AnyFunctionType.ExtInfo.isAutoClosure Info = IsAutoClosure
    /\ AnyFunctionType.ExtInfo.hasContext Info
       = Returns match Rep with
                 | AnyFunctionType.Thin => false
                 | AnyFunctionType.Thick | AnyFunctionType.Block => true
                 end
    /\ (AnyFunctionType.ExtInfo.eq Info Info' = true
        <-> CC = CC' /\ Rep = Rep' /\ IsNoReturn = IsNoReturn'
            /\ IsAutoClosure = IsAutoClosure')
    /\ AnyFunctionType.ExtInfo.ofCCRepNoReturn CC Rep IsNoReturn
       = AnyFunctionType.ExtInfo.ofAll CC Rep IsNoReturn false
    /\ AnyFunctionType.ExtInfo.ofCC CC
       = AnyFunctionType.ExtInfo.ofAll CC AnyFunctionType.Thick false false
    /\ AnyFunctionType.ExtInfo.default
       = Returns (AnyFunctionType.ExtInfo.ofAll
                    AnyFunctionType.Freestanding AnyFunctionType.Thick false false).
Proof.
  intros CC CC' Rep Rep' NR NR' AC AC' Info Info'. subst Info Info'.
  destruct (ExtInfo_ofAll_getters CC Rep NR AC) as (H1 & H2 & H3 & H4).
  destruct ExtInfo_constructors_ofAll as (HD & HC & H3C).
  split_and!; try done.
  - unfold AnyFunctionType.ExtInfo.hasContext. rewrite H2. by destruct Rep.
  - split.
    + intros HE. apply ExtInfo_ofAll_inj.
      unfold AnyFunctionType.ExtInfo.eq in HE. apply Z.eqb_eq in HE.
      destruct (AnyFunctionType.ExtInfo.ofAll CC Rep NR AC),
        (AnyFunctionType.ExtInfo.ofAll CC' Rep' NR' AC').
      simpl in HE. by subst.
    + intros (-> & -> & -> & ->). unfold AnyFunctionType.ExtInfo.eq. apply Z.eqb_refl.
Qed.

(** X10: each of the four [with...] functions replaces its own component of
    an [ExtInfo] and keeps the other three, whatever they are: on a value
    built from four components it gives the value built from the new one and
    the three old ones.  So setting a component to what it is changes
    nothing, a second setting of a component overrides the first, and
    settings of different components can be done in either order. *)
Theorem ExtInfo_with_replaces_one_component :
  forall (CC CC' CC'' : AnyFunctionType.AbstractCC)
         (Rep Rep' : AnyFunctionType.Representation)
         (IsNoReturn IsNoReturn' IsAutoClosure IsAutoClosure' : bool),
    let Info := AnyFunctionType.ExtInfo.ofAll CC Rep IsNoReturn IsAutoClosure in
    AnyFunctionType.ExtInfo.withCallingConv Info CC'
    = AnyFunctionType.ExtInfo.ofAll CC' Rep IsNoReturn IsAutoClosure
    /\ AnyFunctionType.ExtInfo.withRepresentation Info Rep'
       = AnyFunctionType.ExtInfo.ofAll CC Rep' IsNoReturn IsAutoClosure
    /\ AnyFunctionType.ExtInfo.withIsNoReturn Info IsNoReturn'
       = AnyFunctionType.ExtInfo.ofAll CC Rep IsNoReturn' IsAutoClosure
    /\ AnyFunctionType.ExtInfo.withIsAutoClosure Info IsAutoClosure'
       = AnyFunctionType.ExtInfo.ofAll CC Rep IsNoReturn IsAutoClosure'
    /\ AnyFunctionType.ExtInfo.withCallingConv Info CC = Info
    /\ AnyFunctionType.ExtInfo.withCallingConv
         (AnyFunctionType.ExtInfo.withCallingConv Info CC') CC''
       = AnyFunctionType.ExtInfo.withCallingConv Info CC''
    /\ AnyFunctionType.ExtInfo.withRepresentation
         (AnyFunctionType.ExtInfo.withCallingConv Info CC') Rep'
       = AnyFunctionType.ExtInfo.withCallingConv
           (AnyFunctionType.ExtInfo.withRepresentation Info Rep') CC'
    /\ AnyFunctionType.ExtInfo.withIsNoReturn
         (AnyFunctionType.ExtInfo.withIsAutoClosure Info IsAutoClosure') IsNoReturn'
       = AnyFunctionType.ExtInfo.withIsAutoClosure
           (AnyFunctionType.ExtInfo.withIsNoReturn Info IsNoReturn') IsAutoClosure'
    /\ AnyFunctionType.ExtInfo.withIsAutoClosure
         (AnyFunctionType.ExtInfo.withIsNoReturn
            (AnyFunctionType.ExtInfo.withRepresentation
               (AnyFunctionType.ExtInfo.ofCC CC) Rep)
            IsNoReturn)
         IsAutoClosure
       = Info.
Proof.
  intros CC CC' CC'' Rep Rep' NR NR' AC AC' Info. subst Info.
  destruct ExtInfo_constructors_ofAll as (_ & HC & _).
  pose proof (fun a b c d => proj1 (ExtInfo_with_ofAll a b c d)) as W1.
  pose proof (fun a b c d => proj1 (proj2 (ExtInfo_with_ofAll a b c d))) as W2.
  pose proof (fun a b c d => proj1 (proj2 (proj2 (ExtInfo_with_ofAll a b c d)))) as W3.
  pose proof (fun a b c d => proj2 (proj2 (proj2 (ExtInfo_with_ofAll a b c d)))) as W4.
  simpl in W1, W2, W3, W4.
  rewrite HC.
  by rewrite ?W1, ?W2, ?W3, ?W4.
Qed.

(** X11: whatever [ExtInfo] a user of the class can come by, through the
    public constructors, the [with...] functions and [getExtInfo] of a
    function type built from one, is the value of some calling convention,
    representation and pair of flags.  So [getCC] and [getRepresentation]
    never read a number that names no enumerator, the value fits the eight
    bits that a function type keeps for it, and storing it into a function
    type and reading it back gives the same value and leaves the kind, the
    properties and the canonical type of the node alone. *)
Theorem ExtInfo_constructible_is_well_formed :
  forall Info : AnyFunctionType.ExtInfo.t,
    ExtInfo_constructible Info ->
    exists CC Rep IsNoReturn IsAutoClosure,
      Info = AnyFunctionType.ExtInfo.ofAll CC Rep IsNoReturn IsAutoClosure
      /\ AnyFunctionType.ExtInfo.getCC Info = Returns CC
      /\ AnyFunctionType.ExtInfo.getRepresentation Info = Returns Rep
      /\ AnyFunctionType.ExtInfo.isNoReturn Info = IsNoReturn
      /\ AnyFunctionType.ExtInfo.isAutoClosure Info = IsAutoClosure
      /\ (0 <= AnyFunctionType.ExtInfo.Bits Info < 2 ^ 8)%Z
      /\ forall T : TypeBase,
           let T' := AnyFunctionType.set_AnyFunctionTypeBits_ExtInfo T Info in
           AnyFunctionType.getExtInfo T' = Info
           /\ AnyFunctionType.getAbstractCC T' = Returns CC
           /\ AnyFunctionType.getRepresentation T' = Returns Rep
           /\ AnyFunctionType.isNoReturn T' = IsNoReturn
           /\ AnyFunctionType.isAutoClosure T' = IsAutoClosure
           /\ getKind T' = getKind T
           /\ getRecursiveProperties T' = getRecursiveProperties T
           /\ CanonicalType T' = CanonicalType T.
Proof.
  intros Info H.
  assert (exists CC Rep NR AC, Info = AnyFunctionType.ExtInfo.ofAll CC Rep NR AC)
    as (CC & Rep & NR & AC & ->).
  { destruct ExtInfo_constructors_ofAll as (HD & HC & H3C).
    induction H
      as [Info HI| | | |Info x _ IH|Info x _ IH|Info x _ IH|Info x _ IH|T Info _ IH].
    - rewrite HD in HI. injection HI as <-. by eexists _, _, _, _.
    - rewrite H3C. by eexists _, _, _, _.
    - by eexists _, _, _, _.
    - rewrite HC. by eexists _, _, _, _.
    - destruct IH as (a & b & c & d & ->).
      rewrite (proj1 (ExtInfo_with_ofAll a b c d)). by eexists _, _, _, _.
    - destruct IH as (a & b & c & d & ->).
      rewrite (proj1 (proj2 (ExtInfo_with_ofAll a b c d))). by eexists _, _, _, _.
    - destruct IH as (a & b & c & d & ->).
      rewrite (proj1 (proj2 (proj2 (ExtInfo_with_ofAll a b c d)))).
      by eexists _, _, _, _.
    - destruct IH as (a & b & c & d & ->).
      rewrite (proj2 (proj2 (proj2 (ExtInfo_with_ofAll a b c d)))).
      by eexists _, _, _, _.
    - destruct IH as (a & b & c & d & ->).
      rewrite (proj2 (ExtInfo_ofAll_stored a b c d T)). by eexists _, _, _, _. }
  destruct (ExtInfo_ofAll_getters CC Rep NR AC) as (H1 & H2 & H3 & H4).
  exists CC, Rep, NR, AC.
  do 5 (split; [done|]). split.
  - apply (ExtInfo_ofAll_stored CC Rep NR AC
             (TypeBase_ctor Error false RTP.empty ErrorType_)).
  - intros T T'. subst T'.
    unfold AnyFunctionType.getAbstractCC, AnyFunctionType.getRepresentation,
      AnyFunctionType.isNoReturn, AnyFunctionType.isAutoClosure.
    rewrite (proj2 (ExtInfo_ofAll_stored CC Rep NR AC T)).
    do 5 (split; [done|]). done.
Qed.

Lemma ExtInfo_constructible_is_well_formed_witness :
  let Info :=
    AnyFunctionType.ExtInfo.withIsNoReturn
      (AnyFunctionType.ExtInfo.withRepresentation
         (AnyFunctionType.ExtInfo.ofCC AnyFunctionType.Method) AnyFunctionType.Thin)
      true in
  ExtInfo_constructible Info
  /\ exists CC Rep IsNoReturn IsAutoClosure,
       Info = AnyFunctionType.ExtInfo.ofAll CC Rep IsNoReturn IsAutoClosure
       /\ AnyFunctionType.ExtInfo.getCC Info = Returns CC.
Proof.
  intros Info.
  assert (ExtInfo_constructible Info) as H.
  { apply constructible_withIsNoReturn, constructible_withRepresentation,
      constructible_ofCC. }
  split; [exact H|].
  destruct (ExtInfo_constructible_is_well_formed _ H)
    as (CC & Rep & NR & AC & E & HCC & _).
  exists CC, Rep, NR, AC. split; [exact E | exact HCC].
Defined.


(** ** Parameters of SIL function types *)

(** X12: the parameters of a SIL function type are its indirect result, if it
    has one, followed by the parameters without the indirect result.  With an
    indirect result [getIndirectInterfaceResult] returns the first parameter,
    which is passed indirectly, is not in-out and is not consumed; without
    one (in particular with no parameters at all) it aborts and
    [getInterfaceParametersWithoutIndirectResult] is the whole list.  Only
    the first parameter is looked at: an [Indirect_Out] further back stays in
    the list. *)
Theorem SILFunctionType_parameters_split :
  forall T : SILFunctionType.t,
    (if SILFunctionType.hasIndirectResult T
     then exists result,
            SILFunctionType.getIndirectInterfaceResult T = Returns result
            /\ SILFunctionType.getInterfaceParameters T
               = result :: SILFunctionType.getInterfaceParametersWithoutIndirectResult T
            /\ SILParameterInfo.getConvention result = Indirect_Out
            /\ SILParameterInfo.isIndirect result = true
            /\ SILParameterInfo.isIndirectInOut result = false
            /\ SILParameterInfo.isConsumed result = false
     else SILFunctionType.getIndirectInterfaceResult T = Aborts
          /\ SILFunctionType.getInterfaceParametersWithoutIndirectResult T
             = SILFunctionType.getInterfaceParameters T)
    /\ SILFunctionType.hasIndirectResult (SILFunctionType.mk []) = false
    /\ (forall param,
          param ∈ drop 1 (SILFunctionType.getInterfaceParameters T) ->
          param ∈ SILFunctionType.getInterfaceParametersWithoutIndirectResult T).
Proof.
  intros [params].
  unfold SILFunctionType.getIndirectInterfaceResult,
    SILFunctionType.getInterfaceParametersWithoutIndirectResult,
    SILFunctionType.hasIndirectResult, SILFunctionType.getInterfaceParameters.
  simpl. split_and!.
  - destruct params as [|[ty conv] rest]; simpl; [done|].
    unfold SILParameterInfo.isIndirectResult, SILParameterInfo.getConvention. simpl.
    destruct conv; simpl; try done.
    eexists. split; [reflexivity|]. by split_and!.
  - done.
  - intros param Hin. destruct params as [|p rest]; [done|].
    simpl in *. destruct (SILParameterInfo.isIndirectResult p); simpl.
    + by rewrite drop_0 in Hin.
    + rewrite drop_0 in Hin. by right.
Qed.

(** X13: how the predicates of a SIL parameter depend on each other: an
    in-out parameter and an indirect result are passed indirectly and are not
    consumed, no parameter is both, an indirect parameter that is neither is
    consumed, and a parameter that is passed directly is consumed exactly
    when its convention is [Direct_Owned]. *)
Theorem SILParameterInfo_predicates_agree :
  forall param : SILParameterInfo.t,
    (SILParameterInfo.isIndirectInOut param || SILParameterInfo.isIndirectResult param
     = SILParameterInfo.isIndirect param && negb (SILParameterInfo.isConsumed param))
    /\ SILParameterInfo.isIndirectInOut param && SILParameterInfo.isIndirectResult param
       = false
    /\ (SILParameterInfo.isIndirect param && SILParameterInfo.isConsumed param
        = match SILParameterInfo.getConvention param with
          | Indirect_In => true
          | _ => false
          end)
    /\ (negb (SILParameterInfo.isIndirect param) && SILParameterInfo.isConsumed param
        = match SILParameterInfo.getConvention param with
          | Direct_Owned => true
          | _ => false
          end).
Proof. intros [ty conv]. by destruct conv. Qed.

(** ** Archetypes *)

(** X14: an archetype built with an index is primary and gives the index
    back, for every index but the largest [unsigned]: there [*Index + 1]
    wraps to zero, which is how an archetype without an index is stored, so
    the archetype is not primary and [getPrimaryIndex] aborts, as it does for
    an archetype built without an index.  Either way the archetype is
    canonical, keeps its parent and its protocols, and is no opened
    existential. *)
Theorem ArchetypeType_primary_index_round_trip :
  forall (Parent : option nat) (ConformsTo : list Decl) (Superclass : Type_)
         (index : Z),
    (0 <= index < 2 ^ 32)%Z ->
    let T := ArchetypeType_ctor Parent ConformsTo Superclass (Some index) in
    let T0 := ArchetypeType_ctor Parent ConformsTo Superclass None in
    (if (index =? 2 ^ 32 - 1)%Z
     then ArchetypeType_isPrimary T = Returns false
          /\ ArchetypeType_getPrimaryIndex T = Aborts
          /\ T = T0
     else ArchetypeType_isPrimary T = Returns true
          /\ ArchetypeType_getPrimaryIndex T = Returns index)
    /\ ArchetypeType_isPrimary T0 = Returns false
    /\ ArchetypeType_getPrimaryIndex T0 = Aborts
    /\ ArchetypeType_getParent T = Parent
    /\ getConformsTo T = ConformsTo
    /\ getOpenedExistentialType T = None
    /\ getOpenedExistentialID T = Aborts
    /\ isCanonical T = true
    /\ getKind T = Archetype.
Proof.
  intros Parent ConformsTo Superclass index Hr T T0. subst T T0.
  change (2 ^ 32)%Z with 4294967296%Z in *.
  split; [|by split_and!].
  unfold ArchetypeType_isPrimary, ArchetypeType_getPrimaryIndex, ArchetypeType_isPrimary,
    ArchetypeType_ctor, IndexIfPrimaryOrExistentialID, getOpenedExistentialType, toUnsigned.
  simpl. change (2 ^ 32)%Z with 4294967296%Z.
  destruct (Z.eqb_spec index (4294967296 - 1)) as [->|Hne].
  - by vm_compute.
  - rewrite (Z.mod_small (index + 1)) by lia.
    assert ((0 <? index + 1)%Z = true) as -> by (apply Z.ltb_lt; lia). simpl.
    split; [done|]. f_equal. rewrite Z.mod_small; lia.
Qed.

Lemma ArchetypeType_primary_index_round_trip_witness :
  (0 <= 2 < 2 ^ 32)%Z
  /\ ArchetypeType_isPrimary (ArchetypeType_ctor None [] None (Some 2%Z)) = Returns true
  /\ ArchetypeType_getPrimaryIndex (ArchetypeType_ctor None [] None (Some 2%Z))
     = Returns 2%Z.
Proof.
  assert (0 <= 2 < 2 ^ 32)%Z as H by (split; [discriminate | reflexivity]).
  split; [exact H|].
  exact (proj1 (ArchetypeType_primary_index_round_trip None [] None 2 H)).
Defined.

(** X15: the archetype of an opened existential gives back the existential
    and the identifier it was built from, the identifier zero too; it has no
    parent, and it is never primary, so [getPrimaryIndex] aborts on it
    whatever the identifier.  Built from a null existential it is no opened
    existential at all: [getOpenedExistentialID] aborts, and the identifier
    is read as a primary index plus one. *)
Theorem ArchetypeType_opened_is_not_primary :
  forall (E : nat) (ID : Z) (ConformsTo : list Decl) (Superclass : Type_),
    let T := ArchetypeType_ctor_opened (Some E) ID ConformsTo Superclass in
    let T0 := ArchetypeType_ctor_opened None ID ConformsTo Superclass in
    getOpenedExistentialType T = Some E
    /\ getOpenedExistentialID T = Returns ID
    /\ ArchetypeType_isPrimary T = Returns false
    /\ ArchetypeType_getPrimaryIndex T = Aborts
    /\ ArchetypeType_getParent T = None
    /\ getConformsTo T = ConformsTo
    /\ isCanonical T = true
    /\ getOpenedExistentialType T0 = None
    /\ getOpenedExistentialID T0 = Aborts
    /\ ArchetypeType_isPrimary T0 = Returns (0 <? ID)%Z
    /\ ArchetypeType_getPrimaryIndex T0
       = (if (0 <? ID)%Z then Returns (toUnsigned (ID - 1)) else Aborts).
Proof.
  intros E ID ConformsTo Superclass T T0. subst T T0.
  unfold ArchetypeType_isPrimary, ArchetypeType_getPrimaryIndex, ArchetypeType_isPrimary,
    ArchetypeType_ctor_opened, IndexIfPrimaryOrExistentialID, getOpenedExistentialType.
  simpl. rewrite andb_false_r, andb_true_r. simpl.
  split_and!; try done. by destruct (0 <? ID)%Z.
Qed.

(** ** Type variables and generic parameters *)

(** X16: a type variable keeps its identifier in the 29 bits that the shared
    bit-fields leave of an [unsigned]: [getID] gives back the identifier
    modulo 2^29, which is the identifier exactly when it is below 2^29, so
    two identifiers that differ by 2^29 give the same node.  The node is
    canonical and has the property [HasTypeVariable] and no other. *)
Theorem TypeVariableType_getID_keeps_29_bits :
  forall ID : Z,
    let T := TypeVariableType_ctor ID in
    TypeVariableType_getID T = (ID mod 2 ^ 29)%Z
    /\ (TypeVariableType_getID T = ID <-> (0 <= ID < 2 ^ 29)%Z)
    /\ TypeVariableType_ctor (ID + 2 ^ 29) = T
    /\ getKind T = TypeVariable
    /\ isCanonical T = true
    /\ RTP.hasTypeVariable (getRecursiveProperties T) = true
    /\ RTP.isDependent (getRecursiveProperties T) = false
    /\ RTP.isMaterializable (getRecursiveProperties T) = true.
Proof.
  intros ID T. subst T.
  assert (forall x, Z.land x (Z.ones (32 - RTP.BitWidth)) = (x mod 2 ^ 29)%Z) as HL.
  { intros x. change (32 - RTP.BitWidth)%Z with 29%Z. by rewrite Z.land_ones. }
  unfold TypeVariableType_getID, TypeVariableTypeBits_ID, TypeVariableType_ctor. simpl.
  rewrite !HL. rewrite Z.mod_mod by done.
  split_and!; try done.
  - split.
    + intros <-. apply Z.mod_pos_bound. done.
    + intros Hr. by apply Z.mod_small.
  - f_equal. rewrite <- (Z.mul_1_l (2 ^ 29)) at 1. by rewrite Z.mod_add.
Qed.



(** ** The protocols of a canonical composition *)

Lemma getProtocolDecls_Returns_iff Nodes Protocols Ds :
  CanProtocolCompositionType_getProtocolDecls Nodes Protocols = Returns Ds
  <-> Forall2 (fun proto D => exists N, derefType Nodes proto = Some N
                                        /\ ProtocolType_getDecl N = Returns D)
        Protocols Ds.
Proof.
  revert Ds. induction Protocols as [|proto rest IH]; intros Ds; simpl.
  - split.
    + intros [= <-]. constructor.
    + intros H. by inversion H.
  - split.
    + destruct (derefType Nodes proto) as [N|] eqn:EN; [|done].
      destruct (ProtocolType_getDecl N) as [D|] eqn:ED; [|done]. simpl.
      destruct (CanProtocolCompositionType_getProtocolDecls Nodes rest) as [Ds'|] eqn:ER;
        [|done].
      simpl. intros [= <-]. constructor; [by exists N|]. by apply IH.
    + intros H. inversion H as [|? D ? Ds' (N & EN & ED) HR]; subst.
      rewrite EN, ED. simpl. apply IH in HR. by rewrite HR.
Qed.

(** X18: [getAnyExistentialTypeProtocols] of a canonical composition returns
    exactly when every member is a live protocol type, and then gives the
    declarations of the members, one for each and in their order; a null or
    dangling member, or one of another kind, makes it abort.  It goes through
    a list that is put together from two by doing the first and then the
    second, and nodes allocated later do not change what it returns. *)
Theorem CanProtocolCompositionType_protocols_in_order :
  forall (Nodes More : list TypeBase) (Protocols Protocols' : list Type_)
         (Ds : list Decl),
    (CanProtocolCompositionType_getProtocolDecls Nodes Protocols = Returns Ds
     <-> Forall2 (fun proto D => exists N, derefType Nodes proto = Some N
                                           /\ ProtocolType_getDecl N = Returns D)
           Protocols Ds)
    /\ (CanProtocolCompositionType_getProtocolDecls Nodes Protocols = Returns Ds ->
        length Ds = length Protocols
        /\ CanProtocolCompositionType_getProtocolDecls (Nodes ++ More) Protocols
           = Returns Ds)
    /\ CanProtocolCompositionType_getProtocolDecls Nodes (Protocols ++ Protocols')
       = Outcome_bind (CanProtocolCompositionType_getProtocolDecls Nodes Protocols)
           (fun Ds1 =>
            Outcome_bind (CanProtocolCompositionType_getProtocolDecls Nodes Protocols')
              (fun Ds2 => Returns (Ds1 ++ Ds2)))
    /\ (forall proto,
          proto ∈ Protocols ->
          match derefType Nodes proto with
          | Some N => getKind N <> Protocol
          | None => True
          end ->
          CanProtocolCompositionType_getProtocolDecls Nodes Protocols = Aborts).
Proof.
  intros Nodes More Protocols Protocols' Ds. split_and!.
  - apply getProtocolDecls_Returns_iff.
  - intros H. apply getProtocolDecls_Returns_iff in H. split.
    + symmetry. by eapply Forall2_length.
    + apply getProtocolDecls_Returns_iff.
      eapply Forall2_impl; [exact H|]. simpl.
      intros proto D (N & EN & ED). exists N. split; [|done].
      destruct proto as [p|]; [|done]. simpl in *. by apply lookup_app_l_Some.
  - induction Protocols as [|proto rest IH]; simpl.
    + by destruct (CanProtocolCompositionType_getProtocolDecls Nodes Protocols').
    + destruct (derefType Nodes proto) as [N|]; [|done].
      destruct (ProtocolType_getDecl N) as [D|]; [|done]. simpl.
      rewrite IH.
      destruct (CanProtocolCompositionType_getProtocolDecls Nodes rest) as [Ds1|]; [|done].
      simpl.
      by destruct (CanProtocolCompositionType_getProtocolDecls Nodes Protocols').
  - intros proto Hin Hbad.
    destruct (CanProtocolCompositionType_getProtocolDecls Nodes Protocols) as [Ds0|] eqn:E;
      [|done].
    apply getProtocolDecls_Returns_iff in E.
    exfalso. induction E as [|p D ps Ds' (N & EN & ED) _ IH]; [by inversion Hin|].
    inversion Hin; subst; [|by apply IH].
    rewrite EN in Hbad. unfold ProtocolType_getDecl in ED. unfold getKind in Hbad.
    by destruct (Kind N).
Qed.
